(** * cross-wordle: the board validation engine (utils/solver)

    A shallow embedding of the solver of the cross-wordle puzzle
    (connectivity check, word extraction, tile-state validation) and of the
    [requestFinish] callback that gates it, with the properties the
    specification states about them.

    Modelling conventions.
    - A JavaScript array is a [list]; an index read is stdpp's lookup [!!].
      Reading or writing a property of [undefined] (an index out of range
      followed by a property access) throws a [TypeError], which the model
      makes explicit in the [result] type.
    - Strings are [string]s of 8-bit characters; [toLowerCase] is the ASCII
      case mapping, which keeps the length of a string.
    - The types of utils/game are taken from their uses: a [Letter] has an
      [id] and a [letter], a [Tile] an [id], a [row], a [col], a [letter]
      that may be [null] and a [state], a [Board] a [cursor] and [tiles].
      The type of the cursor is a parameter; the dictionary of
      constants/words is a parameter, a finite set of strings.
    - A [Letter] object carries its reference [Letter.ref]: a JavaScript
      [Set] of objects is keyed by reference, and [validateBoard] copies
      the reference of a letter into the tiles it creates.
    - The tiles in the set of visited tiles of [validateWordIsland] are
      compared as values. On a grid whose tiles store their own positions
      two tiles at different positions are different values, so that this
      is the comparison of references.
    - [validateBoard] is given twice: on the values of the tiles, and with
      the tile objects in a store, to state which objects it writes. *)

From Stdlib Require Import ZArith Ascii.
From stdpp Require Import base tactics option list gmap strings sorting.

Open Scope nat_scope.

(** ** Errors *)

Inductive error : Type :=
| TypeError       (* a property of [undefined] was read or written *)
| FuelExhausted.  (* the recursion bound of the model was reached *)

Inductive result (A : Type) : Type :=
| Ok (a : A)
| Err (e : error).

Arguments Ok {A} a.
Arguments Err {A} e.

Definition bind {A B : Type} (m : result A) (k : A → result B) : result B :=
  match m with
  | Ok a => k a
  | Err e => Err e
  end.

Notation "'let*' x ':=' m 'in' k" := (bind m (λ x, k))
  (at level 10, x pattern, m at level 100, k at level 200,
   format "'[v' 'let*'  x  ':='  m  'in' '/' k ']'").

(** [for (const x of xs) body], the body updating a state and possibly
    throwing. *)
Fixpoint forOf {A S : Type} (xs : list A) (body : A → S → result S) (s : S)
  : result S :=
  match xs with
  | [] => Ok s
  | x :: xs' => let* s' := body x s in forOf xs' body s'
  end.

(** [for (let i = 0; i < n; i++) body]. *)
Definition forRange {S : Type} (n : nat) (body : nat → S → result S) (s : S)
  : result S :=
  forOf (seq 0 n) body s.

(** ** Data model (utils/game) *)

Inductive TileState : Type := IDLE | VALID | INVALID | MIXED.

Global Instance TileState_eq_dec : EqDecision TileState.
Proof. solve_decision. Defined.

Module Letter.
Record t : Type := mk {
  ref : nat;        (* the object's reference *)
  id : string;
  letter : string;
}.
Global Instance eq_dec : EqDecision t.
Proof. solve_decision. Defined.
End Letter.

Module Tile.
Record t : Type := mk {
  id : string;
  row : nat;
  col : nat;
  letter : option Letter.t;   (* [null] is [None] *)
  state : TileState;
}.
Global Instance eq_dec : EqDecision t.
Proof. solve_decision. Defined.

(** [{ ...tile, state: s }] *)
Definition withState (tile : t) (s : TileState) : t :=
  mk (id tile) (row tile) (col tile) (letter tile) s.
End Tile.

Inductive WordDirection : Type := LeftToRight | TopToBottom.

Global Instance WordDirection_eq_dec : EqDecision WordDirection.
Proof. solve_decision. Defined.

Module WordFromTile.
Record t : Type := mk {
  word : string;
  row : nat;
  col : nat;
  direction : WordDirection;
}.
Global Instance eq_dec : EqDecision t.
Proof. solve_decision. Defined.

(** [{ ...w, word: s }] *)
Definition withWord (w : t) (s : string) : t :=
  mk s (row w) (col w) (direction w).
End WordFromTile.

(** ** JavaScript primitives used by the solver *)

(** [tiles[r][c]] followed by a property access. *)
Definition getTile (tiles : list (list Tile.t)) (r c : nat) : result Tile.t :=
  match tiles !! r with
  | None => Err TypeError
  | Some line =>
      match line !! c with
      | None => Err TypeError
      | Some tile => Ok tile
      end
  end.

(** [tiles[0].length] *)
Definition firstRowLength (tiles : list (list Tile.t)) : result nat :=
  match tiles !! 0 with
  | None => Err TypeError
  | Some line => Ok (length line)
  end.

(** [tile.letter?.letter]: [undefined] is [None]. *)
Definition charOf (tile : Tile.t) : option string :=
  Letter.letter <$> Tile.letter tile.

(** Truthiness of a string or [undefined]. *)
Definition truthy (char : option string) : bool :=
  match char with
  | Some (String _ _) => true
  | _ => false
  end.

Definition toLowerCaseChar (a : ascii) : ascii :=
  let n := nat_of_ascii a in
  if (65 <=? n) && (n <=? 90) then ascii_of_nat (n + 32) else a.

Fixpoint toLowerCase (s : string) : string :=
  match s with
  | EmptyString => EmptyString
  | String a s' => String (toLowerCaseChar a) (toLowerCase s')
  end.

(** ** Word extraction *)

Section Extract.
Variable direction : WordDirection.

(** The body shared by the two scanning loops; the state is the pair of
    [words] and [current]. *)
Definition scanTile (tile : Tile.t)
    (st : list WordFromTile.t * option WordFromTile.t)
  : list WordFromTile.t * option WordFromTile.t :=
  let '(words, current) := st in
  let char := charOf tile in
  match current with
  | None =>
      if truthy char then
        (* Initialize. *)
        (words,
         Some (WordFromTile.mk (default "" char) (Tile.row tile) (Tile.col tile)
                 direction))
      else (words, None)
  | Some current =>
      if truthy char then
        (* Append the new character. *)
        (words,
         Some (WordFromTile.withWord current
                 (WordFromTile.word current +:+ default "" char)))
      else
        (* Complete the word. *)
        (words ++ [current], None)
  end.

(** Flush the [current]. *)
Definition flush (st : list WordFromTile.t * option WordFromTile.t)
  : list WordFromTile.t :=
  match st with
  | (words, Some current) => words ++ [current]
  | (words, None) => words
  end.
End Extract.

(** [.filter((word) => word.word.length > 1).map(... toLowerCase ...)] *)
Definition finishWords (words : list WordFromTile.t) : list WordFromTile.t :=
  (λ word, WordFromTile.withWord word (toLowerCase (WordFromTile.word word)))
    <$> filter (λ word, 1 < String.length (WordFromTile.word word)) words.

Definition getWordsFromTilesLTR (tiles : list (list Tile.t)) : list WordFromTile.t :=
  finishWords
    (mjoin
       ((λ row, flush (foldl (λ st tile, scanTile LeftToRight tile st) ([], None) row))
          <$> tiles)).

Definition getWordsFromTilesTTB (tiles : list (list Tile.t))
  : result (list WordFromTile.t) :=
  let* cols := firstRowLength tiles in
  let* words :=
    forRange cols (λ c words,
      let* st :=
        forRange (length tiles) (λ r st,
          let* tile := getTile tiles r c in
          Ok (scanTile TopToBottom tile st)) (words, None) in
      Ok (flush st)) [] in
  Ok (finishWords words).


(** ** Board validation *)

Module Board.
Record t {Cursor : Type} : Type := mk {
  cursor : Cursor;
  tiles : list (list Tile.t);
}.
Global Arguments t : clear implicits.
Global Arguments mk {Cursor} cursor tiles.
End Board.

(** [tile.letter ? { ...tile, state: INVALID } : { ...tile, state: IDLE }] *)
Definition initTile (tile : Tile.t) : Tile.t :=
  match Tile.letter tile with
  | Some _ => Tile.withState tile INVALID
  | None => Tile.withState tile IDLE
  end.

(** [const tile = tiles[r][c]; tile.state = f(tile.state)], on a grid whose
    tile objects are not shared. *)
Definition writeState (f : TileState → TileState) (tiles : list (list Tile.t))
    (r c : nat) : result (list (list Tile.t)) :=
  match tiles !! r with
  | None => Err TypeError
  | Some line =>
      match line !! c with
      | None => Err TypeError
      | Some tile =>
          Ok (<[r := <[c := Tile.withState tile (f (Tile.state tile))]> line]> tiles)
      end
  end.

(** The body of the two [for (const word of ...)] loops of [validateBoard]:
    the [switch] on the direction with its two counting loops. *)
Definition forTilesOfWord (f : TileState → TileState) (gridBounds : nat)
    (word : WordFromTile.t) (tiles : list (list Tile.t))
  : result (list (list Tile.t)) :=
  let length := String.length (WordFromTile.word word) in
  match WordFromTile.direction word with
  | LeftToRight =>
      forRange length (λ c tiles,
        writeState f tiles (WordFromTile.row word) (WordFromTile.col word + c)) tiles
  | TopToBottom =>
      forRange length (λ r tiles,
        if (Z.of_nat (WordFromTile.row word + r) >? Z.of_nat gridBounds - 1)%Z
        then Ok tiles (* continue *)
        else writeState f tiles (WordFromTile.row word + r) (WordFromTile.col word))
        tiles
  end.

(** [tile.state = TileState.VALID] *)
Definition markValid (_ : TileState) : TileState := VALID.

(** [tile.state = tile.state === TileState.VALID ? TileState.INVALID : tile.state] *)
Definition markMixed (s : TileState) : TileState :=
  if decide (s = VALID) then INVALID else s.

Section Validate.
Context {Cursor : Type}.
(** The word list of constants/words, a [Set] of strings. *)
Variable dictionary : gset string.

(** [dictionary.has(word)] *)
Definition inDictionary (w : WordFromTile.t) : Prop :=
  WordFromTile.word w ∈ dictionary.

Global Instance inDictionary_dec w : Decision (inDictionary w).
Proof. unfold inDictionary. apply _. Defined.

Definition validateBoard (board : Board.t Cursor) : result (Board.t Cursor * bool) :=
  let tiles := Board.tiles board in
  let gridBounds := length tiles in
  let leftToRight := getWordsFromTilesLTR tiles in
  let* topToBottom := getWordsFromTilesTTB tiles in
  let foundWords := leftToRight ++ topToBottom in
  let allWordsAreValid := forallb (λ w, bool_decide (inDictionary w)) foundWords in
  let validatedTiles : list (list Tile.t) :=
    (λ row : list Tile.t, initTile <$> row) <$> tiles in
  let validFoundWords := filter inDictionary foundWords in
  let* validatedTiles :=
    forOf validFoundWords (forTilesOfWord markValid gridBounds) validatedTiles in
  let invalidFoundWords := filter (λ w, ¬ inDictionary w) foundWords in
  let* validatedTiles :=
    forOf invalidFoundWords (forTilesOfWord markMixed gridBounds) validatedTiles in
  Ok (Board.mk (Board.cursor board) validatedTiles, allWordsAreValid).
End Validate.

(** ** Board validation, with the tile objects in a store

    [validateBoard] above works on the values of the tiles. Here the tile
    objects live in a store, a board holds references to them, and the
    function allocates the tiles of the board it returns and writes their
    states in the store. *)

Module RefBoard.
Record t {Cursor : Type} : Type := mk {
  cursor : Cursor;
  tiles : list (list nat);   (* references to tile objects *)
}.
Global Arguments t : clear implicits.
Global Arguments mk {Cursor} cursor tiles.
End RefBoard.

(** The tile objects behind the references of a row, and of a grid. *)
Fixpoint readRow (store : list Tile.t) (row : list nat) : result (list Tile.t) :=
  match row with
  | [] => Ok []
  | ref :: row' =>
      match store !! ref with
      | None => Err TypeError
      | Some tile => let* tiles := readRow store row' in Ok (tile :: tiles)
      end
  end.

Fixpoint readGrid (store : list Tile.t) (grid : list (list nat))
  : result (list (list Tile.t)) :=
  match grid with
  | [] => Ok []
  | row :: grid' =>
      let* tiles := readRow store row in
      let* rest := readGrid store grid' in
      Ok (tiles :: rest)
  end.

(** [row.map((tile) => ({ ...tile, state }))]: one new object per tile. *)
Fixpoint allocRow (store : list Tile.t) (row : list Tile.t)
  : list Tile.t * list nat :=
  match row with
  | [] => (store, [])
  | tile :: row' =>
      let '(store', refs) := allocRow (store ++ [tile]) row' in
      (store', length store :: refs)
  end.

(** [tiles.map((row) => row.map(...))] *)
Fixpoint allocGrid (store : list Tile.t) (grid : list (list Tile.t))
  : list Tile.t * list (list nat) :=
  match grid with
  | [] => (store, [])
  | row :: grid' =>
      let '(store1, refs) := allocRow store row in
      let '(store2, rest) := allocGrid store1 grid' in
      (store2, refs :: rest)
  end.

(** [const tile = tiles[r][c]; tile.state = f(tile.state)] *)
Definition writeStateIn (f : TileState → TileState) (tiles : list (list nat))
    (store : list Tile.t) (r c : nat) : result (list Tile.t) :=
  match tiles !! r with
  | None => Err TypeError
  | Some line =>
      match line !! c with
      | None => Err TypeError
      | Some ref =>
          match store !! ref with
          | None => Err TypeError
          | Some tile =>
              Ok (<[ref := Tile.withState tile (f (Tile.state tile))]> store)
          end
      end
  end.

Definition forTilesOfWordIn (f : TileState → TileState) (gridBounds : nat)
    (tiles : list (list nat)) (word : WordFromTile.t) (store : list Tile.t)
  : result (list Tile.t) :=
  let length := String.length (WordFromTile.word word) in
  match WordFromTile.direction word with
  | LeftToRight =>
      forRange length (λ c store,
        writeStateIn f tiles store (WordFromTile.row word) (WordFromTile.col word + c))
        store
  | TopToBottom =>
      forRange length (λ r store,
        if (Z.of_nat (WordFromTile.row word + r) >? Z.of_nat gridBounds - 1)%Z
        then Ok store (* continue *)
        else writeStateIn f tiles store (WordFromTile.row word + r)
               (WordFromTile.col word))
        store
  end.

Section ValidateIn.
Context {Cursor : Type}.
Variable dictionary : gset string.

Definition validateBoardIn (store : list Tile.t) (board : RefBoard.t Cursor)
  : result (list Tile.t * RefBoard.t Cursor * bool) :=
  let* tiles := readGrid store (RefBoard.tiles board) in
  let gridBounds := length tiles in
  let leftToRight := getWordsFromTilesLTR tiles in
  let* topToBottom := getWordsFromTilesTTB tiles in
  let foundWords := leftToRight ++ topToBottom in
  let allWordsAreValid :=
    forallb (λ w, bool_decide (inDictionary dictionary w)) foundWords in
  let '(store, validatedTiles) :=
    allocGrid store ((λ row : list Tile.t, initTile <$> row) <$> tiles) in
  let validFoundWords := filter (inDictionary dictionary) foundWords in
  let* store :=
    forOf validFoundWords
      (forTilesOfWordIn markValid gridBounds validatedTiles) store in
  let invalidFoundWords := filter (λ w, ¬ inDictionary dictionary w) foundWords in
  let* store :=
    forOf invalidFoundWords
      (forTilesOfWordIn markMixed gridBounds validatedTiles) store in
  Ok (store, RefBoard.mk (RefBoard.cursor board) validatedTiles, allWordsAreValid).
End ValidateIn.

(** ** Counting *)

Definition countFilledTiles (tiles : list (list Tile.t)) : nat :=
  size (list_to_set (C := gset nat)
          (Letter.ref <$> omap id (mjoin ((λ row : list Tile.t, Tile.letter <$> row) <$> tiles)))).

Definition countValidTiles (tiles : list (list Tile.t)) : nat :=
  size (list_to_set (C := gset string)
          (mjoin ((λ row : list Tile.t,
                      Tile.id <$> filter (λ tile, Tile.state tile = VALID
                                                   ∨ Tile.state tile = MIXED) row)
                     <$> tiles))).

Definition countLettersOnBoard {Cursor} (board : Board.t Cursor) : nat :=
  countFilledTiles (Board.tiles board).

Definition countValidLettersOnBoard {Cursor} (board : Board.t Cursor) : nat :=
  countValidTiles (Board.tiles board).

(** ** Connectivity *)

Fixpoint findInRow (row : list Tile.t) : option Tile.t :=
  match row with
  | [] => None
  | tile :: row' =>
      match Tile.letter tile with
      | Some _ => Some tile
      | None => findInRow row'
      end
  end.

Fixpoint findAnyTile (tiles : list (list Tile.t)) : option Tile.t :=
  match tiles with
  | [] => None
  | row :: tiles' =>
      match findInRow row with
      | Some tile => Some tile
      | None => findAnyTile tiles'
      end
  end.

Section Island.
Variable tiles : list (list Tile.t).
Variables maxRow maxCol : nat.

(** [visitedTiles.has(tile)] *)
Definition has (visitedTiles : list Tile.t) (tile : Tile.t) : bool :=
  bool_decide (tile ∈ visitedTiles).

(** [visitedTiles.add(tile)] *)
Definition add (visitedTiles : list Tile.t) (tile : Tile.t) : list Tile.t :=
  if has visitedTiles tile then visitedTiles else tile :: visitedTiles.

(** One of the four neighbour blocks of [markTilesDFS], for the tile at
    row [r] and column [c]; [recurse] is the recursive call. *)
Definition visitNeighbour
    (recurse : option Tile.t → list Tile.t → result (list Tile.t))
    (r c : nat) (visitedTiles : list Tile.t) : result (list Tile.t) :=
  let* tile := getTile tiles r c in
  if bool_decide (Tile.letter tile ≠ None) && negb (has visitedTiles tile)
  then recurse (Some tile) visitedTiles
  else Ok visitedTiles.

(** The closure [markTilesDFS]; the set [visitedTiles] it updates is
    passed along, and [fuel] bounds the depth of the recursion. *)
Fixpoint markTilesDFS (fuel : nat) (tile : option Tile.t)
    (visitedTiles : list Tile.t) : result (list Tile.t) :=
  match fuel with
  | 0 => Err FuelExhausted
  | S fuel' =>
      match tile with
      | None => Ok visitedTiles
      | Some tile =>
          if has visitedTiles tile then Ok visitedTiles else
          let visitedTiles := add visitedTiles tile in
          let row := Tile.row tile in
          let col := Tile.col tile in
          let* visitedTiles :=
            if bool_decide (0 < row)
            then visitNeighbour (markTilesDFS fuel') (row - 1) col visitedTiles
            else Ok visitedTiles in
          let* visitedTiles :=
            if bool_decide (0 < col)
            then visitNeighbour (markTilesDFS fuel') row (col - 1) visitedTiles
            else Ok visitedTiles in
          let* visitedTiles :=
            if bool_decide (row < maxRow - 1)
            then visitNeighbour (markTilesDFS fuel') (row + 1) col visitedTiles
            else Ok visitedTiles in
          let* visitedTiles :=
            if bool_decide (col < maxCol - 1)
            then visitNeighbour (markTilesDFS fuel') row (col + 1) visitedTiles
            else Ok visitedTiles in
          Ok visitedTiles
      end
  end.
End Island.

Definition validateWordIsland {Cursor} (board : Board.t Cursor) : result bool :=
  let tiles := Board.tiles board in
  let maxRow := length tiles in
  let* maxCol := firstRowLength tiles in
  let total := countFilledTiles tiles in
  let startingTile := findAnyTile tiles in
  match startingTile with
  | None => Ok false
  | Some _ =>
      let* visitedTiles :=
        markTilesDFS tiles maxRow maxCol (S (length (mjoin tiles))) startingTile [] in
      Ok (bool_decide (length visitedTiles = total))
  end.

(** ** The caller (hooks/useGame) *)

Section Game.
Context {Cursor : Type}.
Variable dictionary : gset string.
(** The two functions imported from the solver. *)
Variable validateWordIsland' : Board.t Cursor → result bool.
Variable validateBoard' : Board.t Cursor → result (Board.t Cursor * bool).

(** [requestFinish] on the board of the hook's state: the result is the
    board of the state afterwards and the lines written to the
    console. *)
Definition requestFinishWith (board : Board.t Cursor)
  : result (Board.t Cursor * list string) :=
  let* isBoardValidToCheck := validateWordIsland' board in
  if isBoardValidToCheck : bool then
    let* (newBoard, isValidBoard) := validateBoard' board in
    (* setBoard(newBoard) *)
    Ok (newBoard, if isValidBoard : bool then ["done!"] else [])
  else
    Ok (board, ["Invalid tiles"]).
End Game.

Definition requestFinish {Cursor} (dictionary : gset string) (board : Board.t Cursor)
  : result (Board.t Cursor * list string) :=
  requestFinishWith validateWordIsland (validateBoard dictionary) board.

(** ** The invariants of the data model *)

(** A tile is occupied when it bears a letter. *)
Definition occupied (tile : Tile.t) : Prop := Tile.letter tile ≠ None.

Global Instance occupied_dec tile : Decision (occupied tile).
Proof. unfold occupied. apply _. Defined.

Definition width (tiles : list (list Tile.t)) : nat :=
  length (default [] (tiles !! 0)).

(** The grid is rectangular, with at least one row, and every tile stores
    its own position. *)
Record gridShape (tiles : list (list Tile.t)) : Prop := {
  grid_rows : tiles ≠ [];
  grid_rect : ∀ line, line ∈ tiles → length line = width tiles;
  grid_pos : ∀ r c tile,
    getTile tiles r c = Ok tile → Tile.row tile = r ∧ Tile.col tile = c;
}.

(** A letter holds a single character. *)
Definition singleCharacters (tiles : list (list Tile.t)) : Prop :=
  ∀ tile l, tile ∈ mjoin tiles → Tile.letter tile = Some l →
    String.length (Letter.letter l) = 1.

(** Tile ids are unique. *)
Definition uniqueTileIds (tiles : list (list Tile.t)) : Prop :=
  NoDup (Tile.id <$> mjoin tiles).

(** A letter instance is referenced by at most one tile. *)
Definition lettersUnshared (tiles : list (list Tile.t)) : Prop :=
  NoDup (Letter.ref <$> omap Tile.letter (mjoin tiles)).

(** ** Maximal runs of occupied tiles *)

(** The concatenation of the letters of a run. *)
Definition textOf (run : list Tile.t) : string :=
  foldr (λ tile s, default "" (charOf tile) +:+ s) "" run.

(** What bounds a run on one side: the end of the line or an empty tile. *)
Definition boundary (o : option Tile.t) : Prop :=
  match o with
  | None => True
  | Some tile => ¬ occupied tile
  end.

(** [run] is a maximal run of occupied tiles of [line], after [pre] and
    before [post]. *)
Record maximalRun (line pre run post : list Tile.t) : Prop := {
  run_split : line = pre ++ run ++ post;
  run_occupied : Forall occupied run;
  run_left : boundary (last pre);
  run_right : boundary (head post);
}.

(** Column [c] of the grid, from the top. *)
Definition column (tiles : list (list Tile.t)) (c : nat) : list Tile.t :=
  omap (λ row : list Tile.t, row !! c) tiles.

(** The candidate word of a run of a row, and of a run of a column; the run
    starts after the [length pre] tiles before it. *)
Definition rowWord (r : nat) (pre run : list Tile.t) : WordFromTile.t :=
  WordFromTile.mk (toLowerCase (textOf run)) r (length pre) LeftToRight.

Definition columnWord (c : nat) (pre run : list Tile.t) : WordFromTile.t :=
  WordFromTile.mk (toLowerCase (textOf run)) (length pre) c TopToBottom.

(** The orders in which the two extractors list their words. *)
Definition rowMajor (w1 w2 : WordFromTile.t) : Prop :=
  WordFromTile.row w1 < WordFromTile.row w2
  ∨ (WordFromTile.row w1 = WordFromTile.row w2
     ∧ WordFromTile.col w1 < WordFromTile.col w2).

Definition columnMajor (w1 w2 : WordFromTile.t) : Prop :=
  WordFromTile.col w1 < WordFromTile.col w2
  ∨ (WordFromTile.col w1 = WordFromTile.col w2
     ∧ WordFromTile.row w1 < WordFromTile.row w2).

(** The words a scan still produces from the tiles [line] ahead of it, in
    terms of [current]: [scanTile] unrolled along the line. *)
Fixpoint scanFrom (direction : WordDirection) (current : option WordFromTile.t)
    (line : list Tile.t) : list WordFromTile.t :=
  match line with
  | [] => option_list current
  | tile :: line' =>
      match scanTile direction tile ([], current) with
      | (words, current') => words ++ scanFrom direction current' line'
      end
  end.

(** The word a scan builds for a run, before the final lowercasing. *)
Definition rawWord (direction : WordDirection) (run : list Tile.t) : WordFromTile.t :=
  match run with
  | [] => WordFromTile.mk "" 0 0 direction
  | tile :: _ =>
      WordFromTile.mk (textOf run) (Tile.row tile) (Tile.col tile) direction
  end.

(** [current] after a scan has taken the letter of [tile] into it. *)
Definition extendWord (direction : WordDirection) (current : option WordFromTile.t)
    (tile : Tile.t) : WordFromTile.t :=
  match current with
  | None =>
      WordFromTile.mk (default "" (charOf tile)) (Tile.row tile) (Tile.col tile)
        direction
  | Some current =>
      WordFromTile.withWord current
        (WordFromTile.word current +:+ default "" (charOf tile))
  end.

(** The letter of every occupied tile of the line is a non-empty string. *)
Definition lettered (line : list Tile.t) : Prop :=
  Forall (λ tile, occupied tile → truthy (charOf tile) = true) line.

(** ** The tiles a candidate word spans *)

Definition spans (w : WordFromTile.t) (r c : nat) : Prop :=
  match WordFromTile.direction w with
  | LeftToRight =>
      r = WordFromTile.row w
      ∧ WordFromTile.col w ≤ c < WordFromTile.col w + String.length (WordFromTile.word w)
  | TopToBottom =>
      c = WordFromTile.col w
      ∧ WordFromTile.row w ≤ r < WordFromTile.row w + String.length (WordFromTile.word w)
  end.

Global Instance spans_dec w r c : Decision (spans w r c).
Proof. unfold spans. destruct (WordFromTile.direction w); apply _. Defined.

(** All rows of the grid have [cols] tiles. *)
Definition rectangular (cols : nat) (tiles : list (list Tile.t)) : Prop :=
  Forall (λ line, length line = cols) tiles.

(** The tiles a word spans are tiles of the grid; for a column-wise word the
    rows below the grid do not count. *)
Definition inRange (cols : nat) (tiles : list (list Tile.t)) (w : WordFromTile.t)
  : Prop :=
  match WordFromTile.direction w with
  | LeftToRight =>
      WordFromTile.row w < length tiles
      ∧ WordFromTile.col w + String.length (WordFromTile.word w) ≤ cols
  | TopToBottom => WordFromTile.col w < cols
  end.

(** The effect of one write on a tile. *)
Definition touch (f : TileState → TileState) (tile : Tile.t) : Tile.t :=
  Tile.withState tile (f (Tile.state tile)).

(** A grid rebuilt tile by tile. *)
Definition mapGrid (g : nat → nat → Tile.t → Tile.t) (tiles : list (list Tile.t))
  : list (list Tile.t) :=
  imap (λ r, imap (g r)) tiles.

(** The effect of a pass of [validateBoard] over the words [ws]: the tiles
    some word spans are written once. *)
Definition passOver (f : TileState → TileState) (ws : list WordFromTile.t)
    (r c : nat) (tile : Tile.t) : Tile.t :=
  if decide (Exists (λ w, spans w r c) ws) then touch f tile else tile.

(** The tile [validateBoard] returns for [tile], at row [r] and column [c],
    when [found] are the candidate words of the board. *)
Definition annotate (dictionary : gset string) (found : list WordFromTile.t)
    (r c : nat) (tile : Tile.t) : Tile.t :=
  passOver markMixed (filter (λ w, ¬ inDictionary dictionary w) found) r c
    (passOver markValid (filter (inDictionary dictionary) found) r c
       (initTile tile)).

(** ** Connectivity of the occupied tiles *)

(** The position a tile stores. *)
Definition posOf (tile : Tile.t) : nat * nat := (Tile.row tile, Tile.col tile).

(** There is an occupied tile at position [p]. *)
Definition occupiedAt (tiles : list (list Tile.t)) (p : nat * nat) : Prop :=
  ∃ tile, getTile tiles p.1 p.2 = Ok tile ∧ occupied tile.

(** The positions [p] and [q] are next to each other in a row or in a
    column. *)
Definition adjacent (p q : nat * nat) : Prop :=
  (p.1 = q.1 ∧ (p.2 = S q.2 ∨ q.2 = S p.2))
  ∨ (p.2 = q.2 ∧ (p.1 = S q.1 ∨ q.1 = S p.1)).

(** [q] is reached from [p] by steps between adjacent occupied tiles. *)
Inductive connected (tiles : list (list Tile.t)) : nat * nat → nat * nat → Prop :=
| connected_refl p : occupiedAt tiles p → connected tiles p p
| connected_step p q q' :
    connected tiles p q → adjacent q q' → occupiedAt tiles q' →
    connected tiles p q'.

(** Row-major order of positions. *)
Definition rowMajorLe (p q : nat * nat) : Prop :=
  p.1 < q.1 ∨ (p.1 = q.1 ∧ p.2 ≤ q.2).

(** [p] is the first occupied position in row-major order. *)
Definition firstOccupied (tiles : list (list Tile.t)) (p : nat * nat) : Prop :=
  occupiedAt tiles p ∧ ∀ q, occupiedAt tiles q → rowMajorLe p q.

(** Every occupied tile next to [v] is in [visited]. *)
Definition closedAt (tiles : list (list Tile.t)) (visited : list Tile.t)
    (v : Tile.t) : Prop :=
  ∀ u, u ∈ mjoin tiles → occupied u → adjacent (posOf v) (posOf u) → u ∈ visited.

(** What a call of [markTilesDFS] on [tile] makes of the set [visited]. *)
Record dfsPost (tiles : list (list Tile.t)) (tile : Tile.t)
    (visited visited' : list Tile.t) : Prop := {
  dfs_NoDup : NoDup visited';
  dfs_self : tile ∈ visited';
  dfs_grid : ∀ v, v ∈ visited' → v ∈ mjoin tiles ∧ occupied v;
  dfs_mono : ∀ v, v ∈ visited → v ∈ visited';
  dfs_new : ∀ v, v ∈ visited' → v ∉ visited →
            connected tiles (posOf tile) (posOf v) ∧ closedAt tiles visited' v;
}.

(** ** What [validateBoard] does not read *)

(** A tile without its state, and a grid without its states. *)
Definition resetTile (tile : Tile.t) : Tile.t := Tile.withState tile IDLE.

Definition resetGrid (tiles : list (list Tile.t)) : list (list Tile.t) :=
  (λ row : list Tile.t, resetTile <$> row) <$> tiles.

(** ** Example boards *)

Definition emptyTile (id : string) (r c : nat) : Tile.t :=
  Tile.mk id r c None IDLE.

Definition letterTile (id : string) (r c : nat) (ref : nat) (char : string) : Tile.t :=
  Tile.mk id r c (Some (Letter.mk ref ("letter-" +:+ id) char)) IDLE.

(** "CAT" in the first row crossing "COT" in the first column. *)
Definition crossingBoard : Board.t unit :=
  Board.mk ()
    [ [ letterTile "t00" 0 0 1 "C"; letterTile "t01" 0 1 2 "A"; letterTile "t02" 0 2 3 "T" ];
      [ letterTile "t10" 1 0 4 "O"; emptyTile "t11" 1 1; emptyTile "t12" 1 2 ];
      [ letterTile "t20" 2 0 5 "T"; emptyTile "t21" 2 1; emptyTile "t22" 2 2 ] ].

(** Two letters in opposite corners. *)
Definition scatteredBoard : Board.t unit :=
  Board.mk ()
    [ [ letterTile "t00" 0 0 1 "A"; emptyTile "t01" 0 1; emptyTile "t02" 0 2 ];
      [ emptyTile "t10" 1 0; emptyTile "t11" 1 1; emptyTile "t12" 1 2 ];
      [ emptyTile "t20" 2 0; emptyTile "t21" 2 1; letterTile "t22" 2 2 2 "B" ] ].

(** A board without letters. *)
Definition blankBoard : Board.t unit :=
  Board.mk ()
    [ [ emptyTile "t00" 0 0; emptyTile "t01" 0 1 ];
      [ emptyTile "t10" 1 0; emptyTile "t11" 1 1 ] ].

(** A dictionary that knows "cat" but not "cot". *)
Definition catDictionary : gset string := {[ "cat" ]}.

(** A column-wise word that would run past the last row of a board of
    three rows. *)
Definition overlongWord : WordFromTile.t :=
  WordFromTile.mk "tall" 1 0 TopToBottom.

(** ** Tile objects in a store *)

(** The references of the tiles of a grid allocated row by row from
    [base]. *)
Fixpoint addresses (base : nat) (grid : list (list Tile.t)) : list (list nat) :=
  match grid with
  | [] => []
  | row :: grid' => seq base (length row) :: addresses (base + length row) grid'
  end.

(** The store [store] holds, after the objects of [store0], the tiles of
    the grid [tiles], whose rows have the lengths [lens]. *)
Definition holds (store0 : list Tile.t) (lens : list nat)
    (store : list Tile.t) (tiles : list (list Tile.t)) : Prop :=
  store = store0 ++ mjoin tiles ∧ length <$> tiles = lens.

(** A store with the tile objects of [crossingBoard], and the board of
    references to them. *)
Definition crossingStore : list Tile.t := mjoin (Board.tiles crossingBoard).

Definition crossingRefBoard : RefBoard.t unit :=
  RefBoard.mk () [ [0; 1; 2]; [3; 4; 5]; [6; 7; 8] ].

(** ** The board of the game (hooks/useBoard, hooks/useGame)

    The hook [useBoard] keeps the grid of tiles in its state; its two
    operations are given on that grid. *)

(** [{ ...tile, letter }], also the value of [tile] after
    [tile.letter = letter]. *)
Definition withLetter (tile : Tile.t) (letter : option Letter.t) : Tile.t :=
  Tile.mk (Tile.id tile) (Tile.row tile) (Tile.col tile) letter (Tile.state tile).

(** [newTiles[row][col].letter = letter], the grid of the state
    afterwards. *)
Definition setLetterOnBoard (position : nat * nat) (letter : option Letter.t)
    (tiles : list (list Tile.t)) : result (list (list Tile.t)) :=
  let '(row, col) := position in
  match tiles !! row with
  | None => Err TypeError
  | Some line =>
      match line !! col with
      | None => Err TypeError
      | Some tile => Ok (<[row := <[col := withLetter tile letter]> line]> tiles)
      end
  end.

(** [board.tiles.map((row) => row.map((tile) => ({ ...tile, letter: null })))] *)
Definition resetBoard (tiles : list (list Tile.t)) : list (list Tile.t) :=
  (λ row : list Tile.t, (λ tile, withLetter tile None) <$> row) <$> tiles.

(** [setLetterOnBoard] on tile objects kept in a store: [board.tiles.slice()]
    copies the array of the rows, so the rows and the tiles of the new
    board are the objects of the previous one, and the assignment writes
    into one of them. The result is the store and the grid of the state
    afterwards. *)
Definition setLetterOnBoardIn (position : nat * nat) (letter : option Letter.t)
    (store : list Tile.t) (tiles : list (list nat))
  : result (list Tile.t * list (list nat)) :=
  let '(row, col) := position in
  let newTiles := tiles in
  match newTiles !! row with
  | None => Err TypeError
  | Some line =>
      match line !! col with
      | None => Err TypeError
      | Some ref =>
          match store !! ref with
          | None => Err TypeError
          | Some tile => Ok (<[ref := withLetter tile letter]> store, newTiles)
          end
      end
  end.

(** [resetBoard] on tile objects kept in a store: [map] makes new rows, and
    [{ ...tile, letter: null }] a new object for every tile. *)
Definition resetBoardIn (store : list Tile.t) (tiles : list (list nat))
  : result (list Tile.t * list (list nat)) :=
  let* grid := readGrid store tiles in
  Ok (allocGrid store (resetBoard grid)).

(** The set of the ids of the letters on the board. *)
Definition boardLetterIds (tiles : list (list Tile.t)) : gset string :=
  list_to_set
    (Letter.id
       <$> omap id (mjoin ((λ row : list Tile.t, Tile.letter <$> row) <$> tiles))).

(** [letters.filter((letter) => !boardLetterIds.has(letter.id))] *)
Definition unusedLetters (letters : list Letter.t) (tiles : list (list Tile.t))
  : list Letter.t :=
  filter (λ letter, Letter.id letter ∉ boardLetterIds tiles) letters.

(** ** Further notions for the properties of the solver *)

(** Some candidate word of [found] spans the position. *)
Definition covered (found : list WordFromTile.t) (r c : nat) : Prop :=
  Exists (λ w, spans w r c) found.

(** The tiles of the grid that are reached from the position [p]. *)
Definition component (tiles : list (list Tile.t)) (p : nat * nat)
    (visited : list Tile.t) : Prop :=
  NoDup visited
  ∧ ∀ tile, tile ∈ visited ↔
      tile ∈ mjoin tiles ∧ connected tiles p (posOf tile).

(** A letter instance shared by two tiles far apart. *)
Definition sharedLetterBoard : Board.t unit :=
  Board.mk ()
    [ [ letterTile "t00" 0 0 1 "A"; letterTile "t01" 0 1 2 "B"; emptyTile "t02" 0 2 ];
      [ emptyTile "t10" 1 0; emptyTile "t11" 1 1; emptyTile "t12" 1 2 ];
      [ emptyTile "t20" 2 0; emptyTile "t21" 2 1;
        Tile.mk "t22" 2 2 (Some (Letter.mk 1 "letter-t00" "A")) IDLE ] ].

(** A grid whose second row is shorter than the first. *)
Definition jaggedBoard : Board.t unit :=
  Board.mk ()
    [ [ letterTile "t00" 0 0 1 "A"; letterTile "t01" 0 1 2 "B" ];
      [ emptyTile "t10" 1 0 ] ].

(** A row-wise word that would run past the last column of a board of
    three columns. *)
Definition overwideWord : WordFromTile.t :=
  WordFromTile.mk "wide" 0 1 LeftToRight.

(** A dictionary that knows both words of [crossingBoard]. *)
Definition catCotDictionary : gset string := {[ "cat"; "cot" ]}.

(** The letters of the player for [crossingBoard]: the five on the board
    and two more. *)
Definition crossingLetters : list Letter.t :=
  [ Letter.mk 1 "letter-t00" "C"; Letter.mk 2 "letter-t01" "A";
    Letter.mk 3 "letter-t02" "T"; Letter.mk 4 "letter-t10" "O";
    Letter.mk 5 "letter-t20" "T"; Letter.mk 6 "letter-6" "S";
    Letter.mk 7 "letter-7" "E" ].

(** * Generic facts *)

Lemma bind_Ok {A B} (m : result A) (k : A → result B) b :
  bind m k = Ok b ↔ ∃ a, m = Ok a ∧ k a = Ok b.
Proof.
  destruct m as [a|e]; simpl.
  - split; [eauto|]. by intros (a' & [= <-] & H).
  - split; [done|]. by intros (a' & [=] & _).
Qed.

Lemma forOf_app {A S} (xs ys : list A) (body : A → S → result S) s :
  forOf (xs ++ ys) body s = let* s' := forOf xs body s in forOf ys body s'.
Proof.
  revert s. induction xs as [|x xs IH]; intros s; simpl; [done|].
  destruct (body x s); simpl; auto.
Qed.

Lemma forOf_total {A S} (xs : list A) (f : A → S → S) s :
  forOf xs (λ x s, Ok (f x s)) s = Ok (foldl (λ s x, f x s) s xs).
Proof. revert s. induction xs; intros; simpl; auto. Qed.

Lemma forOf_ext_in {A S} (xs : list A) (body1 body2 : A → S → result S) s :
  (∀ x s, x ∈ xs → body1 x s = body2 x s) →
  forOf xs body1 s = forOf xs body2 s.
Proof.
  revert s. induction xs as [|x xs IH]; intros s Hb; simpl; [done|].
  rewrite Hb by left. destruct (body2 x s); simpl; [|done].
  apply IH. intros. apply Hb. by right.
Qed.

Lemma getTile_Ok tiles r c tile :
  getTile tiles r c = Ok tile ↔
  ∃ line, tiles !! r = Some line ∧ line !! c = Some tile.
Proof.
  unfold getTile. destruct (tiles !! r) as [line|].
  - destruct (line !! c) as [tile'|] eqn:Hc.
    + split; [intros [= <-]; eauto|]. intros (l & [= <-] & H). congruence.
    + split; [done|]. intros (l & [= <-] & H). congruence.
  - split; [done|]. by intros (l & [=] & _).
Qed.

Lemma getTile_elem_of tiles r c tile :
  getTile tiles r c = Ok tile → tile ∈ mjoin tiles.
Proof.
  intros (line & Hr & Hc)%getTile_Ok. apply list_elem_of_join.
  exists line. eauto using list_elem_of_lookup_2.
Qed.

Lemma elem_of_getTile tiles tile :
  tile ∈ mjoin tiles → ∃ r c, getTile tiles r c = Ok tile.
Proof.
  intros (line & [c Hc]%list_elem_of_lookup_1 & [r Hr]%list_elem_of_lookup_1)%list_elem_of_join.
  exists r, c. apply getTile_Ok. eauto.
Qed.

Lemma string_app_cons a (s1 s2 : string) : String a s1 +:+ s2 = String a (s1 +:+ s2).
Proof. reflexivity. Qed.

Lemma string_app_assoc (s1 s2 s3 : string) : (s1 +:+ s2) +:+ s3 = s1 +:+ s2 +:+ s3.
Proof.
  induction s1 as [|a s1 IH]; [done|]. rewrite !string_app_cons. by rewrite IH.
Qed.

Lemma string_app_nil_r (s : string) : s +:+ "" = s.
Proof. induction s as [|a s IH]; [done|]. rewrite string_app_cons. by rewrite IH. Qed.

Lemma string_length_app (s1 s2 : string) :
  String.length (s1 +:+ s2) = String.length s1 + String.length s2.
Proof.
  induction s1 as [|a s1 IH]; [done|]. rewrite string_app_cons. simpl. by rewrite IH.
Qed.

Lemma toLowerCase_length s : String.length (toLowerCase s) = String.length s.
Proof. induction s; simpl; [done|]. by f_equal. Qed.

(** * Word extraction: one line *)

Section ScanLine.
Variable direction : WordDirection.

Lemma scanTile_acc tile words current :
  scanTile direction tile (words, current)
  = (words ++ (scanTile direction tile ([], current)).1,
     (scanTile direction tile ([], current)).2).
Proof.
  unfold scanTile. destruct current; destruct (truthy _); simpl;
    by rewrite ?app_nil_r.
Qed.

Lemma flush_foldl line words current :
  flush (foldl (λ st tile, scanTile direction tile st) (words, current) line)
  = words ++ scanFrom direction current line.
Proof.
  revert words current. induction line as [|tile line IH]; intros words current.
  - destruct current; simpl; by rewrite ?app_nil_r.
  - cbn [foldl scanFrom]. rewrite scanTile_acc.
    destruct (scanTile direction tile ([], current)) as [ws current'].
    cbn [fst snd]. rewrite IH. by rewrite app_assoc.
Qed.

Lemma free_not_truthy tile : ¬ occupied tile → truthy (charOf tile) = false.
Proof.
  intros Hfree. unfold charOf.
  destruct (Tile.letter tile) eqn:E; [|done].
  exfalso. apply Hfree. unfold occupied. congruence.
Qed.

Lemma truthy_occupied tile : truthy (charOf tile) = true → occupied tile.
Proof.
  unfold occupied, charOf. destruct (Tile.letter tile); [done|discriminate].
Qed.

Lemma scanFrom_cons_free current tile line :
  ¬ occupied tile →
  scanFrom direction current (tile :: line)
  = option_list current ++ scanFrom direction None line.
Proof.
  intros Hfree%free_not_truthy. simpl. unfold scanTile. rewrite Hfree.
  by destruct current.
Qed.

Lemma scanFrom_cons_occupied current tile line :
  truthy (charOf tile) = true →
  scanFrom direction current (tile :: line)
  = scanFrom direction (Some (extendWord direction current tile)) line.
Proof.
  intros Hocc. simpl. unfold scanTile. rewrite Hocc. by destruct current.
Qed.

Lemma scanFrom_Some_run w0 run post :
  Forall (λ tile, truthy (charOf tile) = true) run →
  boundary (head post) →
  scanFrom direction (Some w0) (run ++ post)
  = WordFromTile.withWord w0 (WordFromTile.word w0 +:+ textOf run)
      :: scanFrom direction None post.
Proof.
  intros Hrun Hpost. revert w0.
  induction Hrun as [|tile run Htile Hrun IH]; intros w0.
  - simpl. rewrite string_app_nil_r.
    replace (WordFromTile.withWord w0 (WordFromTile.word w0)) with w0
      by by destruct w0.
    destruct post as [|tile post]; [done|].
    by rewrite !scanFrom_cons_free.
  - rewrite <-app_comm_cons, scanFrom_cons_occupied by done.
    rewrite IH. simpl. by rewrite string_app_assoc.
Qed.

Lemma scanFrom_None_run run post :
  run ≠ [] →
  Forall (λ tile, truthy (charOf tile) = true) run →
  boundary (head post) →
  scanFrom direction None (run ++ post)
  = rawWord direction run :: scanFrom direction None post.
Proof.
  intros Hne Hrun Hpost. destruct run as [|tile run]; [done|].
  apply Forall_cons in Hrun as [Htile Hrun].
  rewrite <-app_comm_cons, scanFrom_cons_occupied by done.
  by rewrite scanFrom_Some_run.
Qed.

Lemma scanFrom_gap current pre rest :
  pre ≠ [] → boundary (last pre) →
  scanFrom direction current (pre ++ rest)
  = scanFrom direction current pre ++ scanFrom direction None rest.
Proof.
  intros Hne. revert current.
  induction pre as [|tile pre IH]; [done|]. intros current Hlast.
  destruct pre as [|tile' pre].
  - simpl in Hlast. change ([tile] ++ rest) with (tile :: rest).
    rewrite (scanFrom_cons_free current tile rest),
      (scanFrom_cons_free current tile []) by done.
    simpl. by rewrite app_nil_r.
  - change (scanFrom direction current ((tile :: tile' :: pre) ++ rest))
      with (let '(ws, current') := scanTile direction tile ([], current) in
            ws ++ scanFrom direction current' ((tile' :: pre) ++ rest)).
    change (scanFrom direction current (tile :: tile' :: pre))
      with (let '(ws, current') := scanTile direction tile ([], current) in
            ws ++ scanFrom direction current' (tile' :: pre)).
    destruct (scanTile direction tile ([], current)) as [ws current'].
    rewrite IH by done. by rewrite app_assoc.
Qed.

Lemma occupied_prefix (line : list Tile.t) :
  ∃ run post, line = run ++ post ∧ Forall occupied run ∧ boundary (head post).
Proof.
  induction line as [|tile line (run & post & -> & Hrun & Hpost)].
  - by exists [], [].
  - destruct (decide (occupied tile)) as [Hocc|Hfree].
    + exists (tile :: run), post. by repeat constructor.
    + by exists [], (tile :: run ++ post).
Qed.

Lemma lettered_app l1 l2 : lettered (l1 ++ l2) ↔ lettered l1 ∧ lettered l2.
Proof. apply Forall_app. Qed.

Lemma lettered_run run :
  lettered run → Forall occupied run →
  Forall (λ tile, truthy (charOf tile) = true) run.
Proof.
  intros Hl Hocc. apply Forall_forall. intros tile Hin.
  eapply Forall_forall in Hl, Hocc; eauto.
Qed.

Lemma scanFrom_maximalRun line pre run post :
  lettered line → maximalRun line pre run post → run ≠ [] →
  rawWord direction run ∈ scanFrom direction None line.
Proof.
  intros Hl [-> Hrun Hleft Hright] Hne.
  apply lettered_app in Hl as [_ [Hl _]%lettered_app].
  pose proof (lettered_run _ Hl Hrun) as Hrun'.
  destruct (decide (pre = [])) as [->|Hpre].
  - simpl. rewrite scanFrom_None_run by done. left.
  - rewrite scanFrom_gap by done. apply elem_of_app. right.
    rewrite scanFrom_None_run by done. left.
Qed.

Lemma scanFrom_elem_of_1 n line w :
  length line ≤ n → lettered line →
  w ∈ scanFrom direction None line →
  ∃ pre run post,
    maximalRun line pre run post ∧ run ≠ [] ∧ w = rawWord direction run.
Proof.
  revert line. induction n as [|n IH]; intros line Hlen Hl Hw.
  { destruct line; simpl in *; [|lia]. by apply elem_of_nil in Hw. }
  destruct line as [|tile line]; [by apply elem_of_nil in Hw|].
  simpl in Hlen. destruct (decide (occupied tile)) as [Hocc|Hfree].
  - destruct (occupied_prefix line) as (run & post & -> & Hrun & Hpost).
    pose proof Hl as Hl'.
    rewrite app_comm_cons in Hl'. apply lettered_app in Hl' as [Hl1 Hl2].
    rewrite app_comm_cons, scanFrom_None_run in Hw;
      [|done|by apply lettered_run; [|constructor]|done].
    apply elem_of_cons in Hw as [->|Hw].
    + exists [], (tile :: run), post. split; [|done].
      split; simpl; auto.
    + apply IH in Hw as (pre' & run' & post' & [-> Hrun' Hleft Hright] & Hne & ->);
        [| rewrite length_app in Hlen; lia | done].
      exists (tile :: run ++ pre'), run', post'. split; [|done].
      split; auto.
      * simpl. by rewrite <-app_assoc.
      * destruct pre' as [|t0 pre'].
        { exfalso. destruct run' as [|t1 run']; [done|].
          apply Forall_cons in Hrun' as [? _]. simpl in Hpost. done. }
        rewrite app_comm_cons. by rewrite last_app_cons.
  - rewrite scanFrom_cons_free in Hw by done. simpl in Hw.
    apply Forall_cons in Hl as [_ Hl].
    apply IH in Hw as (pre & run & post & [-> Hrun Hleft Hright] & Hne & ->);
      [|lia|done].
    exists (tile :: pre), run, post. split; [|done]. split; auto.
    destruct pre as [|t0 pre]; [done|]. done.
Qed.

Lemma scanFrom_elem_of line w :
  lettered line →
  w ∈ scanFrom direction None line ↔
  ∃ pre run post,
    maximalRun line pre run post ∧ run ≠ [] ∧ w = rawWord direction run.
Proof.
  intros Hl. split.
  - by apply (scanFrom_elem_of_1 (length line)).
  - intros (pre & run & post & Hrun & Hne & ->).
    by eapply scanFrom_maximalRun.
Qed.
End ScanLine.

(** * Word extraction: the order of the words of a line *)

Section ScanOrder.
Variable direction : WordDirection.
Variable tkey : Tile.t → nat.
Variable wkey : WordFromTile.t → nat.
Hypothesis wkey_start : ∀ tile, wkey (extendWord direction None tile) = tkey tile.
Hypothesis wkey_withWord : ∀ w s, wkey (WordFromTile.withWord w s) = wkey w.

Lemma scanFrom_cons_falsy current tile line :
  truthy (charOf tile) = false →
  scanFrom direction current (tile :: line)
  = option_list current ++ scanFrom direction None line.
Proof.
  intros Hfree. simpl. unfold scanTile. rewrite Hfree. by destruct current.
Qed.

Lemma scanFrom_sorted line lo m current :
  (∀ k tile, line !! k = Some tile → tkey tile = lo + k) →
  match current with
  | Some w0 => m ≤ wkey w0 < lo
  | None => m ≤ lo
  end →
  Forall (λ w, m ≤ wkey w) (scanFrom direction current line)
  ∧ StronglySorted (λ w1 w2, wkey w1 < wkey w2) (scanFrom direction current line).
Proof.
  revert lo m current.
  induction line as [|tile line IH]; intros lo m current Hkeys Hcur.
  - destruct current as [w0|]; simpl; repeat constructor. lia.
  - assert (tkey tile = lo) as Htile.
    { rewrite (Hkeys 0 tile) by done. lia. }
    assert (∀ k t, line !! k = Some t → tkey t = S lo + k) as Hkeys'.
    { intros k t Hk. rewrite (Hkeys (S k) t) by done. lia. }
    destruct (truthy (charOf tile)) eqn:Hocc.
    + rewrite scanFrom_cons_occupied by done.
      apply (IH (S lo)); [done|].
      destruct current as [w0|]; [simpl; rewrite wkey_withWord; lia|].
      rewrite wkey_start. lia.
    + rewrite scanFrom_cons_falsy by done.
      destruct current as [w0|]; simpl.
      * destruct (IH (S lo) (S lo) None Hkeys') as [Hall Hsorted]; [done|].
        split; constructor; try done; try lia.
        -- eapply Forall_impl; [exact Hall|]. simpl. lia.
        -- eapply Forall_impl; [exact Hall|]. simpl. lia.
      * apply (IH (S lo)); [done|]. lia.
Qed.
End ScanOrder.

(** * Word extraction: the grid *)

Lemma elem_of_finishWords w ws :
  w ∈ finishWords ws ↔
  ∃ w0, w0 ∈ ws ∧ 1 < String.length (WordFromTile.word w0)
        ∧ w = WordFromTile.withWord w0 (toLowerCase (WordFromTile.word w0)).
Proof.
  unfold finishWords. rewrite list_elem_of_fmap. split.
  - intros (w0 & -> & [??]%list_elem_of_filter). eauto.
  - intros (w0 & ? & ? & ->). exists w0. by rewrite list_elem_of_filter.
Qed.

Lemma StronglySorted_filter {A} (R : relation A) (P : A → Prop)
    `{∀ x, Decision (P x)} (l : list A) :
  StronglySorted R l → StronglySorted R (filter P l).
Proof.
  induction 1 as [|x l Hl IH Hx]; [constructor|].
  rewrite filter_cons. destruct (decide (P x)); [|done].
  constructor; [done|]. apply Forall_forall. intros y [_ Hy]%list_elem_of_filter.
  eapply Forall_forall in Hx; eauto.
Qed.

Lemma StronglySorted_join {A} (R : relation A) (ls : list (list A)) :
  (∀ l, l ∈ ls → StronglySorted R l) →
  (∀ i j li lj x y,
     i < j → ls !! i = Some li → ls !! j = Some lj → x ∈ li → y ∈ lj → R x y) →
  StronglySorted R (mjoin ls).
Proof.
  induction ls as [|l ls IH]; intros Hl Hlt; [constructor|].
  change (mjoin (l :: ls)) with (l ++ mjoin ls). apply StronglySorted_app_2.
  - intros x y Hx (l' & Hy & [j Hj]%list_elem_of_lookup_1)%list_elem_of_join.
    apply (Hlt 0 (S j) l l'); [lia|done..].
  - apply Hl. left.
  - apply IH.
    + intros l' Hl'. apply Hl. by right.
    + intros i j li lj x y Hij Hi Hj. apply (Hlt (S i) (S j)); [lia|done..].
Qed.

Lemma finishWords_sorted (R : relation WordFromTile.t) ws :
  (∀ w1 w2 s1 s2, R w1 w2 →
     R (WordFromTile.withWord w1 s1) (WordFromTile.withWord w2 s2)) →
  StronglySorted R ws → StronglySorted R (finishWords ws).
Proof.
  intros HR Hws. unfold finishWords.
  eapply StronglySorted_fmap; [|by apply StronglySorted_filter].
  intros w1 w2. apply HR.
Qed.

Lemma getWordsFromTilesLTR_scanFrom tiles :
  getWordsFromTilesLTR tiles
  = finishWords (mjoin (scanFrom LeftToRight None <$> tiles)).
Proof.
  unfold getWordsFromTilesLTR. do 2 f_equal. apply list_fmap_ext.
  intros _ row _. by rewrite flush_foldl.
Qed.

(** ** Shape of the grid *)

Lemma gridShape_lookup tiles r line :
  gridShape tiles → tiles !! r = Some line → length line = width tiles.
Proof. intros Hg Hr. eapply grid_rect; eauto using list_elem_of_lookup_2. Qed.

Lemma gridShape_getTile tiles r c :
  gridShape tiles → r < length tiles → c < width tiles →
  ∃ tile, getTile tiles r c = Ok tile.
Proof.
  intros Hg Hr Hc. apply lookup_lt_is_Some in Hr as [line Hline].
  pose proof (gridShape_lookup _ _ _ Hg Hline) as Hlen.
  destruct (lookup_lt_is_Some_2 line c) as [tile Htile]; [lia|].
  exists tile. apply getTile_Ok. eauto.
Qed.

Lemma getTile_bounds tiles r c tile :
  gridShape tiles → getTile tiles r c = Ok tile →
  r < length tiles ∧ c < width tiles.
Proof.
  intros Hg (line & Hr & Hc)%getTile_Ok. split.
  - by eapply lookup_lt_Some.
  - rewrite <-(gridShape_lookup _ _ _ Hg Hr). by eapply lookup_lt_Some.
Qed.

Lemma firstRowLength_width tiles :
  tiles ≠ [] → firstRowLength tiles = Ok (width tiles).
Proof. unfold firstRowLength, width. by destruct tiles. Qed.

Lemma column_lookup_aux (tiles : list (list Tile.t)) c r :
  Forall (λ row : list Tile.t, is_Some (row !! c)) tiles →
  column tiles c !! r = tiles !! r ≫= (λ row, row !! c).
Proof.
  unfold column. intros Hall. revert r.
  induction Hall as [|row tiles [tile Htile] Hall IH]; intros r; [done|].
  simpl. rewrite Htile. simpl. destruct r as [|r]; simpl; [done|]. apply IH.
Qed.

Lemma column_lookup tiles c r :
  gridShape tiles → c < width tiles →
  column tiles c !! r = tiles !! r ≫= (λ row, row !! c).
Proof.
  intros Hg Hc. apply column_lookup_aux, Forall_forall. intros row Hrow.
  apply lookup_lt_is_Some. by rewrite (grid_rect _ Hg row Hrow).
Qed.

Lemma column_getTile tiles c r tile :
  gridShape tiles → c < width tiles →
  column tiles c !! r = Some tile ↔ getTile tiles r c = Ok tile.
Proof.
  intros Hg Hc. rewrite column_lookup, getTile_Ok by done.
  destruct (tiles !! r) as [line|]; simpl.
  - split; [eauto|]. by intros (l & [= <-] & H).
  - split; [done|]. by intros (l & [=] & _).
Qed.

Lemma column_length_aux (tiles : list (list Tile.t)) c :
  Forall (λ row : list Tile.t, is_Some (row !! c)) tiles →
  length (column tiles c) = length tiles.
Proof.
  unfold column. induction 1 as [|row ts [tile Htile] Hall IH]; [done|].
  simpl. rewrite Htile. simpl. f_equal. apply IH.
Qed.

Lemma column_length tiles c :
  gridShape tiles → c < width tiles → length (column tiles c) = length tiles.
Proof.
  intros Hg Hc. apply column_length_aux, Forall_forall. intros row Hrow.
  apply lookup_lt_is_Some. by rewrite (grid_rect _ Hg row Hrow).
Qed.

(** ** The loops of the column-wise extractor *)

Lemma forOf_column (ts1 ts2 : list (list Tile.t)) c {St}
    (f : Tile.t → St → St) (st : St) :
  Forall (λ row : list Tile.t, is_Some (row !! c)) ts2 →
  forOf (seq (length ts1) (length ts2))
    (λ r st, let* tile := getTile (ts1 ++ ts2) r c in Ok (f tile st)) st
  = Ok (foldl (λ st tile, f tile st) st (column ts2 c)).
Proof.
  intros Hall. revert ts1 st.
  induction Hall as [|row ts2 [tile Htile] Hall IH]; intros ts1 st; [done|].
  cbn [length seq forOf]. unfold getTile at 1.
  rewrite list_lookup_middle by done. rewrite Htile. cbn [bind].
  unfold column. cbn [omap list_omap]. rewrite Htile. cbn [foldl].
  rewrite (cons_middle row ts1 ts2), app_assoc.
  specialize (IH (ts1 ++ [row])). rewrite length_app in IH. simpl in IH.
  replace (length ts1 + 1) with (S (length ts1)) in IH by lia.
  apply IH.
Qed.

Lemma foldl_app_join {A B} (g : A → list B) (l : list A) (acc : list B) :
  foldl (λ words c, words ++ g c) acc l = acc ++ mjoin (g <$> l).
Proof.
  revert acc. induction l as [|x l IH]; intros acc; simpl.
  - by rewrite app_nil_r.
  - rewrite IH. by rewrite app_assoc.
Qed.

Lemma getWordsFromTilesTTB_scanFrom tiles :
  gridShape tiles →
  getWordsFromTilesTTB tiles
  = Ok (finishWords
          (mjoin ((λ c, scanFrom TopToBottom None (column tiles c))
                    <$> seq 0 (width tiles)))).
Proof.
  intros Hg. unfold getWordsFromTilesTTB.
  rewrite firstRowLength_width by apply Hg. cbn [bind]. unfold forRange.
  rewrite (forOf_ext_in _ _
             (λ c words, Ok (words ++ scanFrom TopToBottom None (column tiles c)))).
  - rewrite forOf_total. cbn [bind]. by rewrite foldl_app_join.
  - intros c words [_ Hc]%elem_of_seq.
    rewrite (forOf_column [] tiles c (scanTile TopToBottom)).
    + cbn [bind]. by rewrite flush_foldl.
    + apply Forall_forall. intros row Hrow. apply lookup_lt_is_Some.
      rewrite (grid_rect _ Hg row Hrow). lia.
Qed.

(** ** The words of the grid are its maximal runs *)

Lemma textOf_length run :
  Forall (λ tile, ∀ l, Tile.letter tile = Some l →
                       String.length (Letter.letter l) = 1) run →
  Forall occupied run →
  String.length (textOf run) = length run.
Proof.
  induction 1 as [|tile run Htile _ IH]; intros Hocc; [done|].
  apply Forall_cons in Hocc as [Hocc Hrun]. cbn [textOf foldr length].
  rewrite string_length_app. fold (textOf run). rewrite IH by done.
  unfold occupied in Hocc. unfold charOf.
  destruct (Tile.letter tile) as [l|] eqn:E; [|done].
  simpl. by rewrite (Htile l).
Qed.

Lemma singleCharacters_lettered tiles line :
  singleCharacters tiles → (∀ tile, tile ∈ line → tile ∈ mjoin tiles) →
  lettered line.
Proof.
  intros Hs Hin. apply Forall_forall. intros tile Htile Hocc.
  unfold occupied in Hocc. unfold charOf.
  destruct (Tile.letter tile) as [l|] eqn:E; [|done].
  pose proof (Hs tile l (Hin tile Htile) E) as Hlen. simpl.
  by destruct (Letter.letter l).
Qed.

Lemma singleCharacters_Forall tiles line :
  singleCharacters tiles → (∀ tile, tile ∈ line → tile ∈ mjoin tiles) →
  Forall (λ tile, ∀ l, Tile.letter tile = Some l →
                       String.length (Letter.letter l) = 1) line.
Proof.
  intros Hs Hin. apply Forall_forall. intros tile Htile l. apply Hs; auto.
Qed.

Lemma row_elem_of (tiles : list (list Tile.t)) r line tile :
  tiles !! r = Some line → tile ∈ line → tile ∈ mjoin tiles.
Proof.
  intros Hr Htile. apply list_elem_of_join. exists line.
  eauto using list_elem_of_lookup_2.
Qed.

Lemma column_elem_of tiles c tile :
  gridShape tiles → c < width tiles → tile ∈ column tiles c → tile ∈ mjoin tiles.
Proof.
  intros Hg Hc [r Hr]%list_elem_of_lookup_1.
  apply column_getTile in Hr; [|done..]. by eapply getTile_elem_of.
Qed.

Lemma maximalRun_text tiles line pre run post :
  singleCharacters tiles → (∀ tile, tile ∈ line → tile ∈ mjoin tiles) →
  maximalRun line pre run post →
  String.length (textOf run) = length run.
Proof.
  intros Hs Hin [-> Hrun _ _]. apply textOf_length; [|done].
  eapply singleCharacters_Forall; [done|]. intros tile Htile. apply Hin.
  rewrite !elem_of_app. auto.
Qed.

Lemma maximalRun_head line pre tile run post :
  maximalRun line pre (tile :: run) post → line !! length pre = Some tile.
Proof.
  intros [-> _ _ _]. change ((tile :: run) ++ post) with (tile :: (run ++ post)).
  by rewrite list_lookup_middle.
Qed.

Lemma getWordsFromTilesLTR_elem_of tiles w :
  gridShape tiles → singleCharacters tiles →
  w ∈ getWordsFromTilesLTR tiles ↔
  ∃ r line pre run post,
    tiles !! r = Some line ∧ maximalRun line pre run post
    ∧ 2 ≤ length run ∧ w = rowWord r pre run.
Proof.
  intros Hg Hs. rewrite getWordsFromTilesLTR_scanFrom, elem_of_finishWords.
  split.
  - intros (w0 & (ws & Hw0 & (line & -> & [r Hr]%list_elem_of_lookup_1)
                    %list_elem_of_fmap)%list_elem_of_join & Hlen & ->).
    assert (∀ tile, tile ∈ line → tile ∈ mjoin tiles) as Hin
      by (intros; by eapply row_elem_of).
    apply scanFrom_elem_of in Hw0 as (pre & run & post & Hmax & Hne & ->);
      [|by eapply singleCharacters_lettered].
    exists r, line, pre, run, post.
    pose proof (maximalRun_text _ _ _ _ _ Hs Hin Hmax) as Htext.
    destruct run as [|tile run]; [done|].
    change (WordFromTile.word (rawWord _ (tile :: run)))
      with (textOf (tile :: run)) in Hlen.
    rewrite Htext in Hlen.
    split_and!; [done..|].
    apply maximalRun_head in Hmax.
    destruct (grid_pos _ Hg r (length pre) tile) as [Hrow Hcol].
    { apply getTile_Ok. eauto. }
    unfold rowWord, WordFromTile.withWord. simpl. by rewrite Hrow, Hcol.
  - intros (r & line & pre & run & post & Hr & Hmax & Hlen & ->).
    assert (∀ tile, tile ∈ line → tile ∈ mjoin tiles) as Hin
      by (intros; by eapply row_elem_of).
    pose proof (maximalRun_text _ _ _ _ _ Hs Hin Hmax) as Htext.
    destruct run as [|tile run]; [simpl in Hlen; lia|].
    exists (rawWord LeftToRight (tile :: run)). split_and!.
    + apply list_elem_of_join. exists (scanFrom LeftToRight None line). split.
      * eapply scanFrom_maximalRun; [|done..].
        by eapply singleCharacters_lettered.
      * apply list_elem_of_fmap. eauto using list_elem_of_lookup_2.
    + change (WordFromTile.word (rawWord _ (tile :: run)))
        with (textOf (tile :: run)).
      rewrite Htext. lia.
    + apply maximalRun_head in Hmax.
      destruct (grid_pos _ Hg r (length pre) tile) as [Hrow Hcol].
      { apply getTile_Ok. eauto. }
      unfold rowWord, WordFromTile.withWord. simpl. by rewrite Hrow, Hcol.
Qed.

Lemma getWordsFromTilesTTB_elem_of tiles :
  gridShape tiles → singleCharacters tiles →
  ∃ ws, getWordsFromTilesTTB tiles = Ok ws ∧
  ∀ w, w ∈ ws ↔
    ∃ c pre run post,
      c < width tiles ∧ maximalRun (column tiles c) pre run post
      ∧ 2 ≤ length run ∧ w = columnWord c pre run.
Proof.
  intros Hg Hs. eexists. split; [by apply getWordsFromTilesTTB_scanFrom|].
  intros w. rewrite elem_of_finishWords. split.
  - intros (w0 & (ws & Hw0 & (c & -> & [_ Hc]%elem_of_seq)
                    %list_elem_of_fmap)%list_elem_of_join & Hlen & ->).
    simpl in Hc.
    assert (∀ tile, tile ∈ column tiles c → tile ∈ mjoin tiles) as Hin
      by (intros; by eapply column_elem_of).
    apply scanFrom_elem_of in Hw0 as (pre & run & post & Hmax & Hne & ->);
      [|by eapply singleCharacters_lettered].
    exists c, pre, run, post.
    pose proof (maximalRun_text _ _ _ _ _ Hs Hin Hmax) as Htext.
    destruct run as [|tile run]; [done|].
    change (WordFromTile.word (rawWord _ (tile :: run)))
      with (textOf (tile :: run)) in Hlen.
    rewrite Htext in Hlen.
    split_and!; [done..|].
    apply maximalRun_head, column_getTile in Hmax; [|done..].
    destruct (grid_pos _ Hg _ _ _ Hmax) as [Hrow Hcol].
    unfold columnWord, WordFromTile.withWord. simpl. by rewrite Hrow, Hcol.
  - intros (c & pre & run & post & Hc & Hmax & Hlen & ->).
    assert (∀ tile, tile ∈ column tiles c → tile ∈ mjoin tiles) as Hin
      by (intros; by eapply column_elem_of).
    pose proof (maximalRun_text _ _ _ _ _ Hs Hin Hmax) as Htext.
    destruct run as [|tile run]; [simpl in Hlen; lia|].
    exists (rawWord TopToBottom (tile :: run)). split_and!.
    + apply list_elem_of_join.
      exists (scanFrom TopToBottom None (column tiles c)). split.
      * eapply scanFrom_maximalRun; [|done..].
        by eapply singleCharacters_lettered.
      * apply (list_elem_of_fmap_2
                 (λ c, scanFrom TopToBottom None (column tiles c))).
        apply elem_of_seq. lia.
    + change (WordFromTile.word (rawWord _ (tile :: run)))
        with (textOf (tile :: run)).
      rewrite Htext. lia.
    + apply maximalRun_head, column_getTile in Hmax; [|done..].
      destruct (grid_pos _ Hg _ _ _ Hmax) as [Hrow Hcol].
      unfold columnWord, WordFromTile.withWord. simpl. by rewrite Hrow, Hcol.
Qed.

(** ** The order of the words of the grid *)

Lemma StronglySorted_strengthen {A} (R R' : relation A) (P : A → Prop) l :
  StronglySorted R l → Forall P l →
  (∀ x y, P x → P y → R x y → R' x y) →
  StronglySorted R' l.
Proof.
  intros Hl HP HR. induction Hl as [|x l Hl IH Hx]; [constructor|].
  apply Forall_cons in HP as [HPx HP]. constructor; [by apply IH|].
  apply Forall_forall. intros y Hy.
  eapply Forall_forall in Hx, HP; eauto.
Qed.

Lemma scanFrom_row tiles r line :
  gridShape tiles → singleCharacters tiles → tiles !! r = Some line →
  Forall (λ w, WordFromTile.row w = r) (scanFrom LeftToRight None line)
  ∧ StronglySorted rowMajor (scanFrom LeftToRight None line).
Proof.
  intros Hg Hs Hr.
  assert (Forall (λ w, WordFromTile.row w = r) (scanFrom LeftToRight None line))
    as Hrow.
  { apply Forall_forall. intros w Hw.
    apply scanFrom_elem_of in Hw as (pre & run & post & Hmax & Hne & ->).
    - destruct run as [|tile run]; [done|]. apply maximalRun_head in Hmax.
      simpl. eapply grid_pos; [done|]. apply getTile_Ok. eauto.
    - eapply singleCharacters_lettered; [done|]. intros. by eapply row_elem_of. }
  split; [done|].
  destruct (scanFrom_sorted LeftToRight Tile.col WordFromTile.col
              ltac:(done) ltac:(done) line 0 0 None) as [_ Hsorted]; [|done|].
  { intros k tile Hk. simpl. eapply grid_pos; [done|]. apply getTile_Ok. eauto. }
  eapply StronglySorted_strengthen; [exact Hsorted|exact Hrow|].
  intros w1 w2 Hw1 Hw2 Hlt. right. simpl in *. split; [congruence|done].
Qed.

Lemma scanFrom_column tiles c :
  gridShape tiles → singleCharacters tiles → c < width tiles →
  Forall (λ w, WordFromTile.col w = c) (scanFrom TopToBottom None (column tiles c))
  ∧ StronglySorted columnMajor (scanFrom TopToBottom None (column tiles c)).
Proof.
  intros Hg Hs Hc.
  assert (Forall (λ w, WordFromTile.col w = c)
            (scanFrom TopToBottom None (column tiles c))) as Hcol.
  { apply Forall_forall. intros w Hw.
    apply scanFrom_elem_of in Hw as (pre & run & post & Hmax & Hne & ->).
    - destruct run as [|tile run]; [done|].
      apply maximalRun_head, column_getTile in Hmax; [|done..].
      simpl. eapply grid_pos; done.
    - eapply singleCharacters_lettered; [done|]. intros. by eapply column_elem_of. }
  split; [done|].
  destruct (scanFrom_sorted TopToBottom Tile.row WordFromTile.row
              ltac:(done) ltac:(done) (column tiles c) 0 0 None)
    as [_ Hsorted]; [|done|].
  { intros k tile Hk%column_getTile; [|done..]. simpl. eapply grid_pos; done. }
  eapply StronglySorted_strengthen; [exact Hsorted|exact Hcol|].
  intros w1 w2 Hw1 Hw2 Hlt. right. simpl in *. split; [congruence|done].
Qed.

Lemma getWordsFromTilesLTR_sorted tiles :
  gridShape tiles → singleCharacters tiles →
  StronglySorted rowMajor (getWordsFromTilesLTR tiles).
Proof.
  intros Hg Hs. rewrite getWordsFromTilesLTR_scanFrom.
  apply finishWords_sorted; [by intros [] [] ?? |].
  apply StronglySorted_join.
  - intros l (line & -> & [r Hr]%list_elem_of_lookup_1)%list_elem_of_fmap.
    by eapply scanFrom_row.
  - intros i j li lj x y Hij Hi Hj Hx Hy.
    apply list_lookup_fmap_Some in Hi as (linei & -> & Hi).
    apply list_lookup_fmap_Some in Hj as (linej & -> & Hj).
    destruct (scanFrom_row _ _ _ Hg Hs Hi) as [Hrowi _].
    destruct (scanFrom_row _ _ _ Hg Hs Hj) as [Hrowj _].
    eapply Forall_forall in Hrowi, Hrowj; eauto. left. lia.
Qed.

Lemma getWordsFromTilesTTB_sorted tiles ws :
  gridShape tiles → singleCharacters tiles →
  getWordsFromTilesTTB tiles = Ok ws →
  StronglySorted columnMajor ws.
Proof.
  intros Hg Hs. rewrite getWordsFromTilesTTB_scanFrom by done. intros [= <-].
  apply finishWords_sorted; [by intros [] [] ?? |].
  apply StronglySorted_join.
  - intros l (c & -> & [_ Hc]%elem_of_seq)%list_elem_of_fmap.
    by eapply scanFrom_column.
  - intros i j li lj x y Hij Hi Hj Hx Hy.
    apply list_lookup_fmap_Some in Hi as (ci & -> & [-> Hi]%lookup_seq).
    apply list_lookup_fmap_Some in Hj as (cj & -> & [-> Hj]%lookup_seq).
    destruct (scanFrom_column tiles i Hg Hs) as [Hcoli _]; [lia|].
    destruct (scanFrom_column tiles j Hg Hs) as [Hcolj _]; [lia|].
    eapply Forall_forall in Hcoli, Hcolj; eauto. left. simpl in *. lia.
Qed.

(** * The passes of [validateBoard] *)

Lemma getTile_mapGrid g tiles r c :
  getTile (mapGrid g tiles) r c
  = match getTile tiles r c with
    | Ok tile => Ok (g r c tile)
    | Err e => Err e
    end.
Proof.
  unfold getTile, mapGrid. rewrite list_lookup_imap.
  destruct (tiles !! r) as [line|]; simpl; [|done].
  rewrite list_lookup_imap. by destruct (line !! c).
Qed.

Lemma length_mapGrid g tiles : length (mapGrid g tiles) = length tiles.
Proof. apply length_imap. Qed.

Lemma rectangular_mapGrid g cols tiles :
  rectangular cols tiles → rectangular cols (mapGrid g tiles).
Proof.
  unfold rectangular, mapGrid. rewrite !Forall_lookup. intros Hrect r line.
  rewrite list_lookup_imap.
  destruct (tiles !! r) as [line'|] eqn:Hr; simpl; [|done].
  intros [= <-]. rewrite length_imap. eauto.
Qed.

Lemma grid_eq (tiles1 tiles2 : list (list Tile.t)) :
  length tiles1 = length tiles2 →
  (∀ r line1 line2, tiles1 !! r = Some line1 → tiles2 !! r = Some line2 →
     length line1 = length line2) →
  (∀ r c, getTile tiles1 r c = getTile tiles2 r c) →
  tiles1 = tiles2.
Proof.
  intros Hlen Hrows Hget. apply list_eq_same_length with (length tiles1); [done..|].
  intros r line1 line2 _ Hr1 Hr2.
  apply list_eq_same_length with (length line1);
    [symmetry; by eapply Hrows|done|].
  intros c t1 t2 _ Hc1 Hc2. specialize (Hget r c). unfold getTile in Hget.
  rewrite Hr1, Hr2, Hc1, Hc2 in Hget. congruence.
Qed.

Lemma mapGrid_ext g1 g2 tiles :
  (∀ r c tile, getTile tiles r c = Ok tile → g1 r c tile = g2 r c tile) →
  mapGrid g1 tiles = mapGrid g2 tiles.
Proof.
  intros Hg. apply grid_eq.
  - by rewrite !length_mapGrid.
  - unfold mapGrid. intros r line1 line2. rewrite !list_lookup_imap.
    destruct (tiles !! r); simpl; [|done]. intros [= <-] [= <-].
    by rewrite !length_imap.
  - intros r c. rewrite !getTile_mapGrid.
    destruct (getTile tiles r c) eqn:E; [|done]. by rewrite Hg.
Qed.

Lemma mapGrid_mapGrid g1 g2 tiles :
  mapGrid g2 (mapGrid g1 tiles) = mapGrid (λ r c tile, g2 r c (g1 r c tile)) tiles.
Proof.
  apply grid_eq.
  - by rewrite !length_mapGrid.
  - unfold mapGrid. intros r line1 line2. rewrite !list_lookup_imap.
    destruct (tiles !! r); simpl; [|done]. intros [= <-] [= <-].
    by rewrite !length_imap.
  - intros r c. rewrite !getTile_mapGrid. by destruct (getTile tiles r c).
Qed.

Lemma mapGrid_id g tiles :
  (∀ r c tile, getTile tiles r c = Ok tile → g r c tile = tile) →
  mapGrid g tiles = tiles.
Proof.
  intros Hg. apply grid_eq.
  - by rewrite !length_mapGrid.
  - unfold mapGrid. intros r line1 line2. rewrite !list_lookup_imap.
    intros Hr1 Hr2. rewrite Hr2 in Hr1. simpl in Hr1. injection Hr1 as <-.
    by rewrite !length_imap.
  - intros r c. rewrite !getTile_mapGrid.
    destruct (getTile tiles r c) eqn:E; [|done]. by rewrite Hg.
Qed.

Lemma getTile_rectangular cols tiles r c :
  rectangular cols tiles → r < length tiles → c < cols →
  ∃ tile, getTile tiles r c = Ok tile.
Proof.
  intros Hrect Hr Hc. apply lookup_lt_is_Some in Hr as [line Hline].
  assert (length line = cols) as Hlen.
  { eapply Forall_lookup in Hrect; eauto. }
  destruct (lookup_lt_is_Some_2 line c) as [tile Htile]; [lia|].
  exists tile. apply getTile_Ok. eauto.
Qed.

Lemma writeState_mapGrid f tiles r c tile :
  getTile tiles r c = Ok tile →
  writeState f tiles r c
  = Ok (mapGrid (λ r' c' tile',
                   if decide (r' = r ∧ c' = c) then touch f tile' else tile')
          tiles).
Proof.
  intros (line & Hr & Hc)%getTile_Ok. unfold writeState. rewrite Hr, Hc.
  f_equal. symmetry. apply grid_eq.
  - by rewrite length_mapGrid, length_insert.
  - unfold mapGrid. intros r' line1 line2. rewrite list_lookup_imap.
    destruct (decide (r = r')) as [<-|Hne].
    + rewrite Hr, list_lookup_insert_eq by by eapply lookup_lt_Some.
      intros [= <-] [= <-]. by rewrite length_imap, length_insert.
    + rewrite list_lookup_insert_ne by done.
      destruct (tiles !! r'); simpl; [|done]. intros [= <-] [= <-].
      by rewrite length_imap.
  - intros r' c'. rewrite getTile_mapGrid. unfold getTile.
    destruct (decide (r = r')) as [<-|Hne].
    + rewrite Hr, list_lookup_insert_eq by by eapply lookup_lt_Some.
      destruct (decide (c = c')) as [<-|Hne].
      * rewrite Hc, list_lookup_insert_eq by by eapply lookup_lt_Some.
        by rewrite decide_True.
      * rewrite list_lookup_insert_ne by done.
        destruct (line !! c'); [|done]. rewrite decide_False; [done|]. intros [??]; congruence.
    + rewrite list_lookup_insert_ne by done.
      destruct (tiles !! r') as [line'|]; [|done].
      destruct (line' !! c'); [|done]. rewrite decide_False; [done|]. intros [??]; congruence.
Qed.

Lemma forRange_S {St} n (body : nat → St → result St) s :
  forRange (S n) body s = let* s' := forRange n body s in body n s'.
Proof.
  unfold forRange. rewrite seq_S, forOf_app. simpl.
  destruct (forOf (seq 0 n) body s); simpl; [|done]. by destruct (body n a).
Qed.

Section Pass.
Variable f : TileState → TileState.
Variable cols : nat.

Lemma forRange_row tiles r c0 n :
  rectangular cols tiles → r < length tiles → c0 + n ≤ cols →
  forRange n (λ c tiles, writeState f tiles r (c0 + c)) tiles
  = Ok (mapGrid (λ r' c' tile,
                   if decide (r' = r ∧ c0 ≤ c' < c0 + n) then touch f tile
                   else tile) tiles).
Proof.
  intros Hrect Hr. induction n as [|n IH]; intros Hn.
  - unfold forRange. simpl. f_equal. symmetry. apply mapGrid_id.
    intros. rewrite decide_False; [done|lia].
  - rewrite forRange_S, IH by lia. cbn [bind].
    destruct (getTile_rectangular cols
                (mapGrid (λ r' c' tile,
                   if decide (r' = r ∧ c0 ≤ c' < c0 + n) then touch f tile
                   else tile) tiles) r (c0 + n)) as [tile Htile].
    { by apply rectangular_mapGrid. }
    { by rewrite length_mapGrid. }
    { lia. }
    rewrite (writeState_mapGrid _ _ _ _ _ Htile), mapGrid_mapGrid.
    f_equal. apply mapGrid_ext. intros r' c' tile' _.
    repeat case_decide; try done; lia.
Qed.

Lemma forRange_column tiles r0 c n :
  rectangular cols tiles → c < cols →
  forRange n (λ r tiles',
    if (Z.of_nat (r0 + r) >? Z.of_nat (length tiles) - 1)%Z then Ok tiles'
    else writeState f tiles' (r0 + r) c) tiles
  = Ok (mapGrid (λ r' c' tile,
                   if decide (c' = c ∧ r0 ≤ r' < r0 + n) then touch f tile
                   else tile) tiles).
Proof.
  intros Hrect Hc. induction n as [|n IH].
  - unfold forRange. simpl. f_equal. symmetry. apply mapGrid_id.
    intros. rewrite decide_False; [done|lia].
  - rewrite forRange_S, IH. cbn [bind].
    destruct (Z.gtb_spec (Z.of_nat (r0 + n)) (Z.of_nat (length tiles) - 1))
      as [Hskip|Hwrite].
    + f_equal. apply mapGrid_ext. intros r' c' tile' Htile.
      assert (r' < length tiles).
      { apply getTile_Ok in Htile as (line & Hline & _).
        by eapply lookup_lt_Some. }
      repeat case_decide; try done; lia.
    + destruct (getTile_rectangular cols
                  (mapGrid (λ r' c' tile,
                     if decide (c' = c ∧ r0 ≤ r' < r0 + n) then touch f tile
                     else tile) tiles) (r0 + n) c) as [tile Htile].
      { by apply rectangular_mapGrid. }
      { rewrite length_mapGrid. lia. }
      { done. }
      rewrite (writeState_mapGrid _ _ _ _ _ Htile), mapGrid_mapGrid.
      f_equal. apply mapGrid_ext. intros r' c' tile' _.
      repeat case_decide; try done; lia.
Qed.

Lemma forTilesOfWord_mapGrid tiles w :
  rectangular cols tiles → inRange cols tiles w →
  forTilesOfWord f (length tiles) w tiles
  = Ok (mapGrid (λ r c tile, if decide (spans w r c) then touch f tile else tile)
          tiles).
Proof.
  intros Hrect. unfold inRange, forTilesOfWord.
  destruct (WordFromTile.direction w) eqn:Hdir.
  - intros [Hr Hc]. rewrite forRange_row by done. f_equal.
    apply mapGrid_ext. intros r c tile _.
    repeat case_decide; unfold spans in *; rewrite Hdir in *; try done; lia.
  - intros Hc. rewrite forRange_column by done. f_equal.
    apply mapGrid_ext. intros r c tile _.
    repeat case_decide; unfold spans in *; rewrite Hdir in *; try done; lia.
Qed.

Hypothesis f_idempotent : ∀ s, f (f s) = f s.

Lemma touch_idempotent tile : touch f (touch f tile) = touch f tile.
Proof. unfold touch, Tile.withState. simpl. by rewrite f_idempotent. Qed.

Lemma forOf_words ws tiles gridBounds :
  gridBounds = length tiles →
  rectangular cols tiles → Forall (inRange cols tiles) ws →
  forOf ws (forTilesOfWord f gridBounds) tiles
  = Ok (mapGrid (passOver f ws) tiles).
Proof.
  intros -> Hrect Hws. revert tiles Hrect Hws.
  induction ws as [|w ws IH]; intros tiles Hrect Hws.
  - simpl. f_equal. symmetry. apply mapGrid_id. intros r c tile _.
    unfold passOver. rewrite decide_False; [done|]. by intros ?%Exists_nil.
  - apply Forall_cons in Hws as [Hw Hws]. cbn [forOf].
    rewrite forTilesOfWord_mapGrid by done. cbn [bind].
    rewrite <-(length_mapGrid
                 (λ r c tile, if decide (spans w r c) then touch f tile else tile)
                 tiles) at 1.
    rewrite IH.
    + rewrite mapGrid_mapGrid. f_equal. apply mapGrid_ext.
      intros r c tile _. unfold passOver.
      repeat case_decide; rewrite ?touch_idempotent; try done;
        exfalso; rewrite Exists_cons in *; tauto.
    + by apply rectangular_mapGrid.
    + eapply Forall_impl; [exact Hws|]. intros w'. unfold inRange.
      by rewrite length_mapGrid.
Qed.
End Pass.

Lemma markValid_idempotent s : markValid (markValid s) = markValid s.
Proof. done. Qed.

Lemma markMixed_idempotent s : markMixed (markMixed s) = markMixed s.
Proof. unfold markMixed. by repeat case_decide. Qed.

Lemma gridShape_rectangular tiles :
  gridShape tiles → rectangular (width tiles) tiles.
Proof. intros Hg. apply Forall_forall. apply Hg. Qed.

Lemma initTiles_mapGrid (tiles : list (list Tile.t)) :
  (λ row : list Tile.t, initTile <$> row) <$> tiles
  = mapGrid (λ _ _, initTile) tiles.
Proof.
  unfold mapGrid. rewrite <-imap_const. apply imap_ext. intros r line _.
  simpl. by rewrite <-imap_const.
Qed.

(** [validateBoard] in closed form *)
Lemma validateBoard_annotate {Cursor} dictionary (board : Board.t Cursor) cols ttb :
  rectangular cols (Board.tiles board) →
  getWordsFromTilesTTB (Board.tiles board) = Ok ttb →
  Forall (inRange cols (Board.tiles board))
    (getWordsFromTilesLTR (Board.tiles board) ++ ttb) →
  validateBoard dictionary board
  = Ok (Board.mk (Board.cursor board)
          (mapGrid
             (annotate dictionary (getWordsFromTilesLTR (Board.tiles board) ++ ttb))
             (Board.tiles board)),
        forallb (λ w, bool_decide (inDictionary dictionary w))
          (getWordsFromTilesLTR (Board.tiles board) ++ ttb)).
Proof.
  intros Hrect Httb Hfound. unfold validateBoard. rewrite Httb. cbn [bind].
  rewrite initTiles_mapGrid.
  assert (∀ P `{∀ w, Decision (P w)},
            Forall (inRange cols (mapGrid (λ _ _, initTile) (Board.tiles board)))
              (filter P (getWordsFromTilesLTR (Board.tiles board) ++ ttb)))
    as Hin.
  { intros P ?. apply Forall_forall. intros w [_ Hw]%list_elem_of_filter.
    eapply Forall_forall in Hfound; [|done]. unfold inRange in *.
    by rewrite length_mapGrid. }
  rewrite (forOf_words markValid cols markValid_idempotent);
    [|by rewrite length_mapGrid|by apply rectangular_mapGrid|by apply Hin].
  cbn [bind].
  rewrite (forOf_words markMixed cols markMixed_idempotent);
    [|by rewrite !length_mapGrid|by do 2 apply rectangular_mapGrid|].
  - cbn [bind]. by rewrite !mapGrid_mapGrid.
  - eapply Forall_impl; [apply (Hin (λ w, ¬ inDictionary dictionary w) _)|].
    intros w. unfold inRange. by rewrite !length_mapGrid.
Qed.

Lemma foundWords_inRange tiles ttb :
  gridShape tiles → singleCharacters tiles →
  getWordsFromTilesTTB tiles = Ok ttb →
  Forall (inRange (width tiles) tiles) (getWordsFromTilesLTR tiles ++ ttb).
Proof.
  intros Hg Hs Httb. apply Forall_app. split; apply Forall_forall; intros w Hw.
  - apply getWordsFromTilesLTR_elem_of in Hw
      as (r & line & pre & run & post & Hr & Hmax & Hlen & ->); [|done..].
    unfold inRange, rowWord. simpl. split; [by eapply lookup_lt_Some|].
    rewrite toLowerCase_length.
    rewrite (maximalRun_text tiles line pre run post); [|done| |done].
    + rewrite <-(gridShape_lookup _ _ _ Hg Hr). destruct Hmax as [-> _ _ _].
      rewrite !length_app. lia.
    + intros. by eapply row_elem_of.
  - destruct (getWordsFromTilesTTB_elem_of tiles Hg Hs) as (ws & Hws & Hiff).
    rewrite Httb in Hws. injection Hws as <-.
    apply Hiff in Hw as (c & pre & run & post & Hc & _ & _ & ->).
    by unfold inRange, columnWord.
Qed.

(** * [validateBoard] on a well-formed board *)

Lemma validateBoard_total {Cursor} dictionary (board : Board.t Cursor) :
  gridShape (Board.tiles board) → singleCharacters (Board.tiles board) →
  ∃ ttb,
    getWordsFromTilesTTB (Board.tiles board) = Ok ttb
    ∧ validateBoard dictionary board
      = Ok (Board.mk (Board.cursor board)
              (mapGrid
                 (annotate dictionary
                    (getWordsFromTilesLTR (Board.tiles board) ++ ttb))
                 (Board.tiles board)),
            forallb (λ w, bool_decide (inDictionary dictionary w))
              (getWordsFromTilesLTR (Board.tiles board) ++ ttb)).
Proof.
  intros Hg Hs.
  destruct (getWordsFromTilesTTB_elem_of _ Hg Hs) as (ttb & Httb & _).
  exists ttb. split; [done|].
  apply (validateBoard_annotate _ _ (width (Board.tiles board)));
    [by apply gridShape_rectangular|done|by apply foundWords_inRange].
Qed.

(** ** The tiles of a candidate word are occupied *)

Lemma run_lookup (line pre run post : list Tile.t) c :
  line = pre ++ run ++ post → length pre ≤ c < length pre + length run →
  ∃ tile, line !! c = Some tile ∧ tile ∈ run.
Proof.
  intros -> Hc. destruct (lookup_lt_is_Some_2 run (c - length pre)) as [tile Htile];
    [lia|].
  exists tile. split; [|by eapply list_elem_of_lookup_2].
  rewrite lookup_app_r by lia. by rewrite lookup_app_l by lia.
Qed.

Lemma found_spans tiles ttb w r c :
  gridShape tiles → singleCharacters tiles →
  getWordsFromTilesTTB tiles = Ok ttb →
  w ∈ getWordsFromTilesLTR tiles ++ ttb → spans w r c →
  ∃ tile, getTile tiles r c = Ok tile ∧ occupied tile.
Proof.
  intros Hg Hs Httb [Hw|Hw]%elem_of_app.
  - apply getWordsFromTilesLTR_elem_of in Hw
      as (r0 & line & pre & run & post & Hr & Hmax & Hlen & ->); [|done..].
    unfold spans, rowWord. simpl. rewrite toLowerCase_length.
    rewrite (maximalRun_text tiles line pre run post);
      [|done|by intros; eapply row_elem_of|done].
    intros [-> Hc]. destruct Hmax as [Hline Hrun _ _].
    destruct (run_lookup _ _ _ _ c Hline Hc) as (tile & Htile & Hin).
    exists tile. split; [apply getTile_Ok; eauto|].
    eapply Forall_forall in Hrun; eauto.
  - destruct (getWordsFromTilesTTB_elem_of tiles Hg Hs) as (ws & Hws & Hiff).
    rewrite Httb in Hws. injection Hws as <-.
    apply Hiff in Hw as (c0 & pre & run & post & Hc0 & Hmax & Hlen & ->).
    unfold spans, columnWord. simpl. rewrite toLowerCase_length.
    rewrite (maximalRun_text tiles (column tiles c0) pre run post);
      [|done|by intros; eapply column_elem_of|done].
    intros [-> Hr]. destruct Hmax as [Hline Hrun _ _].
    destruct (run_lookup _ _ _ _ r Hline Hr) as (tile & Htile & Hin).
    exists tile. split; [by apply column_getTile in Htile|].
    eapply Forall_forall in Hrun; eauto.
Qed.

(** ** The state of a tile of the returned board *)

Lemma annotate_fields dictionary found r c tile :
  Tile.id (annotate dictionary found r c tile) = Tile.id tile
  ∧ Tile.row (annotate dictionary found r c tile) = Tile.row tile
  ∧ Tile.col (annotate dictionary found r c tile) = Tile.col tile
  ∧ Tile.letter (annotate dictionary found r c tile) = Tile.letter tile.
Proof.
  unfold annotate, passOver, touch, initTile.
  repeat case_decide; destruct (Tile.letter tile) eqn:E; simpl; by rewrite ?E.
Qed.

Lemma annotate_free dictionary found r c tile :
  ¬ occupied tile → (∀ w, w ∈ found → ¬ spans w r c) →
  Tile.state (annotate dictionary found r c tile) = IDLE.
Proof.
  intros Hfree Hspans. unfold annotate, passOver.
  rewrite !decide_False.
  - unfold initTile, occupied in *. destruct (Tile.letter tile); [|done].
    by destruct Hfree.
  - intros (w & [_ Hw]%list_elem_of_filter & Hsp)%Exists_exists. by eapply Hspans.
  - intros (w & [_ Hw]%list_elem_of_filter & Hsp)%Exists_exists. by eapply Hspans.
Qed.

Lemma annotate_occupied dictionary found r c tile :
  occupied tile →
  Tile.state (annotate dictionary found r c tile)
  = if decide (Exists (λ w, spans w r c) (filter (inDictionary dictionary) found)
               ∧ ¬ Exists (λ w, spans w r c)
                     (filter (λ w, ¬ inDictionary dictionary w) found))
    then VALID else INVALID.
Proof.
  intros Hocc. unfold annotate, passOver, touch, initTile, occupied in *.
  destruct (Tile.letter tile); [|done].
  repeat case_decide; simpl; try done; tauto.
Qed.

Lemma annotate_invalid dictionary found r c tile w :
  occupied tile → w ∈ found → ¬ inDictionary dictionary w → spans w r c →
  Tile.state (annotate dictionary found r c tile) = INVALID.
Proof.
  intros Hocc Hw Hinv Hsp. rewrite annotate_occupied by done.
  rewrite decide_False; [done|]. intros [_ []]. apply Exists_exists.
  exists w. split; [|done]. by apply list_elem_of_filter.
Qed.

Lemma annotate_nil dictionary r c tile :
  annotate dictionary [] r c tile = initTile tile.
Proof. unfold annotate, passOver. by rewrite !decide_False by by intros ?%Exists_nil. Qed.

(** The state after the marking pass alone. *)
Lemma passOver_markValid ws r c tile :
  Tile.state (passOver markValid ws r c (initTile tile))
  = if decide (Exists (λ w, spans w r c) ws) then VALID
    else Tile.state (initTile tile).
Proof. unfold passOver. by case_decide. Qed.

(** The marking pass of [validateBoard], on its own. *)
Lemma markingPass tiles ttb (dictionary : gset string) :
  gridShape tiles → singleCharacters tiles →
  getWordsFromTilesTTB tiles = Ok ttb →
  forOf (filter (inDictionary dictionary) (getWordsFromTilesLTR tiles ++ ttb))
    (forTilesOfWord markValid (length tiles))
    ((λ row : list Tile.t, initTile <$> row) <$> tiles)
  = Ok (mapGrid
          (λ r c tile,
             passOver markValid
               (filter (inDictionary dictionary) (getWordsFromTilesLTR tiles ++ ttb))
               r c (initTile tile))
          tiles).
Proof.
  intros Hg Hs Httb. rewrite initTiles_mapGrid.
  rewrite (forOf_words markValid (width tiles) markValid_idempotent).
  - by rewrite mapGrid_mapGrid.
  - by rewrite length_mapGrid.
  - by apply rectangular_mapGrid, gridShape_rectangular.
  - apply Forall_forall. intros w [_ Hw]%list_elem_of_filter.
    pose proof (foundWords_inRange tiles ttb Hg Hs Httb) as Hin.
    eapply Forall_forall in Hin; [|done]. unfold inRange in *.
    by rewrite length_mapGrid.
Qed.

(** * [validateBoard] does not read the states *)

Lemma forOf_ext {A St} (xs : list A) (body1 body2 : A → St → result St) s :
  (∀ x s, body1 x s = body2 x s) → forOf xs body1 s = forOf xs body2 s.
Proof. intros Hb. apply forOf_ext_in. auto. Qed.

Lemma forOf_preserves {A St} (P : St → Prop) (xs : list A)
    (body : A → St → result St) s s' :
  (∀ x s s', P s → body x s = Ok s' → P s') →
  P s → forOf xs body s = Ok s' → P s'.
Proof.
  intros Hbody. revert s. induction xs as [|x xs IH]; intros s Hs; simpl.
  - by intros [= <-].
  - intros (s1 & Hs1 & Hrest)%bind_Ok. eauto.
Qed.

Lemma scanTile_reset direction tile st :
  scanTile direction (resetTile tile) st = scanTile direction tile st.
Proof. done. Qed.

Lemma initTile_reset tile : initTile (resetTile tile) = initTile tile.
Proof. unfold initTile, resetTile. simpl. by destruct (Tile.letter tile). Qed.

Lemma resetTile_initTile tile : resetTile (initTile tile) = resetTile tile.
Proof. unfold initTile, resetTile. by destruct (Tile.letter tile). Qed.

Lemma resetTile_touch f tile : resetTile (touch f tile) = resetTile tile.
Proof. done. Qed.

Lemma length_resetGrid tiles : length (resetGrid tiles) = length tiles.
Proof. apply length_fmap. Qed.

Lemma getTile_resetGrid tiles r c :
  getTile (resetGrid tiles) r c
  = match getTile tiles r c with
    | Ok tile => Ok (resetTile tile)
    | Err e => Err e
    end.
Proof.
  unfold getTile, resetGrid. rewrite list_lookup_fmap.
  destruct (tiles !! r) as [line|]; simpl; [|done].
  rewrite list_lookup_fmap. by destruct (line !! c).
Qed.

Lemma foldl_fmap_l {A B C} (f : A → C → A) (g : B → C) (l : list B) (a : A) :
  foldl f a (g <$> l) = foldl (λ a x, f a (g x)) a l.
Proof. revert a. induction l as [|x l IH]; intros a; simpl; auto. Qed.

Lemma getWordsFromTilesLTR_reset tiles :
  getWordsFromTilesLTR (resetGrid tiles) = getWordsFromTilesLTR tiles.
Proof.
  unfold getWordsFromTilesLTR, resetGrid. do 2 f_equal.
  rewrite <-list_fmap_compose. apply list_fmap_ext. intros _ row _. simpl.
  by rewrite foldl_fmap_l.
Qed.

Lemma getWordsFromTilesTTB_reset tiles :
  getWordsFromTilesTTB (resetGrid tiles) = getWordsFromTilesTTB tiles.
Proof.
  unfold getWordsFromTilesTTB, firstRowLength.
  replace (resetGrid tiles !! 0) with
    ((λ row : list Tile.t, resetTile <$> row) <$> tiles !! 0)
    by (unfold resetGrid; by rewrite list_lookup_fmap).
  destruct (tiles !! 0) as [row|]; simpl; [|done].
  rewrite length_fmap, length_resetGrid. unfold forRange.
  rewrite (forOf_ext _ _
             (λ c words,
                let* st :=
                  forOf (seq 0 (length tiles))
                    (λ r st, let* tile := getTile tiles r c in
                             Ok (scanTile TopToBottom tile st)) (words, None) in
                Ok (flush st))); [done|].
  intros c words.
  rewrite (forOf_ext _ _
             (λ r st, let* tile := getTile tiles r c in
                      Ok (scanTile TopToBottom tile st))); [done|].
  intros r st. rewrite getTile_resetGrid. by destruct (getTile tiles r c).
Qed.

Lemma initTiles_reset (tiles : list (list Tile.t)) :
  (λ row : list Tile.t, initTile <$> row) <$> resetGrid tiles
  = (λ row : list Tile.t, initTile <$> row) <$> tiles.
Proof.
  unfold resetGrid. rewrite <-list_fmap_compose. apply list_fmap_ext.
  intros _ row _. simpl. rewrite <-list_fmap_compose. apply list_fmap_ext.
  intros _ tile _. apply initTile_reset.
Qed.

Lemma resetGrid_initTiles (tiles : list (list Tile.t)) :
  resetGrid ((λ row : list Tile.t, initTile <$> row) <$> tiles) = resetGrid tiles.
Proof.
  unfold resetGrid. rewrite <-list_fmap_compose. apply list_fmap_ext.
  intros _ row _. simpl. rewrite <-list_fmap_compose. apply list_fmap_ext.
  intros _ tile _. apply resetTile_initTile.
Qed.

Lemma validateBoard_reset {Cursor} dictionary (cursor : Cursor) tiles :
  validateBoard dictionary (Board.mk cursor (resetGrid tiles))
  = validateBoard dictionary (Board.mk cursor tiles).
Proof.
  unfold validateBoard. simpl.
  by rewrite getWordsFromTilesLTR_reset, getWordsFromTilesTTB_reset,
    initTiles_reset, length_resetGrid.
Qed.

(** * [validateBoard] writes states only *)

Lemma writeState_reset f tiles r c tiles' :
  writeState f tiles r c = Ok tiles' → resetGrid tiles' = resetGrid tiles.
Proof.
  unfold writeState. destruct (tiles !! r) as [line|] eqn:Hr; [|done].
  destruct (line !! c) as [tile|] eqn:Hc; [|done]. intros [= <-].
  unfold resetGrid. rewrite list_fmap_insert. apply list_insert_id.
  rewrite list_lookup_fmap, Hr. simpl. f_equal.
  rewrite list_fmap_insert. symmetry. apply list_insert_id.
  by rewrite list_lookup_fmap, Hc.
Qed.

Lemma forTilesOfWord_reset f gridBounds w tiles tiles' :
  forTilesOfWord f gridBounds w tiles = Ok tiles' →
  resetGrid tiles' = resetGrid tiles.
Proof.
  unfold forTilesOfWord, forRange.
  destruct (WordFromTile.direction w);
    apply (forOf_preserves (λ s, resetGrid s = resetGrid tiles)); try done.
  - intros c s s' Hs Hw%writeState_reset. congruence.
  - intros r s s' Hs. case_match; [by intros [= <-]|].
    intros Hw%writeState_reset. congruence.
Qed.

Lemma validateBoard_writes_states {Cursor} dictionary (board board' : Board.t Cursor) v :
  validateBoard dictionary board = Ok (board', v) →
  Board.cursor board' = Board.cursor board
  ∧ resetGrid (Board.tiles board') = resetGrid (Board.tiles board).
Proof.
  unfold validateBoard.
  intros (ttb & _ & (tiles1 & H1 & (tiles2 & H2 & [= <- _])%bind_Ok)%bind_Ok)%bind_Ok.
  split; [done|]. simpl.
  apply (forOf_preserves (λ s, resetGrid s = resetGrid tiles1)) in H2;
    [|intros w s s' Hs Hw%forTilesOfWord_reset; congruence|done].
  apply (forOf_preserves
           (λ s, resetGrid s
                 = resetGrid ((λ row : list Tile.t, initTile <$> row)
                                <$> Board.tiles board))) in H1;
    [|intros w s s' Hs Hw%forTilesOfWord_reset; congruence|done].
  by rewrite H2, H1, resetGrid_initTiles.
Qed.

Lemma validateBoard_idempotent {Cursor} dictionary (board board' : Board.t Cursor) v :
  validateBoard dictionary board = Ok (board', v) →
  validateBoard dictionary board' = Ok (board', v).
Proof.
  intros Hv. destruct (validateBoard_writes_states _ _ _ _ Hv) as [Hc Ht].
  destruct board as [cursor tiles], board' as [cursor' tiles']. simpl in *.
  subst cursor'. by rewrite <-validateBoard_reset, Ht, validateBoard_reset.
Qed.

Lemma resetGrid_getTile tiles tiles' r c tile :
  resetGrid tiles' = resetGrid tiles → getTile tiles r c = Ok tile →
  ∃ tile', getTile tiles' r c = Ok tile' ∧ resetTile tile' = resetTile tile.
Proof.
  intros Heq Hget. pose proof (getTile_resetGrid tiles r c) as H.
  rewrite <-Heq, getTile_resetGrid, Hget in H.
  destruct (getTile tiles' r c) as [tile'|]; [|done]. exists tile'.
  split; [done|]. congruence.
Qed.

Lemma resetGrid_shape tiles tiles' :
  resetGrid tiles' = resetGrid tiles →
  length tiles' = length tiles
  ∧ ∀ r line, tiles !! r = Some line →
      ∃ line', tiles' !! r = Some line' ∧ length line' = length line.
Proof.
  intros Heq. split.
  - by rewrite <-(length_resetGrid tiles'), Heq, length_resetGrid.
  - intros r line Hr. assert (resetGrid tiles' !! r = resetGrid tiles !! r) as H
      by by rewrite Heq.
    unfold resetGrid in H. rewrite !list_lookup_fmap, Hr in H.
    destruct (tiles' !! r) as [line'|]; [|done]. exists line'. split; [done|].
    simpl in H. injection H as H.
    by rewrite <-(length_fmap resetTile line'), H, length_fmap.
Qed.

Lemma resetTile_fields tile tile' :
  resetTile tile' = resetTile tile ↔
  Tile.id tile' = Tile.id tile ∧ Tile.row tile' = Tile.row tile
  ∧ Tile.col tile' = Tile.col tile ∧ Tile.letter tile' = Tile.letter tile.
Proof.
  unfold resetTile, Tile.withState. destruct tile, tile'; simpl.
  split; [by intros [= -> -> -> ->]|by intros (-> & -> & -> & ->)].
Qed.

(** * The connectivity check *)

Lemma connected_trans tiles p q r :
  connected tiles p q → connected tiles q r → connected tiles p r.
Proof.
  intros Hpq Hqr. induction Hqr as [q Hq|q q' q'' Hqq' IH Hadj Hocc]; [done|].
  eapply connected_step; [by apply IH|done..].
Qed.

Lemma connected_occupiedAt tiles p q : connected tiles p q → occupiedAt tiles q.
Proof. by destruct 1. Qed.

Lemma connected_occupiedAt_l tiles p q : connected tiles p q → occupiedAt tiles p.
Proof. induction 1; auto. Qed.

Lemma adjacent_sym p q : adjacent p q → adjacent q p.
Proof. unfold adjacent. lia. Qed.

Lemma connected_sym tiles p q : connected tiles p q → connected tiles q p.
Proof.
  induction 1 as [|p q q' Hpq IH Hadj Hocc]; [by constructor|].
  eapply connected_trans; [|exact IH].
  eapply connected_step; [by constructor| by apply adjacent_sym |].
  by eapply connected_occupiedAt.
Qed.

Section DFS.
Variable tiles : list (list Tile.t).
Hypothesis Hg : gridShape tiles.

Lemma grid_getTile tile :
  tile ∈ mjoin tiles → getTile tiles (Tile.row tile) (Tile.col tile) = Ok tile.
Proof.
  intros (r & c & Hget)%elem_of_getTile.
  by destruct (grid_pos _ Hg _ _ _ Hget) as [-> ->].
Qed.

Lemma grid_posOf_inj u v :
  u ∈ mjoin tiles → v ∈ mjoin tiles → posOf u = posOf v → u = v.
Proof.
  intros Hu%grid_getTile Hv%grid_getTile [= Hr Hc].
  rewrite Hr, Hc in Hu. congruence.
Qed.

Lemma NoDup_grid : NoDup (mjoin tiles).
Proof.
  apply NoDup_alt. intros i j tile Hi Hj.
  pose proof (gridShape_rectangular _ Hg) as Hrect.
  apply (join_lookup_Some_same_length (width tiles)) in Hi
    as (r1 & l1 & c1 & Hr1 & Hc1 & ->); [|done].
  apply (join_lookup_Some_same_length (width tiles)) in Hj
    as (r2 & l2 & c2 & Hr2 & Hc2 & ->); [|done].
  destruct (grid_pos _ Hg r1 c1 tile) as [<- <-]; [apply getTile_Ok; eauto|].
  destruct (grid_pos _ Hg r2 c2 tile) as [<- <-]; [apply getTile_Ok; eauto|].
  done.
Qed.

Lemma visited_length (visited : list Tile.t) :
  NoDup visited → (∀ v, v ∈ visited → v ∈ mjoin tiles) →
  length visited ≤ length (mjoin tiles).
Proof. intros. by apply submseteq_length, NoDup_submseteq. Qed.

Lemma occupiedAt_posOf u :
  u ∈ mjoin tiles → occupied u → occupiedAt tiles (posOf u).
Proof. intros Hu Hocc. exists u. split; [by apply grid_getTile|done]. Qed.

Lemma occupiedAt_tile p :
  occupiedAt tiles p ↔ ∃ u, u ∈ mjoin tiles ∧ occupied u ∧ posOf u = p.
Proof.
  split.
  - intros (u & Hget & Hocc). exists u.
    split_and!; [by eapply getTile_elem_of|done|].
    destruct (grid_pos _ Hg _ _ _ Hget) as [Hr Hc]. unfold posOf.
    rewrite Hr, Hc. by destruct p.
  - intros (u & Hu & Hocc & <-). by apply occupiedAt_posOf.
Qed.

Lemma grid_bounds u :
  u ∈ mjoin tiles → Tile.row u < length tiles ∧ Tile.col u < width tiles.
Proof. intros Hu%grid_getTile. by eapply getTile_bounds. Qed.

Section Step.
Variable fuel : nat.
Variable start : Tile.t.
Variable visited1 : list Tile.t.
Hypothesis Hstart : start ∈ mjoin tiles.
Hypothesis Hstart_occ : occupied start.
Hypothesis IH : ∀ u visited,
  u ∈ mjoin tiles → occupied u → u ∉ visited → NoDup visited →
  (∀ v, v ∈ visited → v ∈ mjoin tiles ∧ occupied v) →
  length (mjoin tiles) - length visited ≤ fuel →
  ∃ visited',
    markTilesDFS tiles (length tiles) (width tiles) fuel (Some u) visited
    = Ok visited'
    ∧ dfsPost tiles u visited visited'.

Lemma visitNeighbour_spec r c u visited :
  getTile tiles r c = Ok u → adjacent (posOf start) (r, c) →
  dfsPost tiles start visited1 visited →
  length (mjoin tiles) - length visited ≤ fuel →
  ∃ visited',
    visitNeighbour tiles
      (markTilesDFS tiles (length tiles) (width tiles) fuel) r c visited
    = Ok visited'
    ∧ dfsPost tiles start visited1 visited'
    ∧ length (mjoin tiles) - length visited' ≤ fuel
    ∧ (∀ v, v ∈ visited → v ∈ visited')
    ∧ (occupied u → u ∈ visited').
Proof.
  intros Hget Hadj Hpost Hfuel. unfold visitNeighbour. rewrite Hget.
  cbn [bind]. unfold has.
  pose proof (getTile_elem_of _ _ _ _ Hget) as Hu.
  assert (posOf u = (r, c)) as Hpos.
  { destruct (grid_pos _ Hg _ _ _ Hget) as [Hr Hc]. unfold posOf. by rewrite Hr, Hc. }
  destruct (decide (occupied u)) as [Hocc|Hfree];
    [destruct (decide (u ∈ visited)) as [Hin|Hnotin]|].
  - rewrite bool_decide_true by done. rewrite (bool_decide_true (u ∈ visited)) by done.
    simpl. exists visited. by split_and!.
  - rewrite bool_decide_true by done. rewrite (bool_decide_false (u ∈ visited)) by done.
    simpl. destruct Hpost as [HND Hself Hgrid Hmono Hnew].
    destruct (IH u visited) as (visited' & -> & Hpost'); try done.
    destruct Hpost' as [HND' Hself' Hgrid' Hmono' Hnew'].
    exists visited'. split; [done|].
    assert (length visited ≤ length visited') as Hlen.
    { by apply submseteq_length, NoDup_submseteq. }
    split_and!; [|lia|done..].
    split; [done|by auto|done|by auto|].
    intros v Hv Hv1. destruct (decide (v ∈ visited)) as [Hold|Hnew''].
    + destruct (Hnew v Hold Hv1) as [Hconn Hclosed].
      split; [done|]. intros w Hw Hwocc Hwadj. apply Hmono'. eauto.
    + destruct (Hnew' v Hv Hnew'') as [Hconn Hclosed].
      split; [|done]. eapply connected_trans; [|exact Hconn].
      eapply connected_step.
      * apply connected_refl. by apply occupiedAt_posOf.
      * by rewrite Hpos.
      * by apply occupiedAt_posOf.
  - rewrite bool_decide_false by done. simpl. exists visited. by split_and!.
Qed.

Lemma guarded_spec (guard : bool) r c visited :
  (guard = true →
   adjacent (posOf start) (r, c) ∧ ∃ u, getTile tiles r c = Ok u) →
  dfsPost tiles start visited1 visited →
  length (mjoin tiles) - length visited ≤ fuel →
  ∃ visited',
    (if guard
     then visitNeighbour tiles
            (markTilesDFS tiles (length tiles) (width tiles) fuel) r c visited
     else Ok visited) = Ok visited'
    ∧ dfsPost tiles start visited1 visited'
    ∧ length (mjoin tiles) - length visited' ≤ fuel
    ∧ (∀ v, v ∈ visited → v ∈ visited')
    ∧ (guard = true →
       ∀ w, w ∈ mjoin tiles → occupied w → posOf w = (r, c) → w ∈ visited').
Proof.
  intros Hguard Hpost Hfuel. destruct guard.
  - destruct Hguard as [Hadj [u Hget]]; [done|].
    destruct (visitNeighbour_spec r c u visited)
      as (visited' & Heq & Hpost' & Hfuel' & Hmono & Hu); try done.
    exists visited'. split_and!; try done.
    intros _ w Hw Hwocc Hwpos. apply grid_getTile in Hw.
    injection Hwpos as Hr Hc. rewrite Hr, Hc in Hw.
    assert (w = u) as -> by congruence. auto.
  - exists visited. by split_and!.
Qed.
End Step.

Lemma markTilesDFS_spec fuel : ∀ u visited,
  u ∈ mjoin tiles → occupied u → u ∉ visited → NoDup visited →
  (∀ v, v ∈ visited → v ∈ mjoin tiles ∧ occupied v) →
  length (mjoin tiles) - length visited ≤ fuel →
  ∃ visited',
    markTilesDFS tiles (length tiles) (width tiles) fuel (Some u) visited
    = Ok visited'
    ∧ dfsPost tiles u visited visited'.
Proof.
  induction fuel as [|fuel IH]; intros u visited Hu Hocc Hnotin HND Hgrid Hfuel.
  { exfalso. assert (length (u :: visited) ≤ length (mjoin tiles)) as Hlen.
    { apply visited_length; [by constructor|].
      intros v [->|Hv]%elem_of_cons; [done|]. by apply Hgrid. }
    simpl in Hlen. lia. }
  cbn [markTilesDFS]. unfold add, has. rewrite !bool_decide_false by done.
  set (visited1 := u :: visited).
  assert (length visited1 ≤ length (mjoin tiles)) as Hlen.
  { apply visited_length; [by constructor|].
    intros v [->|Hv]%elem_of_cons; [done|]. by apply Hgrid. }
  assert (dfsPost tiles u visited1 visited1) as Hpost1.
  { split; [by constructor|by left| |done|done].
    intros v [->|Hv]%elem_of_cons; [done|]. by apply Hgrid. }
  assert (length (mjoin tiles) - length visited1 ≤ fuel) as Hfuel1.
  { subst visited1. simpl in *. lia. }
  destruct (grid_bounds u Hu) as [Hrow Hcol].
  destruct (guarded_spec fuel u visited1 Hu Hocc IH
              (bool_decide (0 < Tile.row u)) (Tile.row u - 1) (Tile.col u)
              visited1) as (visited2 & -> & Hpost2 & Hfuel2 & Hmono2 & Hup);
    [|done..|].
  { intros Hguard%bool_decide_eq_true. split.
    - right. simpl. split; [done|]. left. lia.
    - apply gridShape_getTile; [done|lia|done]. }
  cbn [bind].
  destruct (guarded_spec fuel u visited1 Hu Hocc IH
              (bool_decide (0 < Tile.col u)) (Tile.row u) (Tile.col u - 1)
              visited2) as (visited3 & -> & Hpost3 & Hfuel3 & Hmono3 & Hleft);
    [|done..|].
  { intros Hguard%bool_decide_eq_true. split.
    - left. simpl. split; [done|]. left. lia.
    - apply gridShape_getTile; [done|done|lia]. }
  cbn [bind].
  destruct (guarded_spec fuel u visited1 Hu Hocc IH
              (bool_decide (Tile.row u < length tiles - 1))
              (Tile.row u + 1) (Tile.col u)
              visited3) as (visited4 & -> & Hpost4 & Hfuel4 & Hmono4 & Hdown);
    [|done..|].
  { intros Hguard%bool_decide_eq_true. split.
    - right. simpl. split; [done|]. right. lia.
    - apply gridShape_getTile; [done|lia|done]. }
  cbn [bind].
  destruct (guarded_spec fuel u visited1 Hu Hocc IH
              (bool_decide (Tile.col u < width tiles - 1))
              (Tile.row u) (Tile.col u + 1)
              visited4) as (visited5 & -> & Hpost5 & Hfuel5 & Hmono5 & Hright);
    [|done..|].
  { intros Hguard%bool_decide_eq_true. split.
    - left. simpl. split; [done|]. right. lia.
    - apply gridShape_getTile; [done|done|lia]. }
  cbn [bind]. exists visited5. split; [done|].
  destruct Hpost5 as [HND5 Hself5 Hgrid5 Hmono Hnew5].
  split; [done|done|done| |].
  { intros v Hv. apply Hmono. by right. }
  intros v Hv Hnew. destruct (decide (v = u)) as [->|Hne].
  - split; [by apply connected_refl, occupiedAt_posOf|].
    intros w Hw Hwocc Hadj. destruct (grid_bounds w Hw) as [Hwrow Hwcol].
    unfold adjacent, posOf in Hadj. simpl in Hadj.
    destruct Hadj as [[Hr [Hc|Hc]]|[Hc [Hr|Hr]]].
    + apply Hmono5, Hmono4, Hleft; [apply bool_decide_eq_true; lia|done..|].
      unfold posOf. f_equal; lia.
    + apply Hright; [apply bool_decide_eq_true; lia|done..|].
      unfold posOf. f_equal; lia.
    + apply Hmono5, Hmono4, Hmono3, Hup; [apply bool_decide_eq_true; lia|done..|].
      unfold posOf. f_equal; lia.
    + apply Hmono5, Hdown; [apply bool_decide_eq_true; lia|done..|].
      unfold posOf. f_equal; lia.
  - apply Hnew5; [done|]. intros [->|?]%elem_of_cons; done.
Qed.
End DFS.

(** ** The starting tile *)

Lemma findInRow_Some row s :
  findInRow row = Some s →
  ∃ c, row !! c = Some s ∧ occupied s
       ∧ ∀ c' tile, c' < c → row !! c' = Some tile → ¬ occupied tile.
Proof.
  induction row as [|tile row IH]; [done|]. simpl.
  destruct (Tile.letter tile) eqn:Hletter.
  - intros [= <-]. exists 0. split_and!; [done|unfold occupied; congruence|lia].
  - intros (c & Hc & Hocc & Hmin)%IH. exists (S c). split_and!; [done..|].
    intros [|c'] t Hlt; simpl.
    + intros [= <-]. unfold occupied. congruence.
    + apply Hmin. lia.
Qed.

Lemma findInRow_None row tile :
  findInRow row = None → tile ∈ row → ¬ occupied tile.
Proof.
  induction row as [|tile' row IH]; simpl; [by intros _ ?%elem_of_nil|].
  destruct (Tile.letter tile') eqn:Hletter; [done|].
  intros Hnone [->|Hin]%elem_of_cons; [|by apply IH].
  unfold occupied. congruence.
Qed.

Lemma findAnyTile_Some tiles s :
  findAnyTile tiles = Some s →
  ∃ r c, getTile tiles r c = Ok s ∧ occupied s
         ∧ ∀ r' c' tile, getTile tiles r' c' = Ok tile → occupied tile →
             rowMajorLe (r, c) (r', c').
Proof.
  induction tiles as [|row tiles IH]; [done|]. simpl.
  destruct (findInRow row) as [s'|] eqn:Hrow.
  - intros [= ->]. apply findInRow_Some in Hrow as (c & Hc & Hocc & Hmin).
    exists 0, c. split_and!; [by apply getTile_Ok; eauto|done|].
    intros [|r'] c' tile Hget Htile; [|left; simpl; lia].
    right. simpl. split; [done|].
    apply getTile_Ok in Hget as (line & [= <-] & Hc').
    destruct (decide (c ≤ c')); [done|]. exfalso.
    eapply (Hmin c' tile); [lia|done..].
  - intros (r & c & Hget & Hocc & Hmin)%IH. exists (S r), c.
    split_and!; [by apply getTile_Ok in Hget; apply getTile_Ok|done|].
    intros [|r'] c' tile Hget' Htile.
    + exfalso. apply getTile_Ok in Hget' as (line & [= <-] & Hc').
      eapply findInRow_None; eauto using list_elem_of_lookup_2.
    + destruct (Hmin r' c' tile) as [?|[? ?]]; [by apply getTile_Ok in Hget';
        apply getTile_Ok|done| |]; unfold rowMajorLe in *; simpl in *; [left|right]; lia.
Qed.

Lemma findAnyTile_None tiles tile :
  findAnyTile tiles = None → tile ∈ mjoin tiles → ¬ occupied tile.
Proof.
  induction tiles as [|row tiles IH]; simpl; [by intros _ ?%elem_of_nil|].
  destruct (findInRow row) eqn:Hrow; [done|].
  intros Hnone [Hin|Hin]%elem_of_app; [by eapply findInRow_None|by apply IH].
Qed.

(** ** Counting the letters *)

Lemma join_fmap_fmap {A B} (f : A → B) (ls : list (list A)) :
  mjoin ((λ l : list A, f <$> l) <$> ls) = f <$> mjoin ls.
Proof.
  induction ls as [|l ls IH]; [done|]. csimpl. by rewrite fmap_app, IH.
Qed.

Lemma omap_id_fmap {A B} (f : A → option B) (l : list A) :
  omap id (f <$> l) = omap f l.
Proof.
  induction l as [|x l IH]; [done|]. csimpl. rewrite IH. by destruct (f x).
Qed.

Lemma length_omap_letter (l : list Tile.t) :
  length (omap Tile.letter l) = length (filter occupied l).
Proof.
  induction l as [|tile l IH]; [done|]. csimpl. rewrite filter_cons.
  destruct (decide (occupied tile)) as [Hocc|Hfree]; unfold occupied in *.
  - destruct (Tile.letter tile); [|done]. simpl. by rewrite IH.
  - destruct (Tile.letter tile); [|done]. by destruct Hfree.
Qed.

Lemma countFilledTiles_unshared tiles :
  lettersUnshared tiles →
  countFilledTiles tiles = length (filter occupied (mjoin tiles)).
Proof.
  intros Hu. unfold countFilledTiles.
  rewrite join_fmap_fmap, omap_id_fmap, size_list_to_set by done.
  by rewrite length_fmap, length_omap_letter.
Qed.

(** ** The result of the check *)

Section Island.
Variable tiles : list (list Tile.t).
Hypothesis Hg : gridShape tiles.

Lemma dfsPost_connected s visited q :
  dfsPost tiles s [] visited →
  connected tiles (posOf s) q →
  ∀ u, u ∈ mjoin tiles → posOf u = q → u ∈ visited.
Proof.
  intros [HND Hself Hgrid Hmono Hnew] Hconn.
  assert (s ∈ mjoin tiles) as Hs by by apply Hgrid.
  remember (posOf s) as p eqn:Hp.
  induction Hconn as [p Hocc|p q q' Hpq IH Hadj Hocc]; intros u Hu Hpos.
  - subst p. by rewrite (grid_posOf_inj tiles Hg u s).
  - apply connected_occupiedAt, occupiedAt_tile in Hpq
      as (v & Hv & Hvocc & Hvpos); [|done].
    apply occupiedAt_tile in Hocc as (u' & Hu' & Huocc & Hupos); [|done].
    assert (u' = u) as -> by (apply (grid_posOf_inj tiles Hg); congruence).
    destruct (Hnew v) as [_ Hclosed]; [by apply IH|by intros ?%elem_of_nil|].
    apply Hclosed; [done..|congruence].
Qed.

Lemma firstOccupied_unique p q :
  firstOccupied tiles p → firstOccupied tiles q → p = q.
Proof.
  intros [Hp Hpmin] [Hq Hqmin]. specialize (Hpmin q Hq). specialize (Hqmin p Hp).
  unfold rowMajorLe in *. destruct p, q; simpl in *. f_equal; lia.
Qed.

Lemma validateWordIsland_spec {Cursor} (board : Board.t Cursor) :
  Board.tiles board = tiles → lettersUnshared tiles →
  ∃ v, validateWordIsland board = Ok v
       ∧ (v = true ↔
          ∃ s, firstOccupied tiles s
               ∧ ∀ q, occupiedAt tiles q → connected tiles s q).
Proof.
  intros Hb Hu. unfold validateWordIsland. rewrite Hb.
  rewrite firstRowLength_width by apply Hg. cbn [bind].
  destruct (findAnyTile tiles) as [s|] eqn:Hfind.
  - apply findAnyTile_Some in Hfind as (r & c & Hget & Hocc & Hmin).
    pose proof (getTile_elem_of _ _ _ _ Hget) as Hs.
    assert (posOf s = (r, c)) as Hpos.
    { destruct (grid_pos _ Hg _ _ _ Hget) as [Hr Hc]. unfold posOf.
      by rewrite Hr, Hc. }
    assert (firstOccupied tiles (posOf s)) as Hfirst.
    { split; [by apply occupiedAt_posOf|].
      intros [r' c'] (tile & Hget' & Htile). rewrite Hpos. eauto. }
    destruct (markTilesDFS_spec tiles Hg (S (length (mjoin tiles))) s [])
      as (visited & -> & Hpost); [done|done|by intros ?%elem_of_nil|constructor| |simpl; lia|].
    { by intros v ?%elem_of_nil. }
    cbn [bind]. eexists. split; [done|].
    rewrite countFilledTiles_unshared by done.
    rewrite bool_decide_eq_true.
    pose proof Hpost as [HND Hself Hgrid Hmono Hnew].
    assert (visited ⊆+ filter occupied (mjoin tiles)) as Hsub.
    { apply NoDup_submseteq; [done|]. intros v Hv.
      apply list_elem_of_filter. split; by apply Hgrid. }
    split.
    + intros Hlen. exists (posOf s). split; [done|].
      intros q (u & Hu' & Huocc & <-)%occupiedAt_tile; [|done].
      apply Hnew; [|by intros ?%elem_of_nil].
      apply submseteq_length_Permutation in Hsub; [|lia].
      rewrite Hsub. by apply list_elem_of_filter.
    + intros (s' & Hfirst' & Hall).
      rewrite (firstOccupied_unique _ _ Hfirst' Hfirst) in Hall.
      apply Permutation_length, NoDup_Permutation;
        [done|by apply NoDup_filter, NoDup_grid|].
      intros v. split; [intros Hv; apply list_elem_of_filter; split; by apply Hgrid|].
      intros [Hvocc Hv]%list_elem_of_filter.
      eapply dfsPost_connected; [done| |done..].
      by apply Hall, occupiedAt_posOf.
  - exists false. split; [done|]. split; [done|].
    intros (s & [(tile & Hget & Hocc) _] & _). exfalso.
    eapply findAnyTile_None; eauto using getTile_elem_of.
Qed.
End Island.

(** * Further facts for the properties *)

Lemma firstOccupied_exists tiles p :
  gridShape tiles → occupiedAt tiles p → ∃ s, firstOccupied tiles s.
Proof.
  intros Hg (tile & Hget & Hocc).
  destruct (findAnyTile tiles) as [s|] eqn:Hfind.
  - apply findAnyTile_Some in Hfind as (r & c & Hs & Hsocc & Hmin).
    exists (r, c). split; [by exists s|].
    intros [r' c'] (tile' & Hget' & Hocc'). eauto.
  - exfalso. eapply findAnyTile_None; eauto using getTile_elem_of.
Qed.

Lemma filter_ext_in {A} (P1 P2 : A → Prop)
    `{!∀ x, Decision (P1 x), !∀ x, Decision (P2 x)} (l : list A) :
  (∀ x, x ∈ l → P1 x ↔ P2 x) → filter P1 l = filter P2 l.
Proof.
  induction l as [|a l IH]; intros Hiff; [done|].
  rewrite !filter_cons. rewrite IH by (intros; apply Hiff; by right).
  destruct (decide (P1 a)) as [H1|H1], (decide (P2 a)) as [H2|H2]; try done;
    exfalso; apply (Hiff a) in H1 || apply (Hiff a) in H2; try done; left.
Qed.

Lemma join_fmap_filter {A B} (f : A → B) (P : A → Prop)
    `{!∀ x, Decision (P x)} (ls : list (list A)) :
  mjoin ((λ l : list A, f <$> filter P l) <$> ls) = f <$> filter P (mjoin ls).
Proof.
  induction ls as [|l ls IH]; [done|]. csimpl.
  by rewrite filter_app, fmap_app, IH.
Qed.

Lemma resetGrid_ids tiles tiles' :
  resetGrid tiles' = resetGrid tiles →
  Tile.id <$> mjoin tiles' = Tile.id <$> mjoin tiles.
Proof.
  intros Heq.
  assert (∀ ts, Tile.id <$> mjoin (resetGrid ts) = Tile.id <$> mjoin ts) as Hid.
  { intros ts. unfold resetGrid. rewrite join_fmap_fmap, <-list_fmap_compose.
    by apply list_fmap_ext. }
  by rewrite <-(Hid tiles'), Heq, Hid.
Qed.

Lemma elem_of_mapGrid g tiles tile :
  tile ∈ mjoin (mapGrid g tiles) →
  ∃ r c tile0, getTile tiles r c = Ok tile0 ∧ tile = g r c tile0.
Proof.
  intros (r & c & Hget)%elem_of_getTile. rewrite getTile_mapGrid in Hget.
  destruct (getTile tiles r c) as [tile0|] eqn:E; [|done].
  injection Hget as <-. eauto.
Qed.

(** A write outside the grid throws. *)
Lemma writeState_out_of_range f tiles r c :
  length tiles ≤ r → writeState f tiles r c = Err TypeError.
Proof. intros Hr. unfold writeState. by rewrite lookup_ge_None_2. Qed.

(** Two occupied tiles next to each other in a line. *)
Lemma maximalRun_adjacent (line pre run post : list Tile.t) :
  maximalRun line pre run post → 2 ≤ length run →
  ∃ t1 t2, line !! length pre = Some t1 ∧ line !! S (length pre) = Some t2
           ∧ occupied t1 ∧ occupied t2.
Proof.
  intros [-> Hrun _ _] Hlen. destruct run as [|t1 [|t2 run]]; simpl in Hlen; try lia.
  exists t1, t2. apply Forall_cons in Hrun as [H1 Hrun].
  apply Forall_cons in Hrun as [H2 _]. split_and!; [| |done..].
  - by rewrite lookup_app_r, Nat.sub_diag by lia.
  - rewrite lookup_app_r by lia. by replace (S (length pre) - length pre) with 1 by lia.
Qed.

Lemma no_runs_no_words tiles :
  gridShape tiles → singleCharacters tiles →
  (∀ p q, occupiedAt tiles p → occupiedAt tiles q → ¬ adjacent p q) →
  getWordsFromTilesLTR tiles = [] ∧ getWordsFromTilesTTB tiles = Ok [].
Proof.
  intros Hg Hs Hno. split.
  - destruct (getWordsFromTilesLTR tiles) as [|w ws] eqn:E; [done|]. exfalso.
    assert (w ∈ getWordsFromTilesLTR tiles) as Hw by (rewrite E; left).
    apply getWordsFromTilesLTR_elem_of in Hw
      as (r & line & pre & run & post & Hr & Hmax & Hlen & _); [|done..].
    destruct (maximalRun_adjacent _ _ _ _ Hmax Hlen) as (t1 & t2 & H1 & H2 & Ho1 & Ho2).
    apply (Hno (r, length pre) (r, S (length pre))).
    + exists t1. split; [apply getTile_Ok; eauto|done].
    + exists t2. split; [apply getTile_Ok; eauto|done].
    + left. simpl. auto.
  - destruct (getWordsFromTilesTTB_elem_of tiles Hg Hs) as (ttb & Httb & Hiff).
    rewrite Httb. f_equal. destruct ttb as [|w ws]; [done|]. exfalso.
    destruct (Hiff w) as [Hw _].
    destruct Hw as (c & pre & run & post & Hc & Hmax & Hlen & _); [left|].
    destruct (maximalRun_adjacent _ _ _ _ Hmax Hlen) as (t1 & t2 & H1 & H2 & Ho1 & Ho2).
    apply column_getTile in H1, H2; [|done..].
    apply (Hno (length pre, c) (S (length pre), c)).
    + by exists t1.
    + by exists t2.
    + right. simpl. auto.
Qed.

(** * [validateBoard] with the tile objects in a store *)

Lemma allocRow_eq store row :
  allocRow store row = (store ++ row, seq (length store) (length row)).
Proof.
  revert store. induction row as [|tile row IH]; intros store; simpl.
  - by rewrite app_nil_r.
  - rewrite IH, length_app, <-app_assoc. simpl.
    by replace (length store + 1) with (S (length store)) by lia.
Qed.

Lemma allocGrid_eq store grid :
  allocGrid store grid = (store ++ mjoin grid, addresses (length store) grid).
Proof.
  revert store. induction grid as [|row grid IH]; intros store; simpl.
  - by rewrite app_nil_r.
  - rewrite allocRow_eq, IH, length_app, <-app_assoc. done.
Qed.

Lemma readRow_seq store0 row rest :
  readRow (store0 ++ row ++ rest) (seq (length store0) (length row)) = Ok row.
Proof.
  revert store0. induction row as [|tile row IH]; intros store0; [done|].
  cbn [length seq readRow].
  rewrite <-app_comm_cons, list_lookup_middle by done.
  specialize (IH (store0 ++ [tile])). rewrite length_app in IH. simpl in IH.
  replace (length store0 + 1) with (S (length store0)) in IH by lia.
  rewrite <-app_assoc in IH. simpl in IH. by rewrite IH.
Qed.

Lemma readGrid_addresses store0 grid :
  readGrid (store0 ++ mjoin grid) (addresses (length store0) grid) = Ok grid.
Proof.
  revert store0. induction grid as [|row grid IH]; intros store0; [done|].
  cbn [addresses readGrid]. change (mjoin (row :: grid)) with (row ++ mjoin grid).
  rewrite readRow_seq. cbn [bind].
  specialize (IH (store0 ++ row)). rewrite length_app, <-app_assoc in IH.
  by rewrite IH.
Qed.

Lemma readRow_frame store extra row tiles :
  readRow store row = Ok tiles → readRow (store ++ extra) row = Ok tiles.
Proof.
  revert tiles. induction row as [|ref row IH]; intros tiles; simpl; [done|].
  destruct (store !! ref) as [tile|] eqn:Href; [|done].
  rewrite (lookup_app_l_Some _ _ _ _ Href).
  destruct (readRow store row) as [tiles'|]; [|done]. simpl. intros [= <-].
  by rewrite (IH tiles').
Qed.

Lemma readGrid_frame store extra grid tiles :
  readGrid store grid = Ok tiles → readGrid (store ++ extra) grid = Ok tiles.
Proof.
  revert tiles. induction grid as [|row grid IH]; intros tiles; simpl; [done|].
  destruct (readRow store row) as [line|] eqn:Hrow; [|done].
  rewrite (readRow_frame _ extra _ _ Hrow). simpl.
  destruct (readGrid store grid) as [tiles'|]; [|done]. simpl. intros [= <-].
  by rewrite (IH tiles').
Qed.

Lemma lengths_resetGrid tiles : length <$> resetGrid tiles = length <$> tiles.
Proof.
  unfold resetGrid. rewrite <-list_fmap_compose. apply list_fmap_ext.
  intros _ row _. simpl. apply length_fmap.
Qed.

Lemma writeState_lengths f tiles r c tiles' :
  writeState f tiles r c = Ok tiles' → length <$> tiles' = length <$> tiles.
Proof.
  intros Heq%writeState_reset.
  by rewrite <-(lengths_resetGrid tiles'), Heq, lengths_resetGrid.
Qed.

Lemma addresses_lengths base (grid1 grid2 : list (list Tile.t)) :
  length <$> grid1 = length <$> grid2 → addresses base grid1 = addresses base grid2.
Proof.
  revert base grid2. induction grid1 as [|row1 grid1 IH];
    intros base [|row2 grid2]; simpl; try done.
  intros [= Hrow Hrest]. rewrite Hrow. f_equal. by apply IH.
Qed.

Lemma writeState_cons_S f row tiles r c :
  writeState f (row :: tiles) (S r) c
  = match writeState f tiles r c with
    | Ok tiles' => Ok (row :: tiles')
    | Err e => Err e
    end.
Proof.
  unfold writeState. simpl. destruct (tiles !! r) as [line|]; [|done].
  by destruct (line !! c).
Qed.

Lemma writeStateIn_cons_S f refs rest store r c :
  writeStateIn f (refs :: rest) store (S r) c = writeStateIn f rest store r c.
Proof. done. Qed.

Lemma writeStateIn_sim f tiles : ∀ store0 r c,
  writeStateIn f (addresses (length store0) tiles) (store0 ++ mjoin tiles) r c
  = match writeState f tiles r c with
    | Ok tiles' => Ok (store0 ++ mjoin tiles')
    | Err e => Err e
    end.
Proof.
  induction tiles as [|row tiles IH]; intros store0 r c; [done|].
  destruct r as [|r].
  - unfold writeStateIn, writeState. cbn [addresses lookup list_lookup].
    change (mjoin (row :: tiles)) with (row ++ mjoin tiles).
    destruct (row !! c) as [tile|] eqn:Hc.
    + pose proof (lookup_lt_Some _ _ _ Hc) as Hlt.
      rewrite lookup_seq_lt by done.
      rewrite lookup_app_r by lia.
      replace (length store0 + c - length store0) with c by lia.
      rewrite (lookup_app_l_Some _ _ _ _ Hc). f_equal.
      rewrite insert_app_r_alt by lia.
      replace (length store0 + c - length store0) with c by lia.
      by rewrite insert_app_l by done.
    + rewrite lookup_seq_ge; [done|]. by apply lookup_ge_None.
  - rewrite writeState_cons_S. specialize (IH (store0 ++ row) r c).
    rewrite length_app, <-app_assoc in IH.
    change (mjoin (row :: tiles)) with (row ++ mjoin tiles).
    cbn [addresses]. rewrite writeStateIn_cons_S, IH.
    destruct (writeState f tiles r c); [|done].
    by rewrite <-app_assoc.
Qed.

Lemma forOf_sim {A St1 St2} (R : St1 → St2 → Prop) (xs : list A)
    (body1 : A → St1 → result St1) (body2 : A → St2 → result St2) s t :
  (∀ x s t, R s t →
     match body2 x t with
     | Ok t' => ∃ s', body1 x s = Ok s' ∧ R s' t'
     | Err e => body1 x s = Err e
     end) →
  R s t →
  match forOf xs body2 t with
  | Ok t' => ∃ s', forOf xs body1 s = Ok s' ∧ R s' t'
  | Err e => forOf xs body1 s = Err e
  end.
Proof.
  intros Hbody. revert s t. induction xs as [|x xs IH]; intros s t HR; simpl.
  - eauto.
  - specialize (Hbody x s t HR). destruct (body2 x t) as [t'|e]; simpl.
    + destruct Hbody as (s' & -> & HR'). simpl. by apply IH.
    + by rewrite Hbody.
Qed.

Section Sim.
Variable f : TileState → TileState.
Variable store0 : list Tile.t.
Variable tiles0 : list (list Tile.t).

Lemma writeStateIn_holds store tiles r c :
  holds store0 (length <$> tiles0) store tiles →
  match writeState f tiles r c with
  | Ok tiles' =>
      ∃ store', writeStateIn f (addresses (length store0) tiles0) store r c
                = Ok store'
                ∧ holds store0 (length <$> tiles0) store' tiles'
  | Err e =>
      writeStateIn f (addresses (length store0) tiles0) store r c = Err e
  end.
Proof.
  intros [-> Hlens].
  rewrite <-(addresses_lengths _ tiles tiles0) by done.
  rewrite writeStateIn_sim.
  destruct (writeState f tiles r c) as [tiles'|] eqn:Hw; [|done].
  eexists. split; [done|]. split; [done|].
  by rewrite (writeState_lengths _ _ _ _ _ Hw).
Qed.

Lemma forTilesOfWordIn_holds gridBounds word store tiles :
  holds store0 (length <$> tiles0) store tiles →
  match forTilesOfWord f gridBounds word tiles with
  | Ok tiles' =>
      ∃ store',
        forTilesOfWordIn f gridBounds (addresses (length store0) tiles0) word store
        = Ok store'
        ∧ holds store0 (length <$> tiles0) store' tiles'
  | Err e =>
      forTilesOfWordIn f gridBounds (addresses (length store0) tiles0) word store
      = Err e
  end.
Proof.
  intros Hholds. unfold forTilesOfWord, forTilesOfWordIn, forRange.
  destruct (WordFromTile.direction word).
  - apply (forOf_sim (holds store0 (length <$> tiles0))); [|done].
    intros c s t Hst. by apply writeStateIn_holds.
  - apply (forOf_sim (holds store0 (length <$> tiles0))); [|done].
    intros r s t Hst.
    destruct (Z.of_nat (WordFromTile.row word + r) >? Z.of_nat gridBounds - 1)%Z;
      [eauto|by apply writeStateIn_holds].
Qed.
End Sim.

Lemma lengths_initTiles (tiles : list (list Tile.t)) :
  length <$> ((λ row : list Tile.t, initTile <$> row) <$> tiles) = length <$> tiles.
Proof.
  rewrite <-list_fmap_compose. apply list_fmap_ext. intros _ row _. simpl.
  apply length_fmap.
Qed.

Lemma readGrid_length store grid tiles :
  readGrid store grid = Ok tiles → length tiles = length grid.
Proof.
  revert tiles. induction grid as [|row grid IH]; intros tiles; simpl.
  - by intros [= <-].
  - destruct (readRow store row); [|done]. simpl.
    destruct (readGrid store grid) as [rest|]; [|done]. simpl. intros [= <-].
    simpl. f_equal. by apply IH.
Qed.

(** [validateBoardIn] does to the store what [validateBoard] computes on the
    values: it leaves the objects of the store as they are and adds the
    tiles of the returned board after them. *)
Lemma validateBoardIn_sim {Cursor} dictionary store (board : RefBoard.t Cursor) tiles :
  readGrid store (RefBoard.tiles board) = Ok tiles →
  match validateBoard dictionary (Board.mk (RefBoard.cursor board) tiles) with
  | Ok (board', v) =>
      validateBoardIn dictionary store board
      = Ok (store ++ mjoin (Board.tiles board'),
            RefBoard.mk (RefBoard.cursor board)
              (addresses (length store) (Board.tiles board')),
            v)
  | Err e => validateBoardIn dictionary store board = Err e
  end.
Proof.
  intros Hread. unfold validateBoard, validateBoardIn. rewrite Hread.
  cbn [bind Board.tiles Board.cursor].
  destruct (getWordsFromTilesTTB tiles) as [ttb|]; [|done]. cbn [bind].
  rewrite allocGrid_eq.
  set (init := (λ row : list Tile.t, initTile <$> row) <$> tiles).
  set (found := getWordsFromTilesLTR tiles ++ ttb).
  pose proof (forOf_sim (holds store (length <$> init))
                (filter (inDictionary dictionary) found)
                (forTilesOfWordIn markValid (length tiles)
                   (addresses (length store) init))
                (forTilesOfWord markValid (length tiles))
                (store ++ mjoin init) init) as HA.
  destruct (forOf (filter (inDictionary dictionary) found)
              (forTilesOfWord markValid (length tiles)) init) as [tilesA|] eqn:EA.
  - destruct HA as (storeA & -> & HholdsA);
      [intros; by apply forTilesOfWordIn_holds|done|].
    cbn [bind].
    pose proof (forOf_sim (holds store (length <$> init))
                  (filter (λ w, ¬ inDictionary dictionary w) found)
                  (forTilesOfWordIn markMixed (length tiles)
                     (addresses (length store) init))
                  (forTilesOfWord markMixed (length tiles))
                  storeA tilesA) as HB.
    destruct (forOf (filter (λ w, ¬ inDictionary dictionary w) found)
                (forTilesOfWord markMixed (length tiles)) tilesA)
      as [tilesB|] eqn:EB.
    + destruct HB as (storeB & -> & [-> HlensB]);
        [intros; by apply forTilesOfWordIn_holds|done|].
      cbn [bind Board.tiles].
      by rewrite (addresses_lengths (length store) tilesB init).
    + rewrite HB; [done|intros; by apply forTilesOfWordIn_holds|done].
  - rewrite HA; [done|intros; by apply forTilesOfWordIn_holds|done].
Qed.

(** * Further properties of the solver *)

(** ** Counting with sets *)

Lemma size_list_to_set_le `{Countable K} (l : list K) :
  size (list_to_set (C := gset K) l) ≤ length l
  ∧ (size (list_to_set (C := gset K) l) = length l → NoDup l).
Proof.
  induction l as [|x l [IHle IHeq]]; [split; [done|constructor]|].
  rewrite list_to_set_cons. simpl. destruct (decide (x ∈ l)) as [Hin|Hnotin].
  - assert ({[x]} ∪ list_to_set l =@{gset K} list_to_set l) as ->
      by (by apply subseteq_union_1_L, singleton_subseteq_l, elem_of_list_to_set).
    split; lia.
  - rewrite size_union, size_singleton by set_solver. split; [lia|].
    intros Heq. constructor; [done|]. apply IHeq. lia.
Qed.

Lemma size_list_to_set_NoDup `{Countable K} (l : list K) :
  size (list_to_set (C := gset K) l) = length l ↔ NoDup l.
Proof. split; [apply size_list_to_set_le|apply size_list_to_set]. Qed.

Lemma letterless_filter (l : list Tile.t) :
  filter occupied l = [] ↔ ∀ tile, tile ∈ l → Tile.letter tile = None.
Proof.
  split.
  - intros Hnil tile Htile. destruct (Tile.letter tile) eqn:E; [|done]. exfalso.
    assert (tile ∈ filter occupied l) as Hin.
    { apply list_elem_of_filter. split; [|done]. unfold occupied. congruence. }
    rewrite Hnil in Hin. by apply elem_of_nil in Hin.
  - intros Hall. induction l as [|tile l IH]; [done|].
    rewrite filter_cons, decide_False.
    + apply IH. intros. apply Hall. by right.
    + unfold occupied. rewrite Hall by left. by intros [].
Qed.

(** ** Loops that throw *)

Lemma forOf_throws {A St} (xs : list A) (body : A → St → result St) s x :
  x ∈ xs →
  (∀ s, body x s = Err TypeError) →
  (∀ y s e, body y s = Err e → e = TypeError) →
  forOf xs body s = Err TypeError.
Proof.
  intros Hx Hfail Honly. revert s.
  induction xs as [|y xs IH]; intros s; [by apply elem_of_nil in Hx|].
  simpl. apply elem_of_cons in Hx as [<-|Hx]; [by rewrite Hfail|].
  destruct (body y s) as [s'|e] eqn:E; simpl; [by apply IH|].
  by rewrite (Honly _ _ _ E).
Qed.

Lemma getTile_Err tiles r c e : getTile tiles r c = Err e → e = TypeError.
Proof.
  unfold getTile. destruct (tiles !! r) as [line|]; [|by intros [= <-]].
  destruct (line !! c); [done|by intros [= <-]].
Qed.

Lemma writeState_Err f tiles r c e : writeState f tiles r c = Err e → e = TypeError.
Proof.
  unfold writeState. destruct (tiles !! r) as [line|]; [|by intros [= <-]].
  destruct (line !! c); [done|by intros [= <-]].
Qed.

Lemma getWordsFromTilesTTB_jagged tiles r line :
  tiles !! r = Some line → length line < width tiles →
  getWordsFromTilesTTB tiles = Err TypeError.
Proof.
  intros Hr Hlen. unfold getWordsFromTilesTTB.
  rewrite firstRowLength_width by (by destruct tiles). cbn [bind]. unfold forRange.
  rewrite (forOf_throws _ _ _ (length line)); [done| | |].
  - apply elem_of_seq. lia.
  - intros words.
    rewrite (forOf_throws _ _ _ r); [done| | |].
    + apply elem_of_seq. split; [lia|]. simpl. by eapply lookup_lt_Some.
    + intros st. unfold getTile. rewrite Hr.
      by rewrite lookup_ge_None_2.
    + intros y st e. destruct (getTile tiles y (length line)) eqn:E; [done|].
      simpl. intros [= <-]. by eapply getTile_Err.
  - intros c words e.
    destruct (forOf _ _ _) as [st|e'] eqn:E; [done|]. simpl. intros [= <-].
    clear Hr Hlen. revert E. generalize (words, @None WordFromTile.t).
    induction (seq 0 (length tiles)) as [|y ys IH]; intros st; simpl; [done|].
    destruct (getTile tiles y c) eqn:Hget; simpl.
    + apply IH.
    + intros [= <-]. by eapply getTile_Err.
Qed.

(** ** Words, whatever the grid *)

Lemma toLowerCaseChar_idempotent a :
  toLowerCaseChar (toLowerCaseChar a) = toLowerCaseChar a.
Proof. by destruct a as [[] [] [] [] [] [] [] []]. Qed.

Lemma toLowerCase_idempotent s : toLowerCase (toLowerCase s) = toLowerCase s.
Proof.
  induction s as [|a s IH]; [done|]. simpl.
  by rewrite toLowerCaseChar_idempotent, IH.
Qed.

Lemma scanTile_direction direction tile st :
  Forall (λ w, WordFromTile.direction w = direction) st.1 →
  (∀ w, st.2 = Some w → WordFromTile.direction w = direction) →
  Forall (λ w, WordFromTile.direction w = direction)
    (scanTile direction tile st).1
  ∧ ∀ w, (scanTile direction tile st).2 = Some w →
         WordFromTile.direction w = direction.
Proof.
  destruct st as [words [current|]]; simpl; intros Hwords Hcur;
    destruct (truthy (charOf tile)); simpl; split; try done.
  - intros w [= <-]. simpl. by apply Hcur.
  - apply Forall_app. split; [done|]. repeat constructor. by apply Hcur.
  - by intros w [= <-].
Qed.

Lemma flush_direction direction st :
  Forall (λ w, WordFromTile.direction w = direction) st.1 →
  (∀ w, st.2 = Some w → WordFromTile.direction w = direction) →
  Forall (λ w, WordFromTile.direction w = direction) (flush st).
Proof.
  destruct st as [words [current|]]; simpl; intros Hwords Hcur; [|done].
  apply Forall_app. split; [done|]. repeat constructor. by apply Hcur.
Qed.

Lemma finishWords_facts ws w :
  w ∈ finishWords ws →
  1 < String.length (WordFromTile.word w)
  ∧ toLowerCase (WordFromTile.word w) = WordFromTile.word w
  ∧ ∃ w0, w0 ∈ ws ∧ WordFromTile.direction w = WordFromTile.direction w0
          ∧ WordFromTile.row w = WordFromTile.row w0
          ∧ WordFromTile.col w = WordFromTile.col w0.
Proof.
  intros (w0 & Hw0 & Hlen & ->)%elem_of_finishWords. simpl.
  rewrite toLowerCase_length, toLowerCase_idempotent. eauto 10.
Qed.

Lemma getWordsFromTilesLTR_direction tiles w :
  w ∈ getWordsFromTilesLTR tiles → WordFromTile.direction w = LeftToRight.
Proof.
  intros (_ & _ & w0 & Hw0 & -> & _)%finishWords_facts.
  apply list_elem_of_join in Hw0 as (ws & Hw0 & (row & -> & _)%list_elem_of_fmap).
  revert Hw0. generalize w0. apply Forall_forall.
  assert (∀ st,
            Forall (λ w, WordFromTile.direction w = LeftToRight) st.1 →
            (∀ w, st.2 = Some w → WordFromTile.direction w = LeftToRight) →
            Forall (λ w, WordFromTile.direction w = LeftToRight)
              (flush (foldl (λ st tile, scanTile LeftToRight tile st) st row)))
    as Hrow.
  { induction row as [|tile row IH]; intros st H1 H2; simpl.
    - by apply flush_direction.
    - destruct (scanTile_direction LeftToRight tile st H1 H2). by apply IH. }
  by apply Hrow.
Qed.

Lemma getWordsFromTilesTTB_direction tiles ttb w :
  getWordsFromTilesTTB tiles = Ok ttb → w ∈ ttb →
  WordFromTile.direction w = TopToBottom.
Proof.
  unfold getWordsFromTilesTTB.
  intros (cols & _ & (words & Hwords & [= <-])%bind_Ok)%bind_Ok
         (_ & _ & w0 & Hw0 & -> & _)%finishWords_facts.
  revert Hw0. generalize w0. apply Forall_forall.
  revert Hwords. unfold forRange.
  apply (forOf_preserves (Forall (λ w, WordFromTile.direction w = TopToBottom)));
    [|constructor].
  intros c ws ws' Hws (st & Hst & [= <-])%bind_Ok.
  revert Hst.
  pose (P := λ st : list WordFromTile.t * option WordFromTile.t,
          Forall (λ w, WordFromTile.direction w = TopToBottom) st.1
          ∧ ∀ w, st.2 = Some w → WordFromTile.direction w = TopToBottom).
  intros Hst. apply (forOf_preserves P) in Hst.
  - destruct Hst. by apply flush_direction.
  - intros r s s' [H1 H2] (tile & _ & [= <-])%bind_Ok.
    by apply scanTile_direction.
  - by split.
Qed.

(** ** The tiles reached by the connectivity check *)

Lemma validateWordIsland_component {Cursor} (board : Board.t Cursor) s :
  gridShape (Board.tiles board) → findAnyTile (Board.tiles board) = Some s →
  ∃ visited,
    component (Board.tiles board) (posOf s) visited
    ∧ validateWordIsland board
      = Ok (bool_decide (length visited = countLettersOnBoard board)).
Proof.
  intros Hg Hfind. unfold validateWordIsland, countLettersOnBoard.
  rewrite firstRowLength_width by apply Hg. cbn [bind]. rewrite Hfind.
  apply findAnyTile_Some in Hfind as (r & c & Hget & Hocc & _).
  pose proof (getTile_elem_of _ _ _ _ Hget) as Hs.
  destruct (markTilesDFS_spec (Board.tiles board) Hg
              (S (length (mjoin (Board.tiles board)))) s [])
    as (visited & -> & Hpost);
    [done|done|by intros ?%elem_of_nil|constructor| |simpl; lia|].
  { by intros v ?%elem_of_nil. }
  cbn [bind]. exists visited. split; [|done].
  pose proof Hpost as [HND Hself Hgrid Hmono Hnew]. split; [done|].
  intros tile. split.
  - intros Htile. split; [by apply Hgrid|]. apply Hnew; [done|].
    by intros ?%elem_of_nil.
  - intros [Htile Hconn]. by eapply dfsPost_connected.
Qed.

(** ** The dictionary entries that matter *)

Lemma validateBoard_dictionary_ext {Cursor} (d1 d2 : gset string)
    (board : Board.t Cursor) :
  (∀ ttb w, getWordsFromTilesTTB (Board.tiles board) = Ok ttb →
            w ∈ getWordsFromTilesLTR (Board.tiles board) ++ ttb →
            inDictionary d1 w ↔ inDictionary d2 w) →
  validateBoard d1 board = validateBoard d2 board.
Proof.
  intros Hiff. unfold validateBoard.
  destruct (getWordsFromTilesTTB (Board.tiles board)) as [ttb|] eqn:Httb; [|done].
  cbn [bind]. specialize (Hiff ttb).
  set (found := getWordsFromTilesLTR (Board.tiles board) ++ ttb) in *.
  assert (filter (inDictionary d1) found = filter (inDictionary d2) found) as ->.
  { apply filter_ext_in. intros w Hw. by apply Hiff. }
  assert (filter (λ w, ¬ inDictionary d1 w) found
          = filter (λ w, ¬ inDictionary d2 w) found) as ->.
  { apply filter_ext_in. intros w Hw. by rewrite (Hiff w). }
  assert (forallb (λ w, bool_decide (inDictionary d1 w)) found
          = forallb (λ w, bool_decide (inDictionary d2 w)) found) as ->; [|done].
  assert (∀ w, w ∈ found → bool_decide (inDictionary d1 w)
                           = bool_decide (inDictionary d2 w)) as Hb.
  { intros w Hw. apply bool_decide_ext. by apply Hiff. }
  clear Hiff. induction found as [|w found IH]; [done|]. simpl.
  rewrite Hb by left. f_equal. apply IH. intros. apply Hb. by right.
Qed.

(** * The states of the returned board *)

Section States.
Variable dictionary : gset string.
Variable tiles : list (list Tile.t).
Variable ttb : list WordFromTile.t.
Hypothesis Hg : gridShape tiles.
Hypothesis Hs : singleCharacters tiles.
Hypothesis Httb : getWordsFromTilesTTB tiles = Ok ttb.

Lemma covered_occupied r c tile :
  covered (getWordsFromTilesLTR tiles ++ ttb) r c →
  getTile tiles r c = Ok tile → occupied tile.
Proof.
  intros (w & Hw & Hsp)%Exists_exists Hget.
  destruct (found_spans _ _ _ _ _ Hg Hs Httb Hw Hsp) as (tile' & Htile & Hocc).
  congruence.
Qed.

Lemma marked_iff r c :
  Exists (λ w, spans w r c)
    (filter (inDictionary dictionary) (getWordsFromTilesLTR tiles ++ ttb))
  ∧ ¬ Exists (λ w, spans w r c)
        (filter (λ w, ¬ inDictionary dictionary w)
           (getWordsFromTilesLTR tiles ++ ttb))
  ↔ covered (getWordsFromTilesLTR tiles ++ ttb) r c
    ∧ ∀ w, w ∈ getWordsFromTilesLTR tiles ++ ttb → spans w r c →
           inDictionary dictionary w.
Proof.
  unfold covered. rewrite !Exists_exists. split.
  - intros [(w & [Hvalid Hw]%list_elem_of_filter & Hsp) Hnone]. split; [eauto|].
    intros w' Hw' Hsp'. destruct (decide (inDictionary dictionary w')); [done|].
    exfalso. apply Hnone. exists w'. split; [|done].
    by apply list_elem_of_filter.
  - intros [(w & Hw & Hsp) Hall]. split.
    + exists w. split; [|done]. apply list_elem_of_filter. auto.
    + intros (w' & [Hinv Hw']%list_elem_of_filter & Hsp'). apply Hinv. auto.
Qed.

Lemma annotate_state r c tile :
  getTile tiles r c = Ok tile →
  (Tile.state (annotate dictionary (getWordsFromTilesLTR tiles ++ ttb) r c tile)
   = VALID
   ↔ covered (getWordsFromTilesLTR tiles ++ ttb) r c
     ∧ ∀ w, w ∈ getWordsFromTilesLTR tiles ++ ttb → spans w r c →
            inDictionary dictionary w)
  ∧ (Tile.state (annotate dictionary (getWordsFromTilesLTR tiles ++ ttb) r c tile)
     = IDLE ↔ Tile.letter tile = None).
Proof.
  intros Hget. destruct (decide (occupied tile)) as [Hocc|Hfree].
  - rewrite annotate_occupied by done. rewrite <-marked_iff.
    unfold occupied in Hocc. case_decide; split; split; try done; congruence.
  - rewrite annotate_free; [|done|].
    + assert (Tile.letter tile = None) as Hletter.
      { unfold occupied in Hfree. by destruct (Tile.letter tile); [destruct Hfree|]. }
      split; [|done]. split; [done|]. intros [Hcov _]. exfalso.
      by eapply Hfree, covered_occupied.
    + intros w Hw Hsp. apply Hfree. eapply covered_occupied; [|done].
      apply Exists_exists. eauto.
Qed.

(** A candidate word spans the tile of its first letter. *)
Lemma found_spans_origin w :
  w ∈ getWordsFromTilesLTR tiles ++ ttb →
  spans w (WordFromTile.row w) (WordFromTile.col w).
Proof.
  intros Hw.
  assert (1 < String.length (WordFromTile.word w)) as Hlen.
  { apply elem_of_app in Hw as [Hw|Hw].
    - by apply finishWords_facts in Hw as (? & _).
    - unfold getWordsFromTilesTTB in Httb.
      apply bind_Ok in Httb as (cols & _ & (words & _ & [= <-])%bind_Ok).
      by apply finishWords_facts in Hw as (? & _). }
  unfold spans. destruct (WordFromTile.direction w); lia.
Qed.

Lemma allValid_iff_covered_valid :
  forallb (λ w, bool_decide (inDictionary dictionary w))
    (getWordsFromTilesLTR tiles ++ ttb) = true
  ↔ ∀ r c tile,
      getTile tiles r c = Ok tile →
      covered (getWordsFromTilesLTR tiles ++ ttb) r c →
      Tile.state (annotate dictionary (getWordsFromTilesLTR tiles ++ ttb) r c tile)
      = VALID.
Proof.
  rewrite forallb_forall. split.
  - intros Hall r c tile Hget Hcov. apply annotate_state; [done|].
    split; [done|]. intros w Hw%list_elem_of_In _. specialize (Hall w Hw).
    by apply bool_decide_eq_true_1 in Hall.
  - intros Hall w Hw%list_elem_of_In. apply bool_decide_eq_true_2.
    pose proof (found_spans_origin w Hw) as Hsp.
    destruct (found_spans _ _ _ _ _ Hg Hs Httb Hw Hsp) as (tile & Hget & _).
    assert (covered (getWordsFromTilesLTR tiles ++ ttb)
              (WordFromTile.row w) (WordFromTile.col w)) as Hcov.
    { apply Exists_exists. eauto. }
    specialize (Hall _ _ _ Hget Hcov).
    apply annotate_state in Hall as [_ Hvalid]; [|done]. by apply Hvalid.
Qed.
End States.

(** * The tiles the candidate words cover *)

Lemma maximalRun_cover_aux n : ∀ (line : list Tile.t) c tile,
  length line ≤ n → line !! c = Some tile → occupied tile →
  ∃ pre run post,
    maximalRun line pre run post ∧ length pre ≤ c < length pre + length run.
Proof.
  induction n as [|n IH]; intros line c tile Hlen Hc Hocc.
  { destruct line; [done|simpl in Hlen; lia]. }
  destruct line as [|t0 line]; [done|]. simpl in Hlen.
  destruct (decide (occupied t0)) as [Hocc0|Hfree0].
  - destruct (occupied_prefix line) as (run & post & -> & Hrun & Hpost).
    destruct (decide (c < S (length run))) as [Hin|Hout].
    + exists [], (t0 :: run), post. split; [|simpl; lia].
      split; simpl; auto.
    + assert (post !! (c - S (length run)) = Some tile) as Hc'.
      { rewrite app_comm_cons, lookup_app_r in Hc by (simpl; lia). done. }
      destruct (IH post (c - S (length run)) tile)
        as (pre' & run' & post' & [-> Hrun' Hleft Hright] & Hrange);
        [rewrite length_app in Hlen; lia|done..|].
      exists (t0 :: run ++ pre'), run', post'. split.
      * split; auto.
        -- simpl. by rewrite <-app_assoc.
        -- destruct pre' as [|p0 pre'].
           { exfalso. destruct run' as [|r0 run']; [simpl in Hrange; lia|].
             apply Forall_cons in Hrun' as [? _]. simpl in Hpost. done. }
           rewrite app_comm_cons. by rewrite last_app_cons.
      * simpl. rewrite length_app. lia.
  - destruct c as [|c]; [simpl in Hc; by injection Hc as <-|]. simpl in Hc.
    destruct (IH line c tile)
      as (pre & run & post & [-> Hrun Hleft Hright] & Hrange); [lia|done..|].
    exists (t0 :: pre), run, post. split; [|simpl; lia].
    split; auto. by destruct pre.
Qed.

Lemma maximalRun_cover (line : list Tile.t) c tile :
  line !! c = Some tile → occupied tile →
  ∃ pre run post,
    maximalRun line pre run post ∧ length pre ≤ c < length pre + length run.
Proof. by apply (maximalRun_cover_aux (length line)). Qed.

Lemma maximalRun_outside (line pre run post : list Tile.t) i tile :
  maximalRun line pre run post → line !! i = Some tile → occupied tile →
  S i ≠ length pre ∧ i ≠ length pre + length run.
Proof.
  intros [-> Hrun Hleft Hright] Hi Hocc. split; intros Heq.
  - rewrite lookup_app_l in Hi by lia. rewrite last_lookup in Hleft.
    replace (pred (length pre)) with i in Hleft by lia. by rewrite Hi in Hleft.
  - rewrite lookup_app_r in Hi by lia. rewrite lookup_app_r in Hi by lia.
    replace (i - length pre - length run) with 0 in Hi by lia.
    rewrite <-head_lookup in Hi. by rewrite Hi in Hright.
Qed.

Lemma neighbour_in_line (line : list Tile.t) c c' tile tile' :
  line !! c = Some tile → occupied tile →
  line !! c' = Some tile' → occupied tile' →
  c' = S c ∨ c = S c' →
  ∃ pre run post,
    maximalRun line pre run post ∧ 2 ≤ length run
    ∧ length pre ≤ c < length pre + length run.
Proof.
  intros Hc Hocc Hc' Hocc' Hadj.
  destruct (maximalRun_cover line c tile Hc Hocc)
    as (pre & run & post & Hmax & Hrange).
  destruct (maximalRun_outside _ _ _ _ _ _ Hmax Hc' Hocc') as [Hleft Hright].
  exists pre, run, post. split; [done|]. split; [lia|done].
Qed.

Section Cover.
Variable tiles : list (list Tile.t).
Variable ttb : list WordFromTile.t.
Hypothesis Hg : gridShape tiles.
Hypothesis Hs : singleCharacters tiles.
Hypothesis Httb : getWordsFromTilesTTB tiles = Ok ttb.

Lemma run_neighbour (line pre run post : list Tile.t) c :
  maximalRun line pre run post → 2 ≤ length run →
  length pre ≤ c < length pre + length run →
  ∃ c' tile', (c' = S c ∨ c = S c') ∧ line !! c' = Some tile' ∧ occupied tile'.
Proof.
  intros [Hline Hrun _ _] Hlen Hc.
  destruct (decide (c = length pre)) as [->|Hne].
  - destruct (run_lookup line pre run post (S (length pre)) Hline)
      as (tile' & Htile' & Hin); [lia|].
    exists (S (length pre)), tile'. split_and!; [auto|done|].
    eapply Forall_forall in Hrun; eauto.
  - destruct (run_lookup line pre run post (c - 1) Hline)
      as (tile' & Htile' & Hin); [lia|].
    exists (c - 1), tile'. split_and!; [right; lia|done|].
    eapply Forall_forall in Hrun; eauto.
Qed.

Lemma covered_iff r c :
  covered (getWordsFromTilesLTR tiles ++ ttb) r c
  ↔ occupiedAt tiles (r, c)
    ∧ ∃ q, adjacent (r, c) q ∧ occupiedAt tiles q.
Proof.
  destruct (getWordsFromTilesTTB_elem_of tiles Hg Hs) as (ws & Hws & Httb_iff).
  rewrite Httb in Hws. injection Hws as <-.
  split.
  - intros (w & Hw & Hsp)%Exists_exists.
    split; [by eapply found_spans|].
    apply elem_of_app in Hw as [Hw|Hw].
    + apply getWordsFromTilesLTR_elem_of in Hw
        as (r0 & line & pre & run & post & Hr & Hmax & Hlen & ->); [|done..].
      unfold spans, rowWord in Hsp. simpl in Hsp.
      rewrite toLowerCase_length in Hsp.
      rewrite (maximalRun_text tiles line pre run post) in Hsp;
        [|done|by intros; eapply row_elem_of|done].
      destruct Hsp as [-> Hc].
      destruct (run_neighbour _ _ _ _ c Hmax Hlen Hc)
        as (c' & tile' & Hadj & Htile' & Hocc').
      exists (r0, c'). split.
      * left. simpl. split; [done|]. destruct Hadj; auto.
      * exists tile'. split; [apply getTile_Ok; eauto|done].
    + apply Httb_iff in Hw as (c0 & pre & run & post & Hc0 & Hmax & Hlen & ->).
      unfold spans, columnWord in Hsp. simpl in Hsp.
      rewrite toLowerCase_length in Hsp.
      rewrite (maximalRun_text tiles (column tiles c0) pre run post) in Hsp;
        [|done|by intros; eapply column_elem_of|done].
      destruct Hsp as [-> Hr].
      destruct (run_neighbour _ _ _ _ r Hmax Hlen Hr)
        as (r' & tile' & Hadj & Htile' & Hocc').
      exists (r', c0). split.
      * right. simpl. split; [done|]. destruct Hadj; auto.
      * exists tile'. split; [by apply column_getTile in Htile'|done].
  - intros [(tile & Hget & Hocc) ([r' c'] & Hadj & tile' & Hget' & Hocc')].
    simpl in *. apply Exists_exists.
    destruct Hadj as [[Hr Hc]|[Hc Hr]]; simpl in *.
    + subst r'. pose proof Hget as (line & Hline & Htile)%getTile_Ok.
      apply getTile_Ok in Hget' as (line' & Hline' & Htile').
      rewrite Hline in Hline'. injection Hline' as <-.
      destruct (neighbour_in_line line c c' tile tile')
        as (pre & run & post & Hmax & Hlen & Hrange); [done..|lia|].
      exists (rowWord r pre run). split.
      * apply elem_of_app. left. apply getWordsFromTilesLTR_elem_of; [done..|].
        eauto 10.
      * unfold spans, rowWord. simpl. rewrite toLowerCase_length.
        rewrite (maximalRun_text tiles line pre run post);
          [done|done|by intros; eapply row_elem_of|done].
    + subst c'. destruct (getTile_bounds _ _ _ _ Hg Hget) as [_ Hwidth].
      apply column_getTile in Hget, Hget'; [|done..].
      destruct (neighbour_in_line (column tiles c) r r' tile tile')
        as (pre & run & post & Hmax & Hlen & Hrange); [done..|lia|].
      exists (columnWord c pre run). split.
      * apply elem_of_app. right. apply Httb_iff. eauto 10.
      * unfold spans, columnWord. simpl. rewrite toLowerCase_length.
        rewrite (maximalRun_text tiles (column tiles c) pre run post);
          [done|done|by intros; eapply column_elem_of|done].
Qed.
End Cover.

Lemma connected_neighbour tiles p q :
  connected tiles p q → p ≠ q → ∃ p', adjacent p p' ∧ occupiedAt tiles p'.
Proof.
  induction 1 as [|p q q' Hpq IH Hadj Hocc]; [done|]. intros Hne.
  destruct (decide (p = q)) as [->|Hpq']; [eauto|]. by apply IH.
Qed.

(** * What depends on the letters only *)

Section Reset.
Variables tiles tiles' : list (list Tile.t).
Hypothesis Heq : resetGrid tiles' = resetGrid tiles.

Lemma resetGrid_letters :
  Tile.letter <$> mjoin tiles' = Tile.letter <$> mjoin tiles.
Proof.
  assert (∀ ts, Tile.letter <$> mjoin (resetGrid ts) = Tile.letter <$> mjoin ts)
    as Hl.
  { intros ts. unfold resetGrid. rewrite join_fmap_fmap, <-list_fmap_compose.
    by apply list_fmap_ext. }
  by rewrite <-(Hl tiles'), Heq, Hl.
Qed.

Lemma resetGrid_omap_letters :
  omap Tile.letter (mjoin tiles') = omap Tile.letter (mjoin tiles).
Proof.
  rewrite <-(omap_id_fmap Tile.letter (mjoin tiles')).
  by rewrite <-(omap_id_fmap Tile.letter (mjoin tiles)), resetGrid_letters.
Qed.

Lemma resetGrid_countFilledTiles :
  countFilledTiles tiles' = countFilledTiles tiles.
Proof.
  unfold countFilledTiles.
  by rewrite !join_fmap_fmap, !omap_id_fmap, resetGrid_omap_letters.
Qed.

Lemma resetGrid_lettersUnshared : lettersUnshared tiles → lettersUnshared tiles'.
Proof. unfold lettersUnshared. by rewrite resetGrid_omap_letters. Qed.

Lemma resetGrid_uniqueTileIds : uniqueTileIds tiles → uniqueTileIds tiles'.
Proof. unfold uniqueTileIds. by rewrite (resetGrid_ids _ _ Heq). Qed.

Lemma resetGrid_singleCharacters :
  singleCharacters tiles → singleCharacters tiles'.
Proof.
  intros Hs tile l Htile Hl.
  assert (l ∈ omap Tile.letter (mjoin tiles')) as Hin
    by (apply list_elem_of_omap; eauto).
  rewrite resetGrid_omap_letters in Hin.
  apply list_elem_of_omap in Hin as (tile0 & Htile0 & Hl0). eauto.
Qed.

Lemma resetGrid_getTile_iff r c :
  (∃ tile', getTile tiles' r c = Ok tile' ∧ occupied tile')
  ↔ (∃ tile, getTile tiles r c = Ok tile ∧ occupied tile).
Proof.
  split.
  - intros (tile' & Hget & Hocc).
    destruct (resetGrid_getTile tiles' tiles r c tile' (eq_sym Heq) Hget)
      as (tile & Hget' & Hfields).
    exists tile. split; [done|]. apply resetTile_fields in Hfields.
    unfold occupied in *. destruct Hfields as (_ & _ & _ & ->). done.
  - intros (tile & Hget & Hocc).
    destruct (resetGrid_getTile tiles tiles' r c tile Heq Hget)
      as (tile' & Hget' & Hfields).
    exists tile'. split; [done|]. apply resetTile_fields in Hfields.
    unfold occupied in *. destruct Hfields as (_ & _ & _ & ->). done.
Qed.

Lemma resetGrid_occupiedAt p : occupiedAt tiles' p ↔ occupiedAt tiles p.
Proof. apply resetGrid_getTile_iff. Qed.

Lemma resetGrid_connected p q : connected tiles' p q ↔ connected tiles p q.
Proof.
  split; induction 1 as [p Hp|p q q' Hpq IH Hadj Hq].
  - apply connected_refl. by apply resetGrid_occupiedAt.
  - eapply connected_step; [done..|]. by apply resetGrid_occupiedAt.
  - apply connected_refl. by apply resetGrid_occupiedAt.
  - eapply connected_step; [done..|]. by apply resetGrid_occupiedAt.
Qed.

Lemma resetGrid_gridShape : gridShape tiles → gridShape tiles'.
Proof.
  intros Hg.
  destruct (resetGrid_shape _ _ Heq) as [Hlen Hrows].
  destruct (resetGrid_shape _ _ (eq_sym Heq)) as [_ Hrows'].
  assert (width tiles' = width tiles) as Hwidth.
  { unfold width. destruct (tiles !! 0) as [line|] eqn:E.
    - destruct (Hrows 0 line E) as (line' & -> & ?). done.
    - destruct (tiles' !! 0) as [line'|] eqn:E'; [|done].
      destruct (Hrows' 0 line' E') as (line & ? & ?). congruence. }
  split.
  - pose proof (grid_rows _ Hg). destruct tiles, tiles'; simpl in *; done.
  - intros line' [r Hr]%list_elem_of_lookup_1.
    destruct (Hrows' r line' Hr) as (line & Hline & <-).
    rewrite Hwidth. by eapply gridShape_lookup.
  - intros r c tile' Hget.
    destruct (resetGrid_getTile tiles' tiles r c tile' (eq_sym Heq) Hget)
      as (tile & Hget' & Hfields).
    apply resetTile_fields in Hfields as (_ & Hr & Hc & _).
    destruct (grid_pos _ Hg _ _ _ Hget'). split; congruence.
Qed.

Lemma resetGrid_validateWordIsland {Cursor} (cursor cursor' : Cursor) :
  gridShape tiles → lettersUnshared tiles →
  validateWordIsland (Board.mk cursor' tiles')
  = validateWordIsland (Board.mk cursor tiles).
Proof.
  intros Hg Hu.
  destruct (validateWordIsland_spec tiles Hg (Board.mk cursor tiles) eq_refl Hu)
    as (v & -> & Hiff).
  destruct (validateWordIsland_spec tiles' (resetGrid_gridShape Hg)
              (Board.mk cursor' tiles') eq_refl (resetGrid_lettersUnshared Hu))
    as (v' & -> & Hiff').
  f_equal. apply eq_true_iff_eq. unfold firstOccupied in *.
  rewrite Hiff, Hiff'. split.
  - intros (s & [Hs Hmin] & Hall). exists s. split_and!.
    + by apply resetGrid_occupiedAt.
    + intros q Hq. by apply Hmin, resetGrid_occupiedAt.
    + intros q Hq. by apply resetGrid_connected, Hall, resetGrid_occupiedAt.
  - intros (s & [Hs Hmin] & Hall). exists s. split_and!.
    + by apply resetGrid_occupiedAt.
    + intros q Hq. by apply Hmin, resetGrid_occupiedAt.
    + intros q Hq. by apply resetGrid_connected, Hall, resetGrid_occupiedAt.
Qed.
End Reset.

(** * Counting the tiles of the returned board *)

Lemma filter_length_le {A} (P Q : A → Prop)
    `{!∀ x, Decision (P x), !∀ x, Decision (Q x)} (l : list A) :
  (∀ x, x ∈ l → P x → Q x) →
  length (filter P l) ≤ length (filter Q l)
  ∧ (length (filter P l) = length (filter Q l) ↔ ∀ x, x ∈ l → Q x → P x).
Proof.
  induction l as [|a l IH]; intros Himp.
  - split; [done|]. split; [|done]. by intros _ x ?%elem_of_nil.
  - destruct IH as [Hle Hiff]; [intros x Hx; apply Himp; by right|].
    rewrite !filter_cons.
    destruct (decide (P a)) as [Hp|Hp], (decide (Q a)) as [Hq|Hq]; simpl.
    + split; [lia|]. split.
      * intros [= Hlen] x [->|Hx]%elem_of_cons; [done|]. by apply Hiff.
      * intros Hall. f_equal. apply Hiff. intros x Hx. apply Hall. by right.
    + destruct Hq. apply Himp; [left|done].
    + split; [lia|]. split; [lia|]. intros Hall. destruct Hp. apply Hall; [left|done].
    + split; [done|]. split.
      * intros Hlen x [->|Hx]%elem_of_cons; [done|]. by apply Hiff.
      * intros Hall. apply Hiff. intros x Hx. apply Hall. by right.
Qed.

Lemma length_filter_occupied_reset tiles tiles' :
  resetGrid tiles' = resetGrid tiles →
  length (filter occupied (mjoin tiles')) = length (filter occupied (mjoin tiles)).
Proof.
  intros Heq. by rewrite <-!length_omap_letter, (resetGrid_omap_letters _ _ Heq).
Qed.

Section Counting.
Variable dictionary : gset string.
Variable tiles : list (list Tile.t).
Variable ttb : list WordFromTile.t.
Hypothesis Hg : gridShape tiles.
Hypothesis Hs : singleCharacters tiles.
Hypothesis Httb : getWordsFromTilesTTB tiles = Ok ttb.

Local Abbreviation found := (getWordsFromTilesLTR tiles ++ ttb).
Local Abbreviation tiles' := (mapGrid (annotate dictionary found) tiles).

Lemma annotated_reset : resetGrid tiles' = resetGrid tiles.
Proof.
  destruct (validateBoard_total dictionary (Board.mk () tiles) Hg Hs)
    as (ttb' & Httb' & Hv). simpl in *.
  rewrite Httb in Httb'. injection Httb' as <-.
  by destruct (validateBoard_writes_states _ _ _ _ Hv) as [_ Hreset].
Qed.

Lemma annotated_valid_occupied tile :
  tile ∈ mjoin tiles' → Tile.state tile = VALID → occupied tile.
Proof.
  intros (r & c & tile0 & Hget & ->)%elem_of_mapGrid Hvalid.
  apply (annotate_state dictionary tiles ttb Hg Hs Httb) in Hvalid as [Hcov _];
    [|done].
  pose proof (covered_occupied tiles ttb Hg Hs Httb r c tile0 Hcov Hget) as Hocc.
  unfold occupied in *.
  by destruct (annotate_fields dictionary found r c tile0) as (_ & _ & _ & ->).
Qed.

Lemma annotated_not_mixed tile :
  tile ∈ mjoin tiles' → Tile.state tile ≠ MIXED.
Proof.
  intros (r & c & tile0 & Hget & ->)%elem_of_mapGrid.
  destruct (decide (occupied tile0)) as [Hocc|Hfree].
  - rewrite annotate_occupied by done. by case_decide.
  - rewrite annotate_free; [done|done|].
    intros w Hw Hsp. apply Hfree.
    eapply (covered_occupied tiles ttb Hg Hs Httb); [|done].
    apply Exists_exists. eauto.
Qed.

Lemma countValidTiles_annotated :
  uniqueTileIds tiles →
  countValidTiles tiles'
  = length (filter (λ tile, Tile.state tile = VALID) (mjoin tiles')).
Proof.
  intros Hids. unfold countValidTiles.
  rewrite join_fmap_filter, size_list_to_set, length_fmap.
  - f_equal. apply filter_ext_in. intros tile Htile. split; [|auto].
    intros [|Hmixed]; [done|]. by apply annotated_not_mixed in Hmixed.
  - eapply sublist_NoDup; [|apply fmap_sublist, sublist_filter].
    by rewrite (resetGrid_ids _ _ annotated_reset).
Qed.

(** Every tile with a letter is VALID in the returned grid exactly when
    it is so for the tiles of the input. *)
Lemma annotated_all_valid :
  (∀ tile, tile ∈ mjoin tiles' → occupied tile → Tile.state tile = VALID)
  ↔ ∀ r c tile, getTile tiles r c = Ok tile → occupied tile →
      Tile.state (annotate dictionary found r c tile) = VALID.
Proof.
  split.
  - intros Hall r c tile Hget Hocc. apply Hall.
    + eapply getTile_elem_of. rewrite getTile_mapGrid, Hget. done.
    + unfold occupied in *.
      by destruct (annotate_fields dictionary found r c tile) as (_ & _ & _ & ->).
  - intros Hall tile (r & c & tile0 & Hget & ->)%elem_of_mapGrid Hocc.
    apply Hall; [done|]. unfold occupied in *.
    by destruct (annotate_fields dictionary found r c tile0) as (_ & _ & _ & <-).
Qed.

Lemma countValidTiles_le :
  uniqueTileIds tiles → lettersUnshared tiles →
  countValidTiles tiles' ≤ countFilledTiles tiles
  ∧ (countValidTiles tiles' = countFilledTiles tiles
     ↔ ∀ r c tile, getTile tiles r c = Ok tile → occupied tile →
         Tile.state (annotate dictionary found r c tile) = VALID).
Proof.
  intros Hids Hu.
  rewrite countValidTiles_annotated, (countFilledTiles_unshared _ Hu) by done.
  rewrite <-(length_filter_occupied_reset _ _ annotated_reset).
  rewrite <-annotated_all_valid.
  apply filter_length_le. intros tile Htile. by apply annotated_valid_occupied.
Qed.

(** When the boolean is false some tile with a letter is not VALID. *)
Lemma all_valid_allWordsAreValid :
  (∀ r c tile, getTile tiles r c = Ok tile → occupied tile →
     Tile.state (annotate dictionary found r c tile) = VALID) →
  forallb (λ w, bool_decide (inDictionary dictionary w)) found = true.
Proof.
  intros Hall. apply (allValid_iff_covered_valid dictionary tiles ttb Hg Hs Httb).
  intros r c tile Hget Hcov. apply Hall; [done|].
  by eapply (covered_occupied tiles ttb Hg Hs Httb).
Qed.

(** On a connected board with two letters or more every tile with a
    letter is in a word. *)
Lemma connected_covered s :
  (∀ q, occupiedAt tiles q → connected tiles s q) →
  2 ≤ length (filter occupied (mjoin tiles)) →
  ∀ r c tile, getTile tiles r c = Ok tile → occupied tile → covered found r c.
Proof.
  intros Hconn Hlen r c tile Hget Hocc.
  apply (covered_iff tiles ttb Hg Hs Httb).
  assert (occupiedAt tiles (r, c)) as Hp by (by exists tile).
  split; [done|].
  assert (∃ u, u ∈ filter occupied (mjoin tiles) ∧ u ≠ tile) as (u & Hu & Hne).
  { assert (NoDup (filter occupied (mjoin tiles))) as Hnd
      by (apply NoDup_filter, NoDup_grid; done).
    destruct (filter occupied (mjoin tiles)) as [|u1 [|u2 l]]; simpl in Hlen;
      [lia..|].
    destruct (decide (u1 = tile)) as [->|Hne1].
    - exists u2. split; [right; left|]. intros ->.
      apply NoDup_cons in Hnd as [Hnotin _]. apply Hnotin. left.
    - exists u1. split; [left|done]. }
  apply list_elem_of_filter in Hu as [Huocc Hu].
  assert (posOf u ≠ (r, c)) as Hpos.
  { intros Heq. apply Hne. apply (grid_posOf_inj tiles Hg); [done| |].
    - by eapply getTile_elem_of.
    - rewrite Heq. destruct (grid_pos _ Hg _ _ _ Hget) as [Hr Hc].
      unfold posOf. by rewrite Hr, Hc. }
  apply (connected_neighbour tiles (r, c) (posOf u)); [|done].
  eapply connected_trans; [apply connected_sym, Hconn; done|].
  apply Hconn. by apply occupiedAt_posOf.
Qed.
End Counting.

(** * Larger dictionaries *)

Section Mono.
Variables d1 d2 : gset string.
Variable tiles : list (list Tile.t).
Variable ttb : list WordFromTile.t.
Hypothesis Hsub : d1 ⊆ d2.
Hypothesis Hg : gridShape tiles.
Hypothesis Hs : singleCharacters tiles.
Hypothesis Httb : getWordsFromTilesTTB tiles = Ok ttb.

Lemma annotate_mono r c tile :
  getTile tiles r c = Ok tile →
  Tile.state (annotate d1 (getWordsFromTilesLTR tiles ++ ttb) r c tile) = VALID →
  Tile.state (annotate d2 (getWordsFromTilesLTR tiles ++ ttb) r c tile) = VALID.
Proof.
  intros Hget H1.
  apply (annotate_state d1 tiles ttb Hg Hs Httb) in H1 as [Hcov Hall]; [|done].
  apply (annotate_state d2 tiles ttb Hg Hs Httb); [done|]. split; [done|].
  intros w Hw Hsp. unfold inDictionary. apply Hsub. by apply Hall.
Qed.

Lemma allWordsAreValid_mono :
  forallb (λ w, bool_decide (inDictionary d1 w)) (getWordsFromTilesLTR tiles ++ ttb)
  = true →
  forallb (λ w, bool_decide (inDictionary d2 w)) (getWordsFromTilesLTR tiles ++ ttb)
  = true.
Proof.
  rewrite !forallb_forall. intros Hall w Hw. specialize (Hall w Hw).
  apply bool_decide_eq_true_1 in Hall. apply bool_decide_eq_true_2.
  unfold inDictionary in *. by apply Hsub.
Qed.
End Mono.

(** * Words that leave the grid *)

Lemma forOf_throws_inv {A St} (P : St → Prop) (xs : list A)
    (body : A → St → result St) s x :
  x ∈ xs → P s →
  (∀ y s s', P s → body y s = Ok s' → P s') →
  (∀ s, P s → body x s = Err TypeError) →
  (∀ y s e, body y s = Err e → e = TypeError) →
  forOf xs body s = Err TypeError.
Proof.
  intros Hx Hs Hpres Hfail Honly. revert s Hs.
  induction xs as [|y xs IH]; intros s Hs; [by apply elem_of_nil in Hx|].
  simpl. apply elem_of_cons in Hx as [<-|Hx]; [by rewrite Hfail|].
  destruct (body y s) as [s'|e] eqn:E; simpl; [by eapply IH, Hpres|].
  by rewrite (Honly _ _ _ E).
Qed.

Lemma writeState_getTile_Err f tiles tiles0 r c :
  resetGrid tiles = resetGrid tiles0 →
  getTile tiles0 r c = Err TypeError → writeState f tiles r c = Err TypeError.
Proof.
  intros Heq Hget.
  destruct (writeState f tiles r c) as [tiles'|e] eqn:E;
    [|by rewrite (writeState_Err _ _ _ _ _ E)].
  exfalso. unfold writeState in E.
  destruct (tiles !! r) as [line|] eqn:Hr; [|done].
  destruct (line !! c) as [tile|] eqn:Hc; [|done].
  assert (getTile tiles r c = Ok tile) as Hget' by (apply getTile_Ok; eauto).
  destruct (resetGrid_getTile tiles tiles0 r c tile (eq_sym Heq) Hget')
    as (tile0 & Hget0 & _).
  congruence.
Qed.

Lemma forTilesOfWord_throws f gridBounds w tiles k :
  k < String.length (WordFromTile.word w) →
  match WordFromTile.direction w with
  | LeftToRight =>
      getTile tiles (WordFromTile.row w) (WordFromTile.col w + k) = Err TypeError
  | TopToBottom =>
      WordFromTile.row w + k < gridBounds
      ∧ getTile tiles (WordFromTile.row w + k) (WordFromTile.col w) = Err TypeError
  end →
  forTilesOfWord f gridBounds w tiles = Err TypeError.
Proof.
  intros Hk Hout. unfold forTilesOfWord, forRange.
  destruct (WordFromTile.direction w).
  - apply (forOf_throws_inv (λ s, resetGrid s = resetGrid tiles)) with (x := k).
    + apply elem_of_seq. lia.
    + done.
    + intros y s s' Hs Hw. by rewrite (writeState_reset _ _ _ _ _ Hw).
    + intros s Hs. by apply (writeState_getTile_Err _ _ tiles).
    + intros y s e. apply writeState_Err.
  - destruct Hout as [Hin Hout].
    apply (forOf_throws_inv (λ s, resetGrid s = resetGrid tiles)) with (x := k).
    + apply elem_of_seq. lia.
    + done.
    + intros y s s' Hs Hw.
      destruct (_ >? _)%Z; [by injection Hw as <-|].
      by rewrite (writeState_reset _ _ _ _ _ Hw).
    + intros s Hs.
      destruct (Z.gtb_spec (Z.of_nat (WordFromTile.row w + k))
                  (Z.of_nat gridBounds - 1)) as [Hgt|Hle]; [lia|].
      by apply (writeState_getTile_Err _ _ tiles).
    + intros y s e. destruct (_ >? _)%Z; [done|]. apply writeState_Err.
Qed.

(** * The board of the game *)

Lemma withLetter_withLetter tile l1 l2 :
  withLetter (withLetter tile l1) l2 = withLetter tile l2.
Proof. done. Qed.

Lemma withLetter_same tile : withLetter tile (Tile.letter tile) = tile.
Proof. by destruct tile. Qed.

Lemma resetBoard_mapGrid tiles :
  resetBoard tiles = mapGrid (λ _ _ tile, withLetter tile None) tiles.
Proof.
  unfold resetBoard, mapGrid. rewrite <-imap_const. apply imap_ext.
  intros r line _. simpl. by rewrite <-imap_const.
Qed.

Lemma setLetterOnBoard_mapGrid row col letter tiles tile :
  getTile tiles row col = Ok tile →
  setLetterOnBoard (row, col) letter tiles
  = Ok (mapGrid (λ r c tile',
                   if decide (r = row ∧ c = col) then withLetter tile' letter
                   else tile')
          tiles).
Proof.
  intros (line & Hr & Hc)%getTile_Ok. unfold setLetterOnBoard. rewrite Hr, Hc.
  f_equal. symmetry. apply grid_eq.
  - by rewrite length_mapGrid, length_insert.
  - unfold mapGrid. intros r' line1 line2. rewrite list_lookup_imap.
    destruct (decide (row = r')) as [<-|Hne].
    + rewrite Hr, list_lookup_insert_eq by by eapply lookup_lt_Some.
      intros [= <-] [= <-]. by rewrite length_imap, length_insert.
    + rewrite list_lookup_insert_ne by done.
      destruct (tiles !! r'); simpl; [|done]. intros [= <-] [= <-].
      by rewrite length_imap.
  - intros r' c'. rewrite getTile_mapGrid. unfold getTile.
    destruct (decide (row = r')) as [<-|Hne].
    + rewrite Hr, list_lookup_insert_eq by by eapply lookup_lt_Some.
      destruct (decide (col = c')) as [<-|Hne].
      * rewrite Hc, list_lookup_insert_eq by by eapply lookup_lt_Some.
        by rewrite decide_True.
      * rewrite list_lookup_insert_ne by done.
        destruct (line !! c'); [|done]. rewrite decide_False; [done|].
        intros [_ ?]. congruence.
    + rewrite list_lookup_insert_ne by done.
      destruct (tiles !! r') as [line'|]; [|done].
      destruct (line' !! c'); [|done]. rewrite decide_False; [done|].
      intros [? _]. congruence.
Qed.

Lemma setLetterOnBoard_Err row col letter tiles e :
  getTile tiles row col = Err e →
  setLetterOnBoard (row, col) letter tiles = Err TypeError.
Proof.
  unfold getTile, setLetterOnBoard. destruct (tiles !! row) as [line|]; [|done].
  by destruct (line !! col).
Qed.

(** ** Grids rebuilt tile by tile *)

Lemma fmap_mapGrid {B} (h : Tile.t → B) g tiles :
  (∀ r c tile, h (g r c tile) = h tile) →
  h <$> mjoin (mapGrid g tiles) = h <$> mjoin tiles.
Proof.
  intros Hh. rewrite <-!join_fmap_fmap. f_equal.
  apply list_eq. intros r. unfold mapGrid.
  rewrite !list_lookup_fmap, list_lookup_imap.
  destruct (tiles !! r) as [line|]; simpl; [|done]. f_equal.
  apply list_eq. intros c. rewrite !list_lookup_fmap, list_lookup_imap.
  destruct (line !! c); simpl; [|done]. by rewrite Hh.
Qed.

Lemma width_mapGrid g tiles : width (mapGrid g tiles) = width tiles.
Proof.
  unfold width, mapGrid. rewrite list_lookup_imap.
  destruct (tiles !! 0); simpl; [|done]. by rewrite length_imap.
Qed.

Lemma gridShape_mapGrid g tiles :
  (∀ r c tile, Tile.row (g r c tile) = Tile.row tile
               ∧ Tile.col (g r c tile) = Tile.col tile) →
  gridShape tiles → gridShape (mapGrid g tiles).
Proof.
  intros Hpos Hg. split.
  - intros Hnil. apply (grid_rows _ Hg). apply length_zero_iff_nil.
    by rewrite <-(length_mapGrid g), Hnil.
  - rewrite width_mapGrid. apply Forall_forall.
    apply (rectangular_mapGrid g (width tiles) tiles), gridShape_rectangular, Hg.
  - intros r c tile. rewrite getTile_mapGrid.
    destruct (getTile tiles r c) as [tile0|] eqn:Hget; [|done]. intros [= <-].
    destruct (Hpos r c tile0) as [-> ->]. by apply Hg.
Qed.

Lemma resetBoard_mapGrid_keep g tiles :
  (∀ r c tile, ∃ letter, g r c tile = withLetter tile letter) →
  resetBoard (mapGrid g tiles) = resetBoard tiles.
Proof.
  intros Hkeep. rewrite !resetBoard_mapGrid, mapGrid_mapGrid.
  apply mapGrid_ext. intros r c tile _. by destruct (Hkeep r c tile) as [l ->].
Qed.

(** ** The letters on the board *)

Lemma elem_of_boardLetterIds tiles i :
  i ∈ boardLetterIds tiles
  ↔ ∃ tile l, tile ∈ mjoin tiles ∧ Tile.letter tile = Some l ∧ Letter.id l = i.
Proof.
  unfold boardLetterIds. rewrite elem_of_list_to_set, list_elem_of_fmap.
  rewrite join_fmap_fmap, omap_id_fmap. split.
  - intros (l & -> & (tile & Htile & Hl)%list_elem_of_omap). eauto.
  - intros (tile & l & Htile & Hl & <-). exists l. split; [done|].
    apply list_elem_of_omap. eauto.
Qed.

Lemma resetBoard_letterless tiles tile :
  tile ∈ mjoin (resetBoard tiles) → Tile.letter tile = None.
Proof.
  unfold resetBoard. rewrite join_fmap_fmap.
  by intros (tile0 & -> & _)%list_elem_of_fmap.
Qed.

Lemma boardLetterIds_resetBoard tiles : boardLetterIds (resetBoard tiles) = ∅.
Proof.
  apply set_eq. intros i. rewrite elem_of_boardLetterIds. split; [|set_solver].
  intros (tile & l & Htile%resetBoard_letterless & Hl & _). congruence.
Qed.

Lemma countFilledTiles_resetBoard tiles : countFilledTiles (resetBoard tiles) = 0.
Proof.
  unfold countFilledTiles. rewrite join_fmap_fmap, omap_id_fmap.
  assert (omap Tile.letter (mjoin (resetBoard tiles)) = []) as ->; [|done].
  apply length_zero_iff_nil. rewrite length_omap_letter.
  apply length_zero_iff_nil, letterless_filter.
  intros tile. apply resetBoard_letterless.
Qed.

Lemma countValidTiles_resetBoard tiles :
  countValidTiles (resetBoard tiles) = countValidTiles tiles.
Proof.
  unfold countValidTiles. rewrite !join_fmap_filter. f_equal. f_equal.
  unfold resetBoard. rewrite join_fmap_fmap.
  generalize (mjoin tiles). intros l. induction l as [|tile l IH]; [done|].
  csimpl. rewrite !filter_cons. simpl.
  destruct (decide (Tile.state tile = VALID ∨ Tile.state tile = MIXED));
    csimpl; by rewrite IH.
Qed.

Lemma findAnyTile_letterless tiles :
  (∀ tile, tile ∈ mjoin tiles → Tile.letter tile = None) → findAnyTile tiles = None.
Proof.
  intros Hnone. destruct (findAnyTile tiles) as [s|] eqn:Hfind; [|done].
  apply findAnyTile_Some in Hfind as (r & c & Hget & Hocc & _).
  destruct Hocc. apply Hnone. by eapply getTile_elem_of.
Qed.

Lemma validateWordIsland_letterless {Cursor} (board : Board.t Cursor) :
  Board.tiles board ≠ [] →
  (∀ tile, tile ∈ mjoin (Board.tiles board) → Tile.letter tile = None) →
  validateWordIsland board = Ok false.
Proof.
  intros Hrows Hnone. unfold validateWordIsland.
  rewrite firstRowLength_width by done. cbn [bind].
  by rewrite findAnyTile_letterless.
Qed.

(** ** The letters that are left *)

Lemma filter_partition_length {A} (P : A → Prop) `{!∀ x, Decision (P x)}
    (l : list A) :
  length (filter P l) + length (filter (λ x, ¬ P x) l) = length l.
Proof.
  induction l as [|a l IH]; [done|]. rewrite !filter_cons.
  destruct (decide (P a)), (decide (¬ P a)); simpl; try done; lia.
Qed.

Lemma used_letters_size (letters : list Letter.t) (ids : gset string) :
  NoDup (Letter.id <$> letters) →
  (∀ i, i ∈ ids → i ∈ Letter.id <$> letters) →
  length (filter (λ l, Letter.id l ∈ ids) letters) = size ids.
Proof.
  intros Hnd Hsub.
  assert (list_to_set (C := gset string)
            (Letter.id <$> filter (λ l, Letter.id l ∈ ids) letters) = ids)
    as Hset.
  { apply set_eq. intros i. rewrite elem_of_list_to_set, list_elem_of_fmap. split.
    - by intros (l & -> & [Hl _]%list_elem_of_filter).
    - intros Hi. pose proof (Hsub i Hi) as (l & -> & Hl)%list_elem_of_fmap.
      exists l. split; [done|]. by apply list_elem_of_filter. }
  transitivity (size (list_to_set (C := gset string)
                        (Letter.id <$> filter (λ l, Letter.id l ∈ ids) letters)));
    [|by rewrite Hset].
  rewrite size_list_to_set, length_fmap; [done|].
  eapply sublist_NoDup; [exact Hnd|]. apply fmap_sublist, sublist_filter.
Qed.

(** ** The tile objects of the board *)

Lemma readRow_Forall2 store row tiles :
  readRow store row = Ok tiles
  ↔ Forall2 (λ ref tile, store !! ref = Some tile) row tiles.
Proof.
  revert tiles. induction row as [|ref row IH]; intros tiles; simpl.
  - split; [intros [= <-]; constructor|]. by intros ->%Forall2_nil_inv_l.
  - destruct (store !! ref) as [tile|] eqn:Href.
    + split.
      * intros (rest & Hrest & [= <-])%bind_Ok. constructor; [done|]. by apply IH.
      * intros (tile' & rest & Htile & Hrest & ->)%Forall2_cons_inv_l.
        apply IH in Hrest. rewrite Hrest. simpl. congruence.
    + split; [done|].
      intros (tile' & rest & Htile & _)%Forall2_cons_inv_l. congruence.
Qed.

Lemma readGrid_Forall2 store grid tiles :
  readGrid store grid = Ok tiles
  ↔ Forall2 (Forall2 (λ ref tile, store !! ref = Some tile)) grid tiles.
Proof.
  revert tiles. induction grid as [|row grid IH]; intros tiles; simpl.
  - split; [intros [= <-]; constructor|]. by intros ->%Forall2_nil_inv_l.
  - split.
    + intros (line & Hline & (rest & Hrest & [= <-])%bind_Ok)%bind_Ok.
      constructor; [by apply readRow_Forall2|by apply IH].
    + intros (line & rest & Hline & Hrest & ->)%Forall2_cons_inv_l.
      apply readRow_Forall2 in Hline. apply IH in Hrest.
      by rewrite Hline, Hrest.
Qed.

Lemma NoDup_join_rows {A} (grid : list (list A)) r line :
  NoDup (mjoin grid) → grid !! r = Some line → NoDup line.
Proof.
  revert r. induction grid as [|row grid IH]; intros r; [done|].
  change (mjoin (row :: grid)) with (row ++ mjoin grid).
  intros (Hrow & _ & Hrest)%NoDup_app. destruct r as [|r]; simpl.
  - by intros [= <-].
  - by apply IH.
Qed.

Lemma NoDup_join_apart {A} (grid : list (list A)) r1 r2 l1 l2 a :
  NoDup (mjoin grid) → grid !! r1 = Some l1 → grid !! r2 = Some l2 →
  r1 ≠ r2 → a ∈ l1 → a ∉ l2.
Proof.
  revert r1 r2. induction grid as [|row grid IH]; intros r1 r2; [done|].
  change (mjoin (row :: grid)) with (row ++ mjoin grid).
  intros (Hrow & Hsep & Hrest)%NoDup_app H1 H2 Hne Ha1 Ha2.
  destruct r1 as [|r1], r2 as [|r2]; simpl in *; try done.
  - injection H1 as <-. apply (Hsep a Ha1). apply list_elem_of_join.
    exists l2. eauto using list_elem_of_lookup_2.
  - injection H2 as <-. apply (Hsep a Ha2). apply list_elem_of_join.
    exists l1. eauto using list_elem_of_lookup_2.
  - eapply (IH r1 r2); eauto.
Qed.

Lemma setLetterOnBoardIn_sim row col letter store grid tiles :
  NoDup (mjoin grid) →
  readGrid store grid = Ok tiles →
  match setLetterOnBoard (row, col) letter tiles with
  | Ok tiles' =>
      ∃ store',
        setLetterOnBoardIn (row, col) letter store grid = Ok (store', grid)
        ∧ readGrid store' grid = Ok tiles'
        ∧ length store' = length store
  | Err e => setLetterOnBoardIn (row, col) letter store grid = Err e
  end.
Proof.
  intros Hnd Hread%readGrid_Forall2.
  unfold setLetterOnBoard, setLetterOnBoardIn.
  destruct (tiles !! row) as [line|] eqn:Hrow.
  - destruct (Forall2_lookup_r _ _ _ _ _ Hread Hrow) as (refs & Hrefs & Hline).
    rewrite Hrefs.
    destruct (line !! col) as [tile|] eqn:Hcol.
    + destruct (Forall2_lookup_r _ _ _ _ _ Hline Hcol) as (a & Ha & Hstore).
      rewrite Ha, Hstore. eexists. split; [done|].
      split; [|by rewrite length_insert].
      apply readGrid_Forall2. apply Forall2_same_length_lookup.
      split; [by rewrite length_insert; eapply Forall2_length|].
      intros r' refs' line' Hrefs' Hline'.
      destruct (decide (r' = row)) as [->|Hne].
      * rewrite list_lookup_insert_eq in Hline' by by eapply lookup_lt_Some.
        injection Hline' as <-. rewrite Hrefs in Hrefs'. injection Hrefs' as <-.
        apply Forall2_same_length_lookup.
        split; [by rewrite length_insert; eapply Forall2_length|].
        intros c' a' tile' Ha' Htile'.
        destruct (decide (c' = col)) as [->|Hnec].
        -- rewrite list_lookup_insert_eq in Htile' by by eapply lookup_lt_Some.
           injection Htile' as <-. rewrite Ha in Ha'. injection Ha' as <-.
           apply list_lookup_insert_eq. by eapply lookup_lt_Some.
        -- rewrite list_lookup_insert_ne in Htile' by done.
           rewrite list_lookup_insert_ne.
           ++ eapply Forall2_lookup_lr in Hline; eauto.
           ++ intros <-. apply Hnec.
              eapply NoDup_lookup; [by eapply NoDup_join_rows|done..].
      * rewrite list_lookup_insert_ne in Hline' by done.
        pose proof (Forall2_lookup_lr _ _ _ _ _ _ Hread Hrefs' Hline') as Hrow'.
        apply Forall2_same_length_lookup.
        split; [by eapply Forall2_length|].
        intros c' a' tile' Ha' Htile'.
        rewrite list_lookup_insert_ne.
        -- eapply Forall2_lookup_lr in Hrow'; eauto.
        -- intros <-.
           eapply (NoDup_join_apart grid row r' refs refs' a); eauto.
           ++ by eapply list_elem_of_lookup_2.
           ++ by eapply list_elem_of_lookup_2.
    + assert (refs !! col = None) as ->; [|done].
      apply lookup_ge_None. rewrite (Forall2_length _ _ _ Hline).
      by apply lookup_ge_None.
  - assert (grid !! row = None) as ->; [|done].
    apply lookup_ge_None. rewrite (Forall2_length _ _ _ Hread).
    by apply lookup_ge_None.
Qed.

Lemma elem_of_addresses base (grid : list (list Tile.t)) ref :
  ref ∈ mjoin (addresses base grid) →
  base ≤ ref < base + length (mjoin grid).
Proof.
  revert base. induction grid as [|row grid IH]; intros base; simpl.
  - by intros ?%elem_of_nil.
  - change (mjoin (row :: grid)) with (row ++ mjoin grid).
    change (mjoin (seq base (length row) :: addresses (base + length row) grid))
      with (seq base (length row) ++ mjoin (addresses (base + length row) grid)).
    rewrite length_app. intros [Hin|Hin]%elem_of_app.
    + apply elem_of_seq in Hin. lia.
    + apply IH in Hin. lia.
Qed.

Lemma resetBoardIn_sim store grid tiles :
  readGrid store grid = Ok tiles →
  resetBoardIn store grid
  = Ok (store ++ mjoin (resetBoard tiles),
        addresses (length store) (resetBoard tiles)).
Proof.
  intros Hread. unfold resetBoardIn. rewrite Hread. cbn [bind].
  by rewrite allocGrid_eq.
Qed.

(** * The properties of the specification *)

(** C3. On a board that honours the grid invariants, the row-wise extractor
    returns exactly the maximal runs of two or more consecutive occupied
    tiles of the rows, and the column-wise extractor those of the columns:
    a word is listed if and only if it is the lowercased concatenation of
    the letters of such a run, tagged with the coordinates of the run's
    first letter and with the orientation; a run is bounded on each side by
    one empty tile or by the end of the line; and the words are listed in
    increasing order of their lines and, within a line, of their starting
    index. *)
Theorem extractors_return_maximal_runs (tiles : list (list Tile.t)) :
  gridShape tiles → singleCharacters tiles →
  (∀ w, w ∈ getWordsFromTilesLTR tiles ↔
     ∃ r line pre run post,
       tiles !! r = Some line ∧ maximalRun line pre run post
       ∧ 2 ≤ length run ∧ w = rowWord r pre run)
  ∧ StronglySorted rowMajor (getWordsFromTilesLTR tiles)
  ∧ ∃ ttb,
      getWordsFromTilesTTB tiles = Ok ttb
      ∧ (∀ w, w ∈ ttb ↔
           ∃ c pre run post,
             c < width tiles ∧ maximalRun (column tiles c) pre run post
             ∧ 2 ≤ length run ∧ w = columnWord c pre run)
      ∧ StronglySorted columnMajor ttb.
Proof.
  intros Hg Hs. split_and!.
  - intros w. by apply getWordsFromTilesLTR_elem_of.
  - by apply getWordsFromTilesLTR_sorted.
  - destruct (getWordsFromTilesTTB_elem_of tiles Hg Hs) as (ttb & Httb & Hiff).
    exists ttb. split_and!; [done..|]. by eapply getWordsFromTilesTTB_sorted.
Qed.

(** C4. The boolean [validateBoard] returns is true if and only if every
    candidate word, row-wise words first and column-wise words after them,
    is in the dictionary. *)
Theorem allWordsAreValid_iff {Cursor} (dictionary : gset string)
    (board : Board.t Cursor) :
  gridShape (Board.tiles board) → singleCharacters (Board.tiles board) →
  ∃ topToBottom board' allWordsAreValid,
    getWordsFromTilesTTB (Board.tiles board) = Ok topToBottom
    ∧ validateBoard dictionary board = Ok (board', allWordsAreValid)
    ∧ (allWordsAreValid = true ↔
       Forall (inDictionary dictionary)
         (getWordsFromTilesLTR (Board.tiles board) ++ topToBottom)).
Proof.
  intros Hg Hs.
  destruct (validateBoard_total dictionary board Hg Hs) as (ttb & Httb & Hv).
  eexists ttb, _, _. split_and!; [done..|].
  rewrite forallb_forall, Forall_forall. split.
  - intros Hall w Hw%list_elem_of_In. specialize (Hall w Hw).
    by apply bool_decide_eq_true_1 in Hall.
  - intros Hall w Hw%list_elem_of_In. specialize (Hall w Hw).
    by apply bool_decide_eq_true_2.
Qed.

(** C1. After [validateBoard], every tile spanned by a candidate word that
    is not in the dictionary has state INVALID. In particular a tile where
    a row-wise word of the dictionary crosses a column-wise word that is
    not in it is VALID after the marking pass and INVALID in the returned
    board. *)
Theorem invalid_words_demote_their_tiles {Cursor} (dictionary : gset string)
    (board : Board.t Cursor) :
  gridShape (Board.tiles board) → singleCharacters (Board.tiles board) →
  ∃ topToBottom marked board' allWordsAreValid,
    getWordsFromTilesTTB (Board.tiles board) = Ok topToBottom
    ∧ forOf (filter (inDictionary dictionary)
               (getWordsFromTilesLTR (Board.tiles board) ++ topToBottom))
        (forTilesOfWord markValid (length (Board.tiles board)))
        ((λ row : list Tile.t, initTile <$> row) <$> Board.tiles board)
      = Ok marked
    ∧ validateBoard dictionary board = Ok (board', allWordsAreValid)
    ∧ (∀ w r c,
         w ∈ getWordsFromTilesLTR (Board.tiles board) ++ topToBottom →
         ¬ inDictionary dictionary w → spans w r c →
         ∃ tile, getTile (Board.tiles board') r c = Ok tile
                 ∧ Tile.state tile = INVALID)
    ∧ (∀ across down r c,
         across ∈ getWordsFromTilesLTR (Board.tiles board) →
         inDictionary dictionary across →
         down ∈ topToBottom → ¬ inDictionary dictionary down →
         spans across r c → spans down r c →
         (∃ tile, getTile marked r c = Ok tile ∧ Tile.state tile = VALID)
         ∧ (∃ tile, getTile (Board.tiles board') r c = Ok tile
                    ∧ Tile.state tile = INVALID)).
Proof.
  intros Hg Hs.
  destruct (validateBoard_total dictionary board Hg Hs) as (ttb & Httb & Hv).
  eexists ttb, _, _, _. split_and!; [done|by apply markingPass|done| |].
  - intros w r c Hw Hinv Hsp. simpl. rewrite getTile_mapGrid.
    destruct (found_spans _ _ _ _ _ Hg Hs Httb Hw Hsp) as (tile & -> & Hocc).
    eexists. split; [done|]. by eapply annotate_invalid.
  - intros across down r c Hacross Hvalid Hdown Hinv Hsp1 Hsp2.
    assert (down ∈ getWordsFromTilesLTR (Board.tiles board) ++ ttb) as Hdown'
      by (apply elem_of_app; by right).
    destruct (found_spans _ _ _ _ _ Hg Hs Httb Hdown' Hsp2) as (tile & Htile & Hocc).
    split; simpl; rewrite getTile_mapGrid, Htile; (eexists; split; [done|]).
    + rewrite passOver_markValid. rewrite decide_True; [done|].
      apply Exists_exists. exists across. split; [|done].
      apply list_elem_of_filter. split; [done|]. apply elem_of_app. by left.
    + by eapply annotate_invalid.
Qed.

(** C2. On a board that honours the grid invariants and on which no letter
    instance is referenced by two tiles, [validateWordIsland] returns, and
    returns true if and only if there is a first occupied tile in row-major
    order from which every occupied tile is reached through adjacent
    occupied tiles, that is, if and only if the occupied tiles form exactly
    one connected region. It returns false for a board without letters and
    whenever two occupied tiles are not connected. *)
Theorem validateWordIsland_single_region {Cursor} (board : Board.t Cursor) :
  gridShape (Board.tiles board) → lettersUnshared (Board.tiles board) →
  ∃ v,
    validateWordIsland board = Ok v
    ∧ (v = true ↔
       ∃ s, firstOccupied (Board.tiles board) s
            ∧ ∀ q, occupiedAt (Board.tiles board) q →
                   connected (Board.tiles board) s q)
    ∧ (v = true ↔
       (∃ p, occupiedAt (Board.tiles board) p)
       ∧ ∀ p q, occupiedAt (Board.tiles board) p →
                occupiedAt (Board.tiles board) q →
                connected (Board.tiles board) p q)
    ∧ ((∀ p, ¬ occupiedAt (Board.tiles board) p) → v = false)
    ∧ (∀ p q, occupiedAt (Board.tiles board) p →
              occupiedAt (Board.tiles board) q →
              ¬ connected (Board.tiles board) p q → v = false).
Proof.
  intros Hg Hu.
  destruct (validateWordIsland_spec (Board.tiles board) Hg board eq_refl Hu)
    as (v & Hv & Hiff).
  assert (v = true ↔
          (∃ p, occupiedAt (Board.tiles board) p)
          ∧ ∀ p q, occupiedAt (Board.tiles board) p →
                   occupiedAt (Board.tiles board) q →
                   connected (Board.tiles board) p q) as Hiff'.
  { rewrite Hiff. split.
    - intros (s & [Hs _] & Hall). split; [by exists s|].
      intros p q Hp Hq. eapply connected_trans; [|by apply Hall].
      by apply connected_sym, Hall.
    - intros [[p Hp] Hall].
      destruct (firstOccupied_exists _ p Hg Hp) as [s Hs].
      exists s. split; [done|]. intros q Hq. apply Hall; [apply Hs|done]. }
  exists v. split_and!; [done..| |].
  - intros Hnone. destruct v; [|done]. exfalso.
    destruct Hiff' as [[[p Hp] _] _]; [done|]. by eapply Hnone.
  - intros p q Hp Hq Hnot. destruct v; [|done]. exfalso.
    apply Hnot. by apply Hiff'.
Qed.

(** C5. [validateBoard] does not mutate its input. With the tile objects
    in a store, a call leaves every object that was in the store as it was,
    so the input board reads as before; the board it returns has the cursor
    of the input and, at every position, a tile with the id, the row, the
    column and the letter of the input tile, in a grid of the same shape:
    only the states differ. The tiles read from the store afterwards are
    those [validateBoard] computes on the values. On a board that honours
    the grid invariants the function returns. *)
Theorem validateBoard_changes_states_only {Cursor} (dictionary : gset string)
    (store : list Tile.t) (board : RefBoard.t Cursor) (tiles : list (list Tile.t)) :
  readGrid store (RefBoard.tiles board) = Ok tiles →
  (∀ store' board' allWordsAreValid,
     validateBoardIn dictionary store board = Ok (store', board', allWordsAreValid) →
     (∀ ref tile, store !! ref = Some tile → store' !! ref = Some tile)
     ∧ readGrid store' (RefBoard.tiles board) = Ok tiles
     ∧ RefBoard.cursor board' = RefBoard.cursor board
     ∧ ∃ tiles',
         readGrid store' (RefBoard.tiles board') = Ok tiles'
         ∧ validateBoard dictionary (Board.mk (RefBoard.cursor board) tiles)
           = Ok (Board.mk (RefBoard.cursor board) tiles', allWordsAreValid)
         ∧ length tiles' = length tiles
         ∧ (∀ r line, tiles !! r = Some line →
              ∃ line', tiles' !! r = Some line' ∧ length line' = length line)
         ∧ (∀ r c tile, getTile tiles r c = Ok tile →
              ∃ tile', getTile tiles' r c = Ok tile'
                       ∧ Tile.id tile' = Tile.id tile
                       ∧ Tile.row tile' = Tile.row tile
                       ∧ Tile.col tile' = Tile.col tile
                       ∧ Tile.letter tile' = Tile.letter tile))
  ∧ (gridShape tiles → singleCharacters tiles →
     ∃ store' board' allWordsAreValid,
       validateBoardIn dictionary store board
       = Ok (store', board', allWordsAreValid)).
Proof.
  intros Hread. pose proof (validateBoardIn_sim dictionary store board tiles Hread)
    as Hsim.
  split.
  - intros store' board' v Hin.
    destruct (validateBoard dictionary (Board.mk (RefBoard.cursor board) tiles))
      as [[vboard v']|] eqn:Hv; [|congruence].
    rewrite Hsim in Hin. injection Hin as <- <- <-.
    destruct (validateBoard_writes_states _ _ _ _ Hv) as [Hc Ht].
    destruct (resetGrid_shape _ _ Ht) as [Hlen Hrows].
    split_and!.
    + intros ref tile Href. by apply lookup_app_l_Some.
    + by apply readGrid_frame.
    + done.
    + exists (Board.tiles vboard). split_and!; [|by destruct vboard; simplify_eq/=|done..|].
      * apply readGrid_addresses.
      * intros r c tile Hget.
        destruct (resetGrid_getTile _ _ _ _ _ Ht Hget) as (tile' & Hget' & Heq).
        exists tile'. split; [done|]. by apply resetTile_fields.
  - intros Hg Hs.
    destruct (validateBoard_total dictionary (Board.mk (RefBoard.cursor board) tiles)
                Hg Hs) as (ttb & _ & Hv).
    rewrite Hv in Hsim. eauto.
Qed.

(** C6. [validateBoard] is idempotent: run on the board it returned, it
    returns that board and the same boolean again. On a board that honours
    the grid invariants the function returns. *)
Theorem validateBoard_is_idempotent {Cursor} (dictionary : gset string)
    (board : Board.t Cursor) :
  (∀ board' allWordsAreValid,
     validateBoard dictionary board = Ok (board', allWordsAreValid) →
     validateBoard dictionary board' = Ok (board', allWordsAreValid))
  ∧ (gridShape (Board.tiles board) → singleCharacters (Board.tiles board) →
     ∃ board' allWordsAreValid,
       validateBoard dictionary board = Ok (board', allWordsAreValid)
       ∧ validateBoard dictionary board' = Ok (board', allWordsAreValid)).
Proof.
  split.
  - intros board' v Hv. by eapply validateBoard_idempotent.
  - intros Hg Hs.
    destruct (validateBoard_total dictionary board Hg Hs) as (ttb & _ & Hv).
    eexists _, _. split; [exact Hv|]. by eapply validateBoard_idempotent.
Qed.

(** C7. In the marking pass and in the demotion pass, the loop over the
    tiles of a column-wise word never throws, whatever the row and the
    length of the word: the rows past the last row of the grid are skipped,
    the grid keeps its shape, and exactly the tiles of the grid that the
    word spans are written. *)
Theorem column_words_stay_in_grid (cols : nat) (tiles : list (list Tile.t))
    (word : WordFromTile.t) (f : TileState → TileState) :
  f = markValid ∨ f = markMixed →
  rectangular cols tiles →
  WordFromTile.direction word = TopToBottom → WordFromTile.col word < cols →
  ∃ tiles',
    forTilesOfWord f (length tiles) word tiles = Ok tiles'
    ∧ length tiles' = length tiles
    ∧ rectangular cols tiles'
    ∧ ∀ r c,
        getTile tiles' r c
        = match getTile tiles r c with
          | Ok tile => Ok (if decide (spans word r c) then touch f tile else tile)
          | Err e => Err e
          end.
Proof.
  intros _ Hrect Hdir Hcol.
  rewrite (forTilesOfWord_mapGrid f cols) by (unfold inRange; by rewrite ?Hdir).
  eexists. split_and!; [done|by rewrite length_mapGrid|by apply rectangular_mapGrid|].
  intros r c. by rewrite getTile_mapGrid.
Qed.

(** C8. When [validateWordIsland] returns false, [requestFinish] leaves the
    board of the state as it is and reports "Invalid tiles", whatever
    [validateBoard] would do: it is not called. This is so for a board
    without letters and for a board with two occupied tiles that are not
    connected. *)
Theorem requestFinish_gated_by_island_check {Cursor} (dictionary : gset string)
    (board : Board.t Cursor) :
  (validateWordIsland board = Ok false →
     requestFinish dictionary board = Ok (board, ["Invalid tiles"])
     ∧ ∀ validateBoard',
         requestFinishWith validateWordIsland validateBoard' board
         = Ok (board, ["Invalid tiles"]))
  ∧ (gridShape (Board.tiles board) → lettersUnshared (Board.tiles board) →
     (∀ p, ¬ occupiedAt (Board.tiles board) p)
     ∨ (∃ p q, occupiedAt (Board.tiles board) p ∧ occupiedAt (Board.tiles board) q
               ∧ ¬ connected (Board.tiles board) p q) →
     validateWordIsland board = Ok false
     ∧ requestFinish dictionary board = Ok (board, ["Invalid tiles"])).
Proof.
  assert (validateWordIsland board = Ok false →
          ∀ validateBoard',
            requestFinishWith validateWordIsland validateBoard' board
            = Ok (board, ["Invalid tiles"])) as Hgate.
  { intros Hfalse vb. unfold requestFinishWith. by rewrite Hfalse. }
  split.
  - intros Hfalse. split; [by apply Hgate|by apply Hgate].
  - intros Hg Hu Hcase.
    destruct (validateWordIsland_spec (Board.tiles board) Hg board eq_refl Hu)
      as (v & Hv & Hiff).
    assert (v = false) as ->.
    { destruct v; [|done]. exfalso.
      destruct Hiff as [(s & [Hs _] & Hall) _]; [done|].
      destruct Hcase as [Hnone|(p & q & Hp & Hq & Hnot)]; [by eapply Hnone|].
      apply Hnot. eapply connected_trans; [|by apply Hall].
      by apply connected_sym, Hall. }
    split; [done|]. by apply Hgate.
Qed.

(** C9. On a board on which no two occupied tiles are next to each other,
    so that no row and no column has a run of two letters, there is no
    candidate word, [validateBoard] returns true, every tile with a letter
    is INVALID in the returned board and no tile is VALID. *)
Theorem no_words_all_valid_none_marked {Cursor} (dictionary : gset string)
    (board : Board.t Cursor) :
  gridShape (Board.tiles board) → singleCharacters (Board.tiles board) →
  (∀ p q, occupiedAt (Board.tiles board) p → occupiedAt (Board.tiles board) q →
          ¬ adjacent p q) →
  getWordsFromTilesLTR (Board.tiles board) = []
  ∧ getWordsFromTilesTTB (Board.tiles board) = Ok []
  ∧ ∃ board',
      validateBoard dictionary board = Ok (board', true)
      ∧ ∀ tile, tile ∈ mjoin (Board.tiles board') →
          (Tile.letter tile ≠ None → Tile.state tile = INVALID)
          ∧ Tile.state tile ≠ VALID.
Proof.
  intros Hg Hs Hno.
  destruct (no_runs_no_words _ Hg Hs Hno) as [Hltr Httb].
  split_and!; [done..|].
  destruct (validateBoard_total dictionary board Hg Hs) as (ttb & Httb' & Hv).
  rewrite Httb in Httb'. injection Httb' as <-. rewrite Hltr in Hv.
  eexists. split; [exact Hv|]. simpl.
  intros tile (r & c & tile0 & _ & ->)%elem_of_mapGrid.
  rewrite annotate_nil. unfold initTile.
  destruct (Tile.letter tile0) eqn:E; simpl; rewrite ?E; split; done.
Qed.

(** C10. No tile of the board [validateBoard] returns is MIXED: a tile is
    IDLE, VALID or INVALID, and IDLE exactly when it has no letter. With
    unique tile ids, [countValidLettersOnBoard] of that board is the number
    of its tiles whose state is VALID. *)
Theorem validateBoard_never_mixed {Cursor} (dictionary : gset string)
    (board : Board.t Cursor) :
  gridShape (Board.tiles board) → singleCharacters (Board.tiles board) →
  uniqueTileIds (Board.tiles board) →
  ∃ board' allWordsAreValid,
    validateBoard dictionary board = Ok (board', allWordsAreValid)
    ∧ (∀ tile, tile ∈ mjoin (Board.tiles board') →
         (Tile.state tile = IDLE ∨ Tile.state tile = VALID
          ∨ Tile.state tile = INVALID)
         ∧ (Tile.state tile = IDLE ↔ Tile.letter tile = None))
    ∧ countValidLettersOnBoard board'
      = length (filter (λ tile, Tile.state tile = VALID)
                  (mjoin (Board.tiles board'))).
Proof.
  intros Hg Hs Hids.
  destruct (validateBoard_total dictionary board Hg Hs) as (ttb & Httb & Hv).
  eexists _, _. split; [exact Hv|].
  match type of Hv with _ = Ok (?b, _) => set (board' := b) in * end.
  assert (∀ tile, tile ∈ mjoin (Board.tiles board') →
            (Tile.state tile = IDLE ∨ Tile.state tile = VALID
             ∨ Tile.state tile = INVALID)
            ∧ (Tile.state tile = IDLE ↔ Tile.letter tile = None)) as Hstates.
  { intros tile (r & c & tile0 & Hget & ->)%elem_of_mapGrid.
    destruct (annotate_fields dictionary
                (getWordsFromTilesLTR (Board.tiles board) ++ ttb) r c tile0)
      as (_ & _ & _ & ->).
    destruct (decide (occupied tile0)) as [Hocc|Hfree].
    - rewrite annotate_occupied by done. unfold occupied in Hocc.
      case_decide; split; auto; split; intros; congruence.
    - rewrite annotate_free; [| done |].
      + split; [auto|]. split; [|done]. intros _. unfold occupied in Hfree.
        by destruct (Tile.letter tile0); [destruct Hfree|].
      + intros w Hw Hsp.
        destruct (found_spans _ _ _ _ _ Hg Hs Httb Hw Hsp) as (tile & Htile & Hocc).
        rewrite Hget in Htile. injection Htile as <-. done. }
  split; [done|].
  unfold countValidLettersOnBoard, countValidTiles.
  rewrite join_fmap_filter.
  rewrite size_list_to_set, length_fmap.
  - f_equal. apply filter_ext_in. intros tile Htile.
    destruct (Hstates tile Htile) as [Hst _]. split; [|auto].
    intros [|Hmixed]; [done|]. rewrite Hmixed in Hst.
    by destruct Hst as [?|[?|?]].
  - eapply sublist_NoDup; [|apply fmap_sublist, sublist_filter].
    destruct (validateBoard_writes_states _ _ _ _ Hv) as [_ Hreset].
    by rewrite (resetGrid_ids _ _ Hreset).
Qed.

(** * The example boards *)

Ltac elem_cases H :=
  repeat (apply elem_of_cons in H as [->|H]); [..|by apply elem_of_nil in H].

Ltac solve_gridShape :=
  split;
  [ done
  | intros line Hin; simpl in Hin; elem_cases Hin; done
  | intros [|[|[|r]]] [|[|[|c]]] tile; unfold getTile; simpl;
    intros [= <-]; done ].

Ltac solve_singleCharacters :=
  intros tile l Hin Hl; simpl in Hin; elem_cases Hin;
  simpl in Hl; simplify_eq; done.

Ltac solve_NoDup := apply (bool_decide_unpack _); vm_compute; exact I.

Lemma crossingBoard_gridShape : gridShape (Board.tiles crossingBoard).
Proof. solve_gridShape. Qed.

Lemma crossingBoard_singleCharacters : singleCharacters (Board.tiles crossingBoard).
Proof. solve_singleCharacters. Qed.

Lemma crossingBoard_uniqueTileIds : uniqueTileIds (Board.tiles crossingBoard).
Proof. solve_NoDup. Qed.

Lemma crossingBoard_lettersUnshared : lettersUnshared (Board.tiles crossingBoard).
Proof. solve_NoDup. Qed.

Lemma scatteredBoard_gridShape : gridShape (Board.tiles scatteredBoard).
Proof. solve_gridShape. Qed.

Lemma scatteredBoard_singleCharacters : singleCharacters (Board.tiles scatteredBoard).
Proof. solve_singleCharacters. Qed.

Lemma scatteredBoard_lettersUnshared : lettersUnshared (Board.tiles scatteredBoard).
Proof. solve_NoDup. Qed.

Lemma blankBoard_gridShape : gridShape (Board.tiles blankBoard).
Proof. solve_gridShape. Qed.

Lemma blankBoard_lettersUnshared : lettersUnshared (Board.tiles blankBoard).
Proof. solve_NoDup. Qed.

Lemma crossingBoard_rectangular : rectangular 3 (Board.tiles crossingBoard).
Proof. repeat constructor. Qed.

(** * Instances of the properties on the example boards *)

Lemma invalid_words_demote_their_tiles_witness :
  gridShape (Board.tiles crossingBoard)
  ∧ singleCharacters (Board.tiles crossingBoard)
  ∧ ∃ board' v,
      validateBoard catDictionary crossingBoard = Ok (board', v)
      ∧ ∃ tile, getTile (Board.tiles board') 0 0 = Ok tile
                ∧ Tile.state tile = INVALID.
Proof.
  split_and!; [exact crossingBoard_gridShape|exact crossingBoard_singleCharacters|].
  destruct (invalid_words_demote_their_tiles catDictionary crossingBoard
              crossingBoard_gridShape crossingBoard_singleCharacters)
    as (ttb & marked & board' & v & Httb & _ & Hv & Hdemote & _).
  exists board', v. split; [exact Hv|].
  apply (Hdemote (WordFromTile.mk "cot" 0 0 TopToBottom)).
  - vm_compute in Httb. injection Httb as <-. apply elem_of_app. right. left.
  - unfold inDictionary, catDictionary. simpl. set_solver.
  - unfold spans. simpl. lia.
Defined.

Lemma validateWordIsland_single_region_witness :
  gridShape (Board.tiles crossingBoard)
  ∧ lettersUnshared (Board.tiles crossingBoard)
  ∧ validateWordIsland crossingBoard = Ok true
  ∧ ∃ s, firstOccupied (Board.tiles crossingBoard) s
         ∧ ∀ q, occupiedAt (Board.tiles crossingBoard) q →
                connected (Board.tiles crossingBoard) s q.
Proof.
  split_and!; [exact crossingBoard_gridShape|exact crossingBoard_lettersUnshared
              |reflexivity|].
  destruct (validateWordIsland_single_region crossingBoard
              crossingBoard_gridShape crossingBoard_lettersUnshared)
    as (v & Hv & Hiff & _).
  vm_compute in Hv. injection Hv as <-. by apply Hiff.
Defined.

Lemma extractors_return_maximal_runs_witness :
  gridShape (Board.tiles crossingBoard)
  ∧ singleCharacters (Board.tiles crossingBoard)
  ∧ ∃ r line pre run post,
      Board.tiles crossingBoard !! r = Some line
      ∧ maximalRun line pre run post ∧ 2 ≤ length run
      ∧ WordFromTile.mk "cat" 0 0 LeftToRight = rowWord r pre run.
Proof.
  split_and!; [exact crossingBoard_gridShape|exact crossingBoard_singleCharacters|].
  destruct (extractors_return_maximal_runs (Board.tiles crossingBoard)
              crossingBoard_gridShape crossingBoard_singleCharacters)
    as (Hltr & _).
  apply Hltr.
  replace (getWordsFromTilesLTR (Board.tiles crossingBoard))
    with [WordFromTile.mk "cat" 0 0 LeftToRight] by reflexivity.
  left.
Defined.

Lemma allWordsAreValid_iff_witness :
  gridShape (Board.tiles crossingBoard)
  ∧ singleCharacters (Board.tiles crossingBoard)
  ∧ ∃ topToBottom board' allWordsAreValid,
      getWordsFromTilesTTB (Board.tiles crossingBoard) = Ok topToBottom
      ∧ validateBoard catDictionary crossingBoard = Ok (board', allWordsAreValid)
      ∧ (allWordsAreValid = true ↔
         Forall (inDictionary catDictionary)
           (getWordsFromTilesLTR (Board.tiles crossingBoard) ++ topToBottom)).
Proof.
  split_and!; [exact crossingBoard_gridShape|exact crossingBoard_singleCharacters|].
  apply allWordsAreValid_iff;
    [exact crossingBoard_gridShape|exact crossingBoard_singleCharacters].
Defined.

Lemma validateBoard_changes_states_only_witness :
  readGrid crossingStore (RefBoard.tiles crossingRefBoard)
  = Ok (Board.tiles crossingBoard)
  ∧ gridShape (Board.tiles crossingBoard)
  ∧ singleCharacters (Board.tiles crossingBoard)
  ∧ ∃ store' board' v,
      validateBoardIn catDictionary crossingStore crossingRefBoard
      = Ok (store', board', v)
      ∧ readGrid store' (RefBoard.tiles crossingRefBoard)
        = Ok (Board.tiles crossingBoard)
      ∧ RefBoard.cursor board' = ().
Proof.
  split_and!; [reflexivity|exact crossingBoard_gridShape
              |exact crossingBoard_singleCharacters|].
  destruct (validateBoard_changes_states_only catDictionary crossingStore
              crossingRefBoard (Board.tiles crossingBoard) eq_refl)
    as [Hframe Hreturns].
  destruct (Hreturns crossingBoard_gridShape crossingBoard_singleCharacters)
    as (store' & board' & v & Hv).
  destruct (Hframe store' board' v Hv) as (_ & Hinput & Hcursor & _).
  exists store', board', v. split_and!; [exact Hv|exact Hinput|exact Hcursor].
Defined.

Lemma validateBoard_is_idempotent_witness :
  gridShape (Board.tiles crossingBoard)
  ∧ singleCharacters (Board.tiles crossingBoard)
  ∧ ∃ board' v,
      validateBoard catDictionary crossingBoard = Ok (board', v)
      ∧ validateBoard catDictionary board' = Ok (board', v).
Proof.
  split_and!; [exact crossingBoard_gridShape|exact crossingBoard_singleCharacters|].
  destruct (validateBoard_is_idempotent catDictionary crossingBoard)
    as [_ Hboth].
  exact (Hboth crossingBoard_gridShape crossingBoard_singleCharacters).
Defined.

Lemma column_words_stay_in_grid_witness :
  rectangular 3 (Board.tiles crossingBoard)
  ∧ WordFromTile.direction overlongWord = TopToBottom
  ∧ WordFromTile.col overlongWord < 3
  ∧ length (Board.tiles crossingBoard)
    < WordFromTile.row overlongWord + String.length (WordFromTile.word overlongWord)
  ∧ ∃ tiles',
      forTilesOfWord markMixed 3 overlongWord (Board.tiles crossingBoard) = Ok tiles'
      ∧ length tiles' = 3.
Proof.
  split_and!; [exact crossingBoard_rectangular|reflexivity|simpl; lia|simpl; lia|].
  destruct (column_words_stay_in_grid 3 (Board.tiles crossingBoard) overlongWord
              markMixed (or_intror eq_refl) crossingBoard_rectangular eq_refl)
    as (tiles' & Hloop & Hlen & _); [simpl; lia|].
  exists tiles'. split; [exact Hloop|exact Hlen].
Defined.

Lemma requestFinish_gated_by_island_check_witness :
  validateWordIsland blankBoard = Ok false
  ∧ requestFinish catDictionary blankBoard = Ok (blankBoard, ["Invalid tiles"])
  ∧ validateWordIsland scatteredBoard = Ok false
  ∧ requestFinish catDictionary scatteredBoard
    = Ok (scatteredBoard, ["Invalid tiles"]).
Proof.
  destruct (requestFinish_gated_by_island_check catDictionary blankBoard)
    as [Hblank _].
  destruct (requestFinish_gated_by_island_check catDictionary scatteredBoard)
    as [Hscattered _].
  split_and!; [reflexivity|by apply Hblank|reflexivity|by apply Hscattered].
Defined.

Lemma scatteredBoard_no_neighbours p q :
  occupiedAt (Board.tiles scatteredBoard) p →
  occupiedAt (Board.tiles scatteredBoard) q → ¬ adjacent p q.
Proof.
  assert (∀ p, occupiedAt (Board.tiles scatteredBoard) p → p = (0, 0) ∨ p = (2, 2))
    as Hocc.
  { intros [r c] (tile & Hget & Htile). unfold getTile in Hget. simpl in Hget.
    destruct r as [|[|[|r]]], c as [|[|[|c]]]; simpl in Hget; simplify_eq;
      auto; by destruct Htile. }
  intros [-> | ->]%Hocc [-> | ->]%Hocc; unfold adjacent; simpl; lia.
Qed.

Lemma no_words_all_valid_none_marked_witness :
  gridShape (Board.tiles scatteredBoard)
  ∧ singleCharacters (Board.tiles scatteredBoard)
  ∧ getWordsFromTilesLTR (Board.tiles scatteredBoard) = []
  ∧ getWordsFromTilesTTB (Board.tiles scatteredBoard) = Ok []
  ∧ ∃ board',
      validateBoard catDictionary scatteredBoard = Ok (board', true)
      ∧ ∀ tile, tile ∈ mjoin (Board.tiles board') →
          (Tile.letter tile ≠ None → Tile.state tile = INVALID)
          ∧ Tile.state tile ≠ VALID.
Proof.
  split_and!; [exact scatteredBoard_gridShape|exact scatteredBoard_singleCharacters|..];
    apply (no_words_all_valid_none_marked catDictionary scatteredBoard
             scatteredBoard_gridShape scatteredBoard_singleCharacters
             scatteredBoard_no_neighbours).
Defined.

Lemma validateBoard_never_mixed_witness :
  gridShape (Board.tiles crossingBoard)
  ∧ singleCharacters (Board.tiles crossingBoard)
  ∧ uniqueTileIds (Board.tiles crossingBoard)
  ∧ ∃ board' v,
      validateBoard catDictionary crossingBoard = Ok (board', v)
      ∧ countValidLettersOnBoard board' = 2
      ∧ length (filter (λ tile, Tile.state tile = VALID)
                  (mjoin (Board.tiles board'))) = 2.
Proof.
  split_and!; [exact crossingBoard_gridShape|exact crossingBoard_singleCharacters
              |exact crossingBoard_uniqueTileIds|].
  destruct (validateBoard_never_mixed catDictionary crossingBoard
              crossingBoard_gridShape crossingBoard_singleCharacters
              crossingBoard_uniqueTileIds)
    as (board' & v & Hv & _ & Hcount).
  exists board', v. split; [exact Hv|].
  vm_compute in Hv. injection Hv as <- <-. rewrite Hcount. split; reflexivity.
Defined.

(** * Further properties of the code *)

(** X1. [findAnyTile] returns [null] exactly when no tile of the grid bears
    a letter; otherwise it returns a tile of the grid that bears a letter
    and that no tile with a letter precedes in row-major order. *)
Theorem findAnyTile_first_in_row_major (tiles : list (list Tile.t)) :
  match findAnyTile tiles with
  | None => ∀ tile, tile ∈ mjoin tiles → Tile.letter tile = None
  | Some s =>
      ∃ r c,
        getTile tiles r c = Ok s ∧ Tile.letter s ≠ None
        ∧ ∀ r' c' tile,
            getTile tiles r' c' = Ok tile → Tile.letter tile ≠ None →
            rowMajorLe (r, c) (r', c')
  end.
Proof.
  destruct (findAnyTile tiles) as [s|] eqn:Hfind.
  - by apply findAnyTile_Some.
  - intros tile Htile. destruct (Tile.letter tile) eqn:E; [|done]. exfalso.
    eapply findAnyTile_None; [done..|]. unfold occupied. congruence.
Qed.

Lemma findAnyTile_first_in_row_major_witness :
  ∃ s,
    findAnyTile (Board.tiles crossingBoard) = Some s
    ∧ ∃ r c,
        getTile (Board.tiles crossingBoard) r c = Ok s ∧ Tile.letter s ≠ None
        ∧ ∀ r' c' tile,
            getTile (Board.tiles crossingBoard) r' c' = Ok tile →
            Tile.letter tile ≠ None → rowMajorLe (r, c) (r', c').
Proof.
  pose proof (findAnyTile_first_in_row_major (Board.tiles crossingBoard)) as H.
  destruct (findAnyTile (Board.tiles crossingBoard)) as [s|] eqn:E;
    [|vm_compute in E; discriminate E].
  exists s. split; [reflexivity|exact H].
Defined.

(** X2. [countLettersOnBoard] counts letter instances, not tiles: it is at
    most the number of tiles with a letter, equal to it exactly when no
    letter instance is on two tiles, and zero exactly when the board has no
    letter. *)
Theorem countLettersOnBoard_counts_instances {Cursor} (board : Board.t Cursor) :
  countLettersOnBoard board ≤ length (filter occupied (mjoin (Board.tiles board)))
  ∧ (countLettersOnBoard board
     = length (filter occupied (mjoin (Board.tiles board)))
     ↔ lettersUnshared (Board.tiles board))
  ∧ (countLettersOnBoard board = 0 ↔
     ∀ tile, tile ∈ mjoin (Board.tiles board) → Tile.letter tile = None).
Proof.
  unfold countLettersOnBoard, countFilledTiles, lettersUnshared.
  rewrite join_fmap_fmap, omap_id_fmap.
  rewrite <-length_omap_letter, <-(length_fmap Letter.ref).
  split_and!.
  - apply size_list_to_set_le.
  - apply size_list_to_set_NoDup.
  - rewrite <-letterless_filter. split.
    + intros Hzero%size_empty_inv.
      destruct (filter occupied (mjoin (Board.tiles board))) as [|tile l] eqn:E;
        [done|]. exfalso.
      assert (tile ∈ filter occupied (mjoin (Board.tiles board))) as Hin
        by (rewrite E; left).
      apply list_elem_of_filter in Hin as [Hocc Hin]. unfold occupied in Hocc.
      destruct (Tile.letter tile) as [l0|] eqn:El; [|done].
      assert (Letter.ref l0
              ∈ list_to_set (C := gset nat)
                  (Letter.ref <$> omap Tile.letter (mjoin (Board.tiles board))))
        as Href.
      { apply elem_of_list_to_set, list_elem_of_fmap. exists l0. split; [done|].
        apply list_elem_of_omap. eauto. }
      rewrite Hzero in Href. set_solver.
    + intros Hnil.
      assert (omap Tile.letter (mjoin (Board.tiles board)) = []) as ->.
      { apply length_zero_iff_nil. rewrite length_omap_letter, Hnil. done. }
      done.
Qed.



(** X4. On a grid that honours the grid invariants, without any assumption
    on the letters, [validateWordIsland] returns false when no tile has a
    letter, and otherwise compares the number of tiles connected to the
    first tile with a letter to [countLettersOnBoard]. *)
Theorem validateWordIsland_compares_component {Cursor} (board : Board.t Cursor) :
  gridShape (Board.tiles board) →
  match findAnyTile (Board.tiles board) with
  | None => validateWordIsland board = Ok false
  | Some s =>
      ∃ visited,
        component (Board.tiles board) (posOf s) visited
        ∧ validateWordIsland board
          = Ok (bool_decide (length visited = countLettersOnBoard board))
  end.
Proof.
  intros Hg. destruct (findAnyTile (Board.tiles board)) as [s|] eqn:Hfind.
  - by apply validateWordIsland_component.
  - unfold validateWordIsland. rewrite firstRowLength_width by apply Hg.
    cbn [bind]. by rewrite Hfind.
Qed.

Lemma sharedLetterBoard_gridShape : gridShape (Board.tiles sharedLetterBoard).
Proof. solve_gridShape. Qed.

Lemma validateWordIsland_compares_component_witness :
  gridShape (Board.tiles sharedLetterBoard)
  ∧ ∃ visited,
      component (Board.tiles sharedLetterBoard) (0, 0) visited
      ∧ validateWordIsland sharedLetterBoard
        = Ok (bool_decide (length visited = countLettersOnBoard sharedLetterBoard)).
Proof.
  split; [exact sharedLetterBoard_gridShape|].
  exact (validateWordIsland_compares_component sharedLetterBoard
           sharedLetterBoard_gridShape).
Defined.

(** X5. A grid without rows makes [validateWordIsland] and [validateBoard]
    throw a [TypeError]; a grid with a row shorter than the first row makes
    the column-wise extractor, and so [validateBoard], throw one. *)
Theorem short_grids_throw {Cursor} (dictionary : gset string)
    (board : Board.t Cursor) :
  (Board.tiles board = [] →
   validateWordIsland board = Err TypeError
   ∧ validateBoard dictionary board = Err TypeError)
  ∧ (∀ r line,
       Board.tiles board !! r = Some line →
       length line < width (Board.tiles board) →
       getWordsFromTilesTTB (Board.tiles board) = Err TypeError
       ∧ validateBoard dictionary board = Err TypeError).
Proof.
  split.
  - intros Hnil. unfold validateWordIsland, validateBoard. by rewrite Hnil.
  - intros r line Hr Hlen.
    pose proof (getWordsFromTilesTTB_jagged _ _ _ Hr Hlen) as Httb.
    split; [done|]. unfold validateBoard. by rewrite Httb.
Qed.

Lemma short_grids_throw_witness :
  Board.tiles jaggedBoard !! 1 = Some [emptyTile "t10" 1 0]
  ∧ length [emptyTile "t10" 1 0] < width (Board.tiles jaggedBoard)
  ∧ getWordsFromTilesTTB (Board.tiles jaggedBoard) = Err TypeError
  ∧ validateBoard catDictionary jaggedBoard = Err TypeError.
Proof.
  split_and!; [reflexivity|unfold width; simpl; lia|..];
    apply (short_grids_throw catDictionary jaggedBoard) with (r := 1)
      (line := [emptyTile "t10" 1 0]);
    (reflexivity || (unfold width; simpl; lia)).
Defined.

(** X6. Whatever the grid, a candidate word has at least two characters, is
    in lower case and carries the orientation of its extractor. So
    [validateBoard] does not depend on the dictionary entries that are
    shorter or not in lower case. *)
Theorem candidate_words_are_lowercase {Cursor} (board : Board.t Cursor) :
  (∀ w, w ∈ getWordsFromTilesLTR (Board.tiles board) →
        WordFromTile.direction w = LeftToRight
        ∧ 1 < String.length (WordFromTile.word w)
        ∧ toLowerCase (WordFromTile.word w) = WordFromTile.word w)
  ∧ (∀ topToBottom w,
       getWordsFromTilesTTB (Board.tiles board) = Ok topToBottom →
       w ∈ topToBottom →
       WordFromTile.direction w = TopToBottom
       ∧ 1 < String.length (WordFromTile.word w)
       ∧ toLowerCase (WordFromTile.word w) = WordFromTile.word w)
  ∧ (∀ d1 d2 : gset string,
       (∀ s, 1 < String.length s → toLowerCase s = s → s ∈ d1 ↔ s ∈ d2) →
       validateBoard d1 board = validateBoard d2 board).
Proof.
  assert (∀ w, w ∈ getWordsFromTilesLTR (Board.tiles board) →
               WordFromTile.direction w = LeftToRight
               ∧ 1 < String.length (WordFromTile.word w)
               ∧ toLowerCase (WordFromTile.word w) = WordFromTile.word w) as Hltr.
  { intros w Hw. split; [by eapply getWordsFromTilesLTR_direction|].
    apply finishWords_facts in Hw as (? & ? & _). done. }
  assert (∀ ttb w,
            getWordsFromTilesTTB (Board.tiles board) = Ok ttb → w ∈ ttb →
            WordFromTile.direction w = TopToBottom
            ∧ 1 < String.length (WordFromTile.word w)
            ∧ toLowerCase (WordFromTile.word w) = WordFromTile.word w) as Httb.
  { intros ttb w Hok Hw. split; [by eapply getWordsFromTilesTTB_direction|].
    unfold getWordsFromTilesTTB in Hok.
    apply bind_Ok in Hok as (cols & _ & (words & _ & [= <-])%bind_Ok).
    apply finishWords_facts in Hw as (? & ? & _). done. }
  split_and!; [done..|].
  intros d1 d2 Hd. apply validateBoard_dictionary_ext.
  intros ttb w Hok [Hw|Hw]%elem_of_app; unfold inDictionary; apply Hd.
  - by apply Hltr.
  - by apply Hltr.
  - by eapply Httb.
  - by eapply Httb.
Qed.

Lemma candidate_words_are_lowercase_witness :
  WordFromTile.mk "cat" 0 0 LeftToRight
    ∈ getWordsFromTilesLTR (Board.tiles crossingBoard)
  ∧ toLowerCase "cat" = "cat"
  ∧ validateBoard catDictionary crossingBoard
    = validateBoard ({[ "cat"; "CAT"; "c" ]} : gset string) crossingBoard.
Proof.
  destruct (candidate_words_are_lowercase crossingBoard) as (Hltr & _ & Hdict).
  assert (WordFromTile.mk "cat" 0 0 LeftToRight
            ∈ getWordsFromTilesLTR (Board.tiles crossingBoard)) as Hin.
  { replace (getWordsFromTilesLTR (Board.tiles crossingBoard))
      with [WordFromTile.mk "cat" 0 0 LeftToRight] by reflexivity.
    left. }
  split_and!; [exact Hin|exact (proj2 (proj2 (Hltr _ Hin)))|].
  apply Hdict. intros s Hlen Hlow. unfold catDictionary.
  rewrite !elem_of_union, !elem_of_singleton. split; [tauto|].
  intros [[->| ->]| ->]; [done|discriminate Hlow|simpl in Hlen; lia].
Defined.

(** X7. [validateBoard] does not read the states of the tiles: on two
    boards with the same cursor whose grids differ in the states only it
    gives the same result. *)
Theorem validateBoard_ignores_states {Cursor} (dictionary : gset string)
    (cursor : Cursor) (tiles1 tiles2 : list (list Tile.t)) :
  resetGrid tiles1 = resetGrid tiles2 →
  validateBoard dictionary (Board.mk cursor tiles1)
  = validateBoard dictionary (Board.mk cursor tiles2).
Proof.
  intros Heq.
  by rewrite <-(validateBoard_reset _ _ tiles1), Heq, validateBoard_reset.
Qed.

Lemma validateBoard_ignores_states_witness :
  resetGrid (Board.tiles crossingBoard)
  = resetGrid (mapGrid (λ _ _ tile, Tile.withState tile VALID)
                 (Board.tiles crossingBoard))
  ∧ validateBoard catDictionary crossingBoard
    = validateBoard catDictionary
        (Board.mk () (mapGrid (λ _ _ tile, Tile.withState tile VALID)
                        (Board.tiles crossingBoard))).
Proof.
  split; [reflexivity|].
  apply (validateBoard_ignores_states catDictionary ()
           (Board.tiles crossingBoard)). reflexivity.
Defined.

(** X8. On a board that honours the grid invariants, a tile of the board
    [validateBoard] returns is VALID exactly when some candidate word spans
    it and every candidate word that spans it is in the dictionary. *)
Theorem valid_tiles_characterised {Cursor} (dictionary : gset string)
    (board : Board.t Cursor) :
  gridShape (Board.tiles board) → singleCharacters (Board.tiles board) →
  ∃ topToBottom board' allWordsAreValid,
    getWordsFromTilesTTB (Board.tiles board) = Ok topToBottom
    ∧ validateBoard dictionary board = Ok (board', allWordsAreValid)
    ∧ ∀ r c tile',
        getTile (Board.tiles board') r c = Ok tile' →
        Tile.state tile' = VALID
        ↔ covered (getWordsFromTilesLTR (Board.tiles board) ++ topToBottom) r c
          ∧ ∀ w, w ∈ getWordsFromTilesLTR (Board.tiles board) ++ topToBottom →
                 spans w r c → inDictionary dictionary w.
Proof.
  intros Hg Hs.
  destruct (validateBoard_total dictionary board Hg Hs) as (ttb & Httb & Hv).
  eexists ttb, _, _. split_and!; [done..|]. simpl. intros r c tile'.
  rewrite getTile_mapGrid.
  destruct (getTile (Board.tiles board) r c) as [tile|] eqn:Hget; [|done].
  intros [= <-]. by apply annotate_state.
Qed.

Lemma valid_tiles_characterised_witness :
  gridShape (Board.tiles crossingBoard)
  ∧ singleCharacters (Board.tiles crossingBoard)
  ∧ ∃ topToBottom board' allWordsAreValid,
      getWordsFromTilesTTB (Board.tiles crossingBoard) = Ok topToBottom
      ∧ validateBoard catDictionary crossingBoard = Ok (board', allWordsAreValid)
      ∧ ∀ r c tile',
          getTile (Board.tiles board') r c = Ok tile' →
          Tile.state tile' = VALID
          ↔ covered (getWordsFromTilesLTR (Board.tiles crossingBoard)
                       ++ topToBottom) r c
            ∧ ∀ w, w ∈ getWordsFromTilesLTR (Board.tiles crossingBoard)
                         ++ topToBottom →
                   spans w r c → inDictionary catDictionary w.
Proof.
  split_and!; [exact crossingBoard_gridShape|exact crossingBoard_singleCharacters|].
  exact (valid_tiles_characterised catDictionary crossingBoard
           crossingBoard_gridShape crossingBoard_singleCharacters).
Defined.

(** X9. On a board that honours the grid invariants, the tiles the
    candidate words span are the tiles with a letter that have a tile with
    a letter next to them, in their row or in their column. *)
Theorem tiles_in_words_have_neighbours (tiles : list (list Tile.t)) :
  gridShape tiles → singleCharacters tiles →
  ∃ topToBottom,
    getWordsFromTilesTTB tiles = Ok topToBottom
    ∧ ∀ r c,
        covered (getWordsFromTilesLTR tiles ++ topToBottom) r c
        ↔ occupiedAt tiles (r, c)
          ∧ ∃ q, adjacent (r, c) q ∧ occupiedAt tiles q.
Proof.
  intros Hg Hs.
  destruct (getWordsFromTilesTTB_elem_of tiles Hg Hs) as (ttb & Httb & _).
  exists ttb. split; [done|]. intros r c. by apply covered_iff.
Qed.

Lemma tiles_in_words_have_neighbours_witness :
  gridShape (Board.tiles crossingBoard)
  ∧ singleCharacters (Board.tiles crossingBoard)
  ∧ ∃ topToBottom,
      getWordsFromTilesTTB (Board.tiles crossingBoard) = Ok topToBottom
      ∧ ∀ r c,
          covered (getWordsFromTilesLTR (Board.tiles crossingBoard)
                     ++ topToBottom) r c
          ↔ occupiedAt (Board.tiles crossingBoard) (r, c)
            ∧ ∃ q, adjacent (r, c) q ∧ occupiedAt (Board.tiles crossingBoard) q.
Proof.
  split_and!; [exact crossingBoard_gridShape|exact crossingBoard_singleCharacters|].
  exact (tiles_in_words_have_neighbours (Board.tiles crossingBoard)
           crossingBoard_gridShape crossingBoard_singleCharacters).
Defined.

(** X10. On a board that honours the grid invariants, the boolean
    [validateBoard] returns is true exactly when, in the board it returns,
    every tile with a letter that has a tile with a letter next to it is
    VALID. *)
Theorem allWordsAreValid_iff_neighboured_tiles_valid {Cursor}
    (dictionary : gset string) (board : Board.t Cursor) :
  gridShape (Board.tiles board) → singleCharacters (Board.tiles board) →
  ∃ board' allWordsAreValid,
    validateBoard dictionary board = Ok (board', allWordsAreValid)
    ∧ (allWordsAreValid = true
       ↔ ∀ r c tile',
           getTile (Board.tiles board') r c = Ok tile' →
           Tile.letter tile' ≠ None →
           (∃ q, adjacent (r, c) q ∧ occupiedAt (Board.tiles board) q) →
           Tile.state tile' = VALID).
Proof.
  intros Hg Hs.
  destruct (validateBoard_total dictionary board Hg Hs) as (ttb & Httb & Hv).
  eexists _, _. split; [exact Hv|]. simpl.
  rewrite (allValid_iff_covered_valid dictionary _ ttb Hg Hs Httb). split.
  - intros Hall r c tile'. rewrite getTile_mapGrid.
    destruct (getTile (Board.tiles board) r c) as [tile|] eqn:Hget; [|done].
    intros [= <-] Hletter Hq. apply Hall; [done|].
    apply (covered_iff _ ttb Hg Hs Httb). split; [|done]. exists tile.
    split; [done|]. unfold occupied.
    by destruct (annotate_fields dictionary
                   (getWordsFromTilesLTR (Board.tiles board) ++ ttb) r c tile)
      as (_ & _ & _ & <-).
  - intros Hall r c tile Hget Hcov.
    pose proof Hcov as [(tile0 & Hget0 & Hocc) Hq]%(covered_iff _ ttb Hg Hs Httb).
    simpl in Hget0. rewrite Hget in Hget0. injection Hget0 as <-.
    apply (Hall r c); [by rewrite getTile_mapGrid, Hget| |done].
    by destruct (annotate_fields dictionary
                   (getWordsFromTilesLTR (Board.tiles board) ++ ttb) r c tile)
      as (_ & _ & _ & ->).
Qed.

Lemma allWordsAreValid_iff_neighboured_tiles_valid_witness :
  gridShape (Board.tiles crossingBoard)
  ∧ singleCharacters (Board.tiles crossingBoard)
  ∧ ∃ board' allWordsAreValid,
      validateBoard catCotDictionary crossingBoard = Ok (board', allWordsAreValid)
      ∧ allWordsAreValid = true
      ∧ ∀ r c tile',
          getTile (Board.tiles board') r c = Ok tile' →
          Tile.letter tile' ≠ None →
          (∃ q, adjacent (r, c) q ∧ occupiedAt (Board.tiles crossingBoard) q) →
          Tile.state tile' = VALID.
Proof.
  split_and!; [exact crossingBoard_gridShape|exact crossingBoard_singleCharacters|].
  destruct (allWordsAreValid_iff_neighboured_tiles_valid catCotDictionary
              crossingBoard crossingBoard_gridShape crossingBoard_singleCharacters)
    as (board' & v & Hv & Hiff).
  exists board', v. split; [exact Hv|].
  assert (v = true) as Htrue by (vm_compute in Hv; by injection Hv as _ <-).
  split; [exact Htrue|]. by apply Hiff.
Defined.

(** X11. [validateBoard] is monotone in the dictionary: on a board that
    honours the grid invariants, with a larger dictionary every tile that
    was VALID is VALID and, if the boolean was true, it is true. *)
Theorem validateBoard_monotone_in_dictionary {Cursor} (d1 d2 : gset string)
    (board : Board.t Cursor) :
  d1 ⊆ d2 →
  gridShape (Board.tiles board) → singleCharacters (Board.tiles board) →
  ∃ board1 v1 board2 v2,
    validateBoard d1 board = Ok (board1, v1)
    ∧ validateBoard d2 board = Ok (board2, v2)
    ∧ (v1 = true → v2 = true)
    ∧ ∀ r c tile1,
        getTile (Board.tiles board1) r c = Ok tile1 →
        Tile.state tile1 = VALID →
        ∃ tile2, getTile (Board.tiles board2) r c = Ok tile2
                 ∧ Tile.state tile2 = VALID.
Proof.
  intros Hsub Hg Hs.
  destruct (validateBoard_total d1 board Hg Hs) as (ttb & Httb & Hv1).
  destruct (validateBoard_total d2 board Hg Hs) as (ttb' & Httb' & Hv2).
  rewrite Httb in Httb'. injection Httb' as <-.
  eexists _, _, _, _. split_and!; [exact Hv1|exact Hv2|..].
  - by apply allWordsAreValid_mono.
  - simpl. intros r c tile1. rewrite !getTile_mapGrid.
    destruct (getTile (Board.tiles board) r c) as [tile|] eqn:Hget; [|done].
    intros [= <-] Hvalid. eexists. split; [done|].
    by eapply annotate_mono.
Qed.

Lemma validateBoard_monotone_in_dictionary_witness :
  catDictionary ⊆ catCotDictionary
  ∧ gridShape (Board.tiles crossingBoard)
  ∧ singleCharacters (Board.tiles crossingBoard)
  ∧ ∃ board1 v1 board2 v2,
      validateBoard catDictionary crossingBoard = Ok (board1, v1)
      ∧ validateBoard catCotDictionary crossingBoard = Ok (board2, v2)
      ∧ (v1 = true → v2 = true)
      ∧ ∀ r c tile1,
          getTile (Board.tiles board1) r c = Ok tile1 →
          Tile.state tile1 = VALID →
          ∃ tile2, getTile (Board.tiles board2) r c = Ok tile2
                   ∧ Tile.state tile2 = VALID.
Proof.
  assert (catDictionary ⊆ catCotDictionary) as Hsub.
  { unfold catDictionary, catCotDictionary. set_solver. }
  split_and!; [exact Hsub|exact crossingBoard_gridShape
              |exact crossingBoard_singleCharacters|].
  exact (validateBoard_monotone_in_dictionary catDictionary catCotDictionary
           crossingBoard Hsub crossingBoard_gridShape
           crossingBoard_singleCharacters).
Defined.

(** X12. Counting after validating. On a board that honours the
    invariants, [countValidLettersOnBoard] of the board [validateBoard]
    returns is at most [countLettersOnBoard] of the input; if the two are
    equal the boolean is true; and on a board with two letters or more that
    passes [validateWordIsland], they are equal exactly when the boolean is
    true. *)
Theorem all_letters_valid_iff_all_words_valid {Cursor} (dictionary : gset string)
    (board : Board.t Cursor) :
  gridShape (Board.tiles board) → singleCharacters (Board.tiles board) →
  uniqueTileIds (Board.tiles board) → lettersUnshared (Board.tiles board) →
  ∃ board' allWordsAreValid,
    validateBoard dictionary board = Ok (board', allWordsAreValid)
    ∧ countValidLettersOnBoard board' ≤ countLettersOnBoard board
    ∧ (countValidLettersOnBoard board' = countLettersOnBoard board →
       allWordsAreValid = true)
    ∧ (validateWordIsland board = Ok true → 2 ≤ countLettersOnBoard board →
       allWordsAreValid = true →
       countValidLettersOnBoard board' = countLettersOnBoard board).
Proof.
  intros Hg Hs Hids Hu.
  destruct (validateBoard_total dictionary board Hg Hs) as (ttb & Httb & Hv).
  eexists _, _. split; [exact Hv|].
  unfold countValidLettersOnBoard, countLettersOnBoard. simpl.
  destruct (countValidTiles_le dictionary _ ttb Hg Hs Httb Hids Hu) as [Hle Hiff].
  split_and!; [done|..].
  - intros Heq. apply (all_valid_allWordsAreValid dictionary _ ttb Hg Hs Httb).
    by apply Hiff.
  - intros Hisland Htwo Hall. apply Hiff. intros r c tile Hget Hocc.
    destruct (validateWordIsland_spec _ Hg board eq_refl Hu) as (v & Hv' & Hconn).
    rewrite Hisland in Hv'. injection Hv' as <-.
    destruct Hconn as [(s & _ & Hconn) _]; [done|].
    apply (allValid_iff_covered_valid dictionary _ ttb Hg Hs Httb); [done..|].
    eapply (connected_covered _ ttb Hg Hs Httb s); [done| |done..].
    by rewrite <-(countFilledTiles_unshared _ Hu).
Qed.

Lemma all_letters_valid_iff_all_words_valid_witness :
  gridShape (Board.tiles crossingBoard)
  ∧ singleCharacters (Board.tiles crossingBoard)
  ∧ uniqueTileIds (Board.tiles crossingBoard)
  ∧ lettersUnshared (Board.tiles crossingBoard)
  ∧ validateWordIsland crossingBoard = Ok true
  ∧ 2 ≤ countLettersOnBoard crossingBoard
  ∧ ∃ board',
      validateBoard catCotDictionary crossingBoard = Ok (board', true)
      ∧ countValidLettersOnBoard board' = countLettersOnBoard crossingBoard.
Proof.
  assert (2 ≤ countLettersOnBoard crossingBoard) as Htwo
    by (apply (bool_decide_unpack _); vm_compute; exact I).
  split_and!; [exact crossingBoard_gridShape|exact crossingBoard_singleCharacters
              |exact crossingBoard_uniqueTileIds|exact crossingBoard_lettersUnshared
              |reflexivity|exact Htwo|].
  destruct (all_letters_valid_iff_all_words_valid catCotDictionary crossingBoard
              crossingBoard_gridShape crossingBoard_singleCharacters
              crossingBoard_uniqueTileIds crossingBoard_lettersUnshared)
    as (board' & v & Hv & _ & _ & Hcount).
  assert (v = true) as -> by (vm_compute in Hv; by injection Hv as _ <-).
  exists board'. split; [exact Hv|]. by apply Hcount.
Defined.

(** X13. [validateBoard] keeps what the other functions rely on: the board
    it returns honours each invariant the input honours, has the same
    [countLettersOnBoard], and gets the same answer from
    [validateWordIsland]. *)
Theorem validateBoard_keeps_invariants {Cursor} (dictionary : gset string)
    (board board' : Board.t Cursor) (allWordsAreValid : bool) :
  validateBoard dictionary board = Ok (board', allWordsAreValid) →
  (gridShape (Board.tiles board) → gridShape (Board.tiles board'))
  ∧ (singleCharacters (Board.tiles board) → singleCharacters (Board.tiles board'))
  ∧ (uniqueTileIds (Board.tiles board) → uniqueTileIds (Board.tiles board'))
  ∧ (lettersUnshared (Board.tiles board) → lettersUnshared (Board.tiles board'))
  ∧ countLettersOnBoard board' = countLettersOnBoard board
  ∧ (gridShape (Board.tiles board) → lettersUnshared (Board.tiles board) →
     validateWordIsland board' = validateWordIsland board).
Proof.
  intros Hv. destruct (validateBoard_writes_states _ _ _ _ Hv) as [Hc Heq].
  split_and!.
  - by apply resetGrid_gridShape.
  - by apply resetGrid_singleCharacters.
  - by apply resetGrid_uniqueTileIds.
  - by apply resetGrid_lettersUnshared.
  - by apply resetGrid_countFilledTiles.
  - intros Hg Hu. destruct board as [cursor tiles], board' as [cursor' tiles'].
    by apply resetGrid_validateWordIsland.
Qed.

Lemma validateBoard_keeps_invariants_witness :
  ∃ board',
    validateBoard catDictionary crossingBoard = Ok (board', false)
    ∧ gridShape (Board.tiles board')
    ∧ countLettersOnBoard board' = countLettersOnBoard crossingBoard
    ∧ validateWordIsland board' = validateWordIsland crossingBoard.
Proof.
  eexists. split; [reflexivity|].
  match goal with
  | |- gridShape (Board.tiles ?b) ∧ _ =>
      destruct (validateBoard_keeps_invariants catDictionary crossingBoard b false
                  eq_refl) as (Hg & _ & _ & _ & Hcount & Hisland)
  end.
  split_and!; [exact (Hg crossingBoard_gridShape)|exact Hcount|].
  exact (Hisland crossingBoard_gridShape crossingBoard_lettersUnshared).
Defined.



(** X15. The loops over the tiles of a word guard the rows of a column-wise
    word only: a row-wise word with a letter outside the grid, and a
    column-wise word with a letter in a row of the grid but outside it,
    make them throw a [TypeError]. *)
Theorem words_outside_the_grid_throw (f : TileState → TileState)
    (gridBounds : nat) (w : WordFromTile.t) (tiles : list (list Tile.t))
    (k : nat) :
  k < String.length (WordFromTile.word w) →
  match WordFromTile.direction w with
  | LeftToRight =>
      getTile tiles (WordFromTile.row w) (WordFromTile.col w + k) = Err TypeError
  | TopToBottom =>
      WordFromTile.row w + k < gridBounds
      ∧ getTile tiles (WordFromTile.row w + k) (WordFromTile.col w) = Err TypeError
  end →
  forTilesOfWord f gridBounds w tiles = Err TypeError.
Proof. apply forTilesOfWord_throws. Qed.

Lemma words_outside_the_grid_throw_witness :
  2 < String.length (WordFromTile.word overwideWord)
  ∧ getTile (Board.tiles crossingBoard) 0 (1 + 2) = Err TypeError
  ∧ forTilesOfWord markValid 3 overwideWord (Board.tiles crossingBoard)
    = Err TypeError.
Proof.
  split_and!; [simpl; lia|reflexivity|].
  apply (words_outside_the_grid_throw markValid 3 overwideWord
           (Board.tiles crossingBoard) 2); [simpl; lia|reflexivity].
Defined.

(** X16. [setLetterOnBoard] throws a [TypeError] when the position is not
    in the grid. Otherwise it writes the letter on the tile at the
    position and changes nothing else: the other tiles, the id, the
    position and the state of the tile, the shape of the grid and its
    invariants are kept, and writing back the previous letter of the tile
    restores the grid. *)
Theorem setLetterOnBoard_writes_one_letter (row col : nat)
    (letter : option Letter.t) (tiles : list (list Tile.t)) :
  match getTile tiles row col with
  | Err _ => setLetterOnBoard (row, col) letter tiles = Err TypeError
  | Ok tile =>
      ∃ tiles',
        setLetterOnBoard (row, col) letter tiles = Ok tiles'
        ∧ getTile tiles' row col = Ok (withLetter tile letter)
        ∧ (∀ r c, (r, c) ≠ (row, col) → getTile tiles' r c = getTile tiles r c)
        ∧ resetBoard tiles' = resetBoard tiles
        ∧ (gridShape tiles → gridShape tiles')
        ∧ (uniqueTileIds tiles → uniqueTileIds tiles')
        ∧ setLetterOnBoard (row, col) (Tile.letter tile) tiles' = Ok tiles
  end.
Proof.
  destruct (getTile tiles row col) as [tile|e] eqn:Hget;
    [|by eapply setLetterOnBoard_Err].
  eexists. split; [by apply (setLetterOnBoard_mapGrid _ _ _ _ tile)|].
  assert (getTile
            (mapGrid (λ r c tile',
                        if decide (r = row ∧ c = col) then withLetter tile' letter
                        else tile') tiles) row col
          = Ok (withLetter tile letter)) as Hget'.
  { rewrite getTile_mapGrid, Hget. by rewrite decide_True. }
  split_and!.
  - done.
  - intros r c Hne. rewrite getTile_mapGrid.
    destruct (getTile tiles r c); [|done]. rewrite decide_False; [done|].
    intros [-> ->]. done.
  - apply resetBoard_mapGrid_keep. intros r c tile'.
    case_decide; [by eexists|]. exists (Tile.letter tile').
    by rewrite withLetter_same.
  - apply gridShape_mapGrid. intros r c tile'. by case_decide.
  - unfold uniqueTileIds. rewrite (fmap_mapGrid Tile.id); [done|].
    intros r c tile'. by case_decide.
  - rewrite (setLetterOnBoard_mapGrid _ _ _ _ _ Hget'), mapGrid_mapGrid.
    f_equal. apply mapGrid_id. intros r c tile' Htile'.
    case_decide as Hpos; [|done]. destruct Hpos as [-> ->].
    rewrite Hget in Htile'. injection Htile' as <-.
    by rewrite withLetter_withLetter, withLetter_same.
Qed.

Lemma setLetterOnBoard_writes_one_letter_witness :
  ∃ tiles',
    setLetterOnBoard (1, 1) (Some (Letter.mk 6 "letter-6" "S"))
      (Board.tiles crossingBoard) = Ok tiles'
    ∧ getTile tiles' 1 1
      = Ok (withLetter (emptyTile "t11" 1 1) (Some (Letter.mk 6 "letter-6" "S")))
    ∧ setLetterOnBoard (1, 1) None tiles' = Ok (Board.tiles crossingBoard).
Proof.
  pose proof (setLetterOnBoard_writes_one_letter 1 1
                (Some (Letter.mk 6 "letter-6" "S")) (Board.tiles crossingBoard))
    as H.
  change (getTile (Board.tiles crossingBoard) 1 1)
    with (@Ok Tile.t (emptyTile "t11" 1 1)) in H.
  destruct H as (tiles' & Hset & Hget & _ & _ & _ & _ & Hback).
  exists tiles'. split_and!; [exact Hset|exact Hget|exact Hback].
Defined.

(** X17. [setLetterOnBoard] writes in place. With the tile objects in a
    store and no object at two positions of the grid, the grid it makes
    holds the references of the previous grid, the letter is written into
    the object at the position, and so the previous board reads the new
    letter too; when the position is not in the grid it throws. *)
Theorem setLetterOnBoard_writes_in_place (position : nat * nat)
    (letter : option Letter.t) (store : list Tile.t) (grid : list (list nat))
    (tiles : list (list Tile.t)) :
  NoDup (mjoin grid) →
  readGrid store grid = Ok tiles →
  match setLetterOnBoard position letter tiles with
  | Ok tiles' =>
      ∃ store',
        setLetterOnBoardIn position letter store grid = Ok (store', grid)
        ∧ readGrid store' grid = Ok tiles'
        ∧ length store' = length store
  | Err e => setLetterOnBoardIn position letter store grid = Err e
  end.
Proof. destruct position as [row col]. apply setLetterOnBoardIn_sim. Qed.

Lemma setLetterOnBoard_writes_in_place_witness :
  NoDup (mjoin (RefBoard.tiles crossingRefBoard))
  ∧ readGrid crossingStore (RefBoard.tiles crossingRefBoard)
    = Ok (Board.tiles crossingBoard)
  ∧ ∃ tiles' store',
      setLetterOnBoard (1, 1) (Some (Letter.mk 6 "letter-6" "S"))
        (Board.tiles crossingBoard) = Ok tiles'
      ∧ setLetterOnBoardIn (1, 1) (Some (Letter.mk 6 "letter-6" "S"))
          crossingStore (RefBoard.tiles crossingRefBoard)
        = Ok (store', RefBoard.tiles crossingRefBoard)
      ∧ readGrid store' (RefBoard.tiles crossingRefBoard) = Ok tiles'.
Proof.
  assert (NoDup (mjoin (RefBoard.tiles crossingRefBoard))) as Hnd by solve_NoDup.
  split_and!; [exact Hnd|reflexivity|].
  pose proof (setLetterOnBoard_writes_in_place (1, 1)
                (Some (Letter.mk 6 "letter-6" "S")) crossingStore
                (RefBoard.tiles crossingRefBoard) (Board.tiles crossingBoard)
                Hnd eq_refl) as H.
  destruct (setLetterOnBoard (1, 1) (Some (Letter.mk 6 "letter-6" "S"))
              (Board.tiles crossingBoard)) as [tiles'|] eqn:E; [|discriminate E].
  destruct H as (store' & Hset & Hread & _). by exists tiles', store'.
Defined.

(** X18. [resetBoard] takes the letter off every tile and keeps the rest:
    the ids, the positions and the states of the tiles and the shape of the
    grid. So [countLettersOnBoard] is 0 afterwards while
    [countValidLettersOnBoard] is what it was; and it is idempotent. *)
Theorem resetBoard_clears_letters_keeps_states {Cursor} (cursor : Cursor)
    (tiles : list (list Tile.t)) :
  (∀ r c,
     getTile (resetBoard tiles) r c
     = match getTile tiles r c with
       | Ok tile => Ok (withLetter tile None)
       | Err e => Err e
       end)
  ∧ (gridShape tiles → gridShape (resetBoard tiles))
  ∧ (uniqueTileIds tiles → uniqueTileIds (resetBoard tiles))
  ∧ countLettersOnBoard (Board.mk cursor (resetBoard tiles)) = 0
  ∧ countValidLettersOnBoard (Board.mk cursor (resetBoard tiles))
    = countValidLettersOnBoard (Board.mk cursor tiles)
  ∧ resetBoard (resetBoard tiles) = resetBoard tiles.
Proof.
  split_and!.
  - intros r c. by rewrite resetBoard_mapGrid, getTile_mapGrid.
  - rewrite resetBoard_mapGrid. by apply gridShape_mapGrid.
  - unfold uniqueTileIds. rewrite resetBoard_mapGrid.
    by rewrite (fmap_mapGrid Tile.id).
  - apply countFilledTiles_resetBoard.
  - apply countValidTiles_resetBoard.
  - transitivity (resetBoard (mapGrid (λ _ _ tile, withLetter tile None) tiles));
      [by rewrite <-resetBoard_mapGrid|].
    apply resetBoard_mapGrid_keep. intros r c tile. by eexists.
Qed.

Lemma resetBoard_clears_letters_keeps_states_witness :
  gridShape (Board.tiles crossingBoard)
  ∧ gridShape (resetBoard (Board.tiles crossingBoard))
  ∧ countLettersOnBoard (Board.mk () (resetBoard (Board.tiles crossingBoard))) = 0.
Proof.
  destruct (resetBoard_clears_letters_keeps_states ()
              (Board.tiles crossingBoard)) as (_ & Hg & _ & Hcount & _).
  split_and!; [exact crossingBoard_gridShape|exact (Hg crossingBoard_gridShape)
              |exact Hcount].
Defined.

(** X19. [resetBoard] copies the tiles. With the tile objects in a store,
    it adds one new object for every tile after the objects of the store
    and returns a grid of references to the new objects: the previous
    board reads as before, and the new board reads the grid without
    letters. *)
Theorem resetBoard_copies_the_tiles (store : list Tile.t)
    (grid : list (list nat)) (tiles : list (list Tile.t)) :
  readGrid store grid = Ok tiles →
  ∃ store' grid',
    resetBoardIn store grid = Ok (store', grid')
    ∧ store' = store ++ mjoin (resetBoard tiles)
    ∧ (∀ ref, ref ∈ mjoin grid' → length store ≤ ref < length store')
    ∧ readGrid store' grid = Ok tiles
    ∧ readGrid store' grid' = Ok (resetBoard tiles).
Proof.
  intros Hread. eexists _, _. split; [by apply resetBoardIn_sim|].
  split_and!.
  - done.
  - intros ref Href%elem_of_addresses. by rewrite length_app.
  - by apply readGrid_frame.
  - apply readGrid_addresses.
Qed.

Lemma resetBoard_copies_the_tiles_witness :
  readGrid crossingStore (RefBoard.tiles crossingRefBoard)
  = Ok (Board.tiles crossingBoard)
  ∧ ∃ store' grid',
      resetBoardIn crossingStore (RefBoard.tiles crossingRefBoard)
      = Ok (store', grid')
      ∧ readGrid store' (RefBoard.tiles crossingRefBoard)
        = Ok (Board.tiles crossingBoard)
      ∧ readGrid store' grid' = Ok (resetBoard (Board.tiles crossingBoard)).
Proof.
  split; [reflexivity|].
  destruct (resetBoard_copies_the_tiles crossingStore
              (RefBoard.tiles crossingRefBoard) (Board.tiles crossingBoard)
              eq_refl) as (store' & grid' & Hreset & _ & _ & Hold & Hnew).
  by exists store', grid'.
Defined.

(** X20. After [resetBoard], on a grid with a row, the board does not pass
    [validateWordIsland], [requestFinish] leaves it as it is and reports
    "Invalid tiles", no letter id is on the board and every letter is
    unused. *)
Theorem cleared_board_cannot_finish {Cursor} (dictionary : gset string)
    (cursor : Cursor) (letters : list Letter.t) (tiles : list (list Tile.t)) :
  tiles ≠ [] →
  validateWordIsland (Board.mk cursor (resetBoard tiles)) = Ok false
  ∧ requestFinish dictionary (Board.mk cursor (resetBoard tiles))
    = Ok (Board.mk cursor (resetBoard tiles), ["Invalid tiles"])
  ∧ boardLetterIds (resetBoard tiles) = ∅
  ∧ unusedLetters letters (resetBoard tiles) = letters.
Proof.
  intros Hrows.
  assert (validateWordIsland (Board.mk cursor (resetBoard tiles)) = Ok false)
    as Hisland.
  { apply validateWordIsland_letterless.
    - simpl. unfold resetBoard. intros Hnil%fmap_nil_inv. done.
    - intros tile. apply resetBoard_letterless. }
  split_and!; [done| |apply boardLetterIds_resetBoard|].
  - unfold requestFinish, requestFinishWith. by rewrite Hisland.
  - unfold unusedLetters. rewrite boardLetterIds_resetBoard.
    induction letters as [|l letters IH]; [done|].
    rewrite filter_cons, decide_True, IH by set_solver. done.
Qed.

Lemma cleared_board_cannot_finish_witness :
  Board.tiles crossingBoard ≠ []
  ∧ requestFinish catDictionary
      (Board.mk () (resetBoard (Board.tiles crossingBoard)))
    = Ok (Board.mk () (resetBoard (Board.tiles crossingBoard)), ["Invalid tiles"])
  ∧ unusedLetters crossingLetters (resetBoard (Board.tiles crossingBoard))
    = crossingLetters.
Proof.
  assert (Board.tiles crossingBoard ≠ []) as Hrows by done.
  destruct (cleared_board_cannot_finish catDictionary () crossingLetters
              (Board.tiles crossingBoard) Hrows) as (_ & Hfinish & _ & Hunused).
  split_and!; [exact Hrows|exact Hfinish|exact Hunused].
Defined.

(** X21. When the ids of the player's letters are distinct and every
    letter on the board has the id of one of them, the unused letters and
    the ids on the board add up to the player's letters. *)
Theorem unused_and_placed_letters_add_up (letters : list Letter.t)
    (tiles : list (list Tile.t)) :
  NoDup (Letter.id <$> letters) →
  (∀ tile l, tile ∈ mjoin tiles → Tile.letter tile = Some l →
     Letter.id l ∈ Letter.id <$> letters) →
  length (unusedLetters letters tiles) + size (boardLetterIds tiles)
  = length letters.
Proof.
  intros Hnd Hsub.
  rewrite <-(used_letters_size letters (boardLetterIds tiles) Hnd).
  - unfold unusedLetters.
    rewrite Nat.add_comm.
    apply (filter_partition_length (λ l, Letter.id l ∈ boardLetterIds tiles)).
  - intros i (tile & l & Htile & Hl & <-)%elem_of_boardLetterIds. eauto.
Qed.

Lemma unused_and_placed_letters_add_up_witness :
  NoDup (Letter.id <$> crossingLetters)
  ∧ length (unusedLetters crossingLetters (Board.tiles crossingBoard)) = 2
  ∧ size (boardLetterIds (Board.tiles crossingBoard)) = 5.
Proof.
  assert (NoDup (Letter.id <$> crossingLetters)) as Hnd by solve_NoDup.
  assert (length (unusedLetters crossingLetters (Board.tiles crossingBoard)) = 2)
    as Hunused by (vm_compute; reflexivity).
  split_and!; [exact Hnd|exact Hunused|].
  assert (length (unusedLetters crossingLetters (Board.tiles crossingBoard))
          + size (boardLetterIds (Board.tiles crossingBoard))
          = length crossingLetters) as Hsum.
  { apply (unused_and_placed_letters_add_up crossingLetters
             (Board.tiles crossingBoard) Hnd).
    intros tile l Hin Hl. simpl in Hin. elem_cases Hin; simpl in Hl;
      simplify_eq; apply (bool_decide_unpack _); vm_compute; exact I. }
  assert (length crossingLetters = 7) as Hlen by reflexivity.
  rewrite Hunused, Hlen in Hsum. clear -Hsum. lia.
Defined.

(** X22. After [setLetterOnBoard] the letter that was placed is on the
    board and is not unused any more, and no other id came onto the
    board: an id on the board afterwards was there before or is the id of
    the letter placed. *)
Theorem placed_letter_is_used (position : nat * nat) (letter : option Letter.t)
    (letters : list Letter.t) (tiles tiles' : list (list Tile.t)) :
  setLetterOnBoard position letter tiles = Ok tiles' →
  (∀ l, letter = Some l →
        Letter.id l ∈ boardLetterIds tiles'
        ∧ l ∉ unusedLetters letters tiles')
  ∧ (∀ i, i ∈ boardLetterIds tiles' →
          i ∈ boardLetterIds tiles ∨ ∃ l, letter = Some l ∧ Letter.id l = i)
  ∧ (∀ l, l ∈ unusedLetters letters tiles →
          (∀ l', letter = Some l' → Letter.id l' ≠ Letter.id l) →
          l ∈ unusedLetters letters tiles').
Proof.
  destruct position as [row col]. intros Hset.
  destruct (getTile tiles row col) as [tile|e] eqn:Hget;
    [|by rewrite (setLetterOnBoard_Err _ _ _ _ _ Hget) in Hset].
  rewrite (setLetterOnBoard_mapGrid _ _ _ _ _ Hget) in Hset.
  injection Hset as <-.
  assert (∀ i, i ∈ boardLetterIds
                     (mapGrid (λ r c tile',
                                 if decide (r = row ∧ c = col)
                                 then withLetter tile' letter else tile') tiles) →
               i ∈ boardLetterIds tiles ∨ ∃ l, letter = Some l ∧ Letter.id l = i)
    as Hback.
  { intros i (tile' & l & Htile' & Hl & <-)%elem_of_boardLetterIds.
    apply elem_of_mapGrid in Htile' as (r & c & tile0 & Hget0 & ->).
    case_decide.
    - right. exists l. by split.
    - left. apply elem_of_boardLetterIds. exists tile0, l.
      split_and!; [by eapply getTile_elem_of|done..]. }
  assert (∀ l, letter = Some l →
               Letter.id l ∈ boardLetterIds
                 (mapGrid (λ r c tile',
                             if decide (r = row ∧ c = col)
                             then withLetter tile' letter else tile') tiles))
    as Hin.
  { intros l ->. apply elem_of_boardLetterIds.
    exists (withLetter tile (Some l)), l. split_and!; [|done..].
    eapply getTile_elem_of. rewrite getTile_mapGrid, Hget.
    by rewrite decide_True. }
  split_and!.
  - intros l Hl. split; [by apply Hin|].
    unfold unusedLetters. intros [Hnot _]%list_elem_of_filter.
    apply Hnot. by apply Hin.
  - done.
  - unfold unusedLetters. intros l [Hnot Hl]%list_elem_of_filter Hother.
    apply list_elem_of_filter. split; [|done].
    intros [Hi|(l' & Hl' & Hi)]%Hback; [done|]. by eapply Hother.
Qed.

Lemma placed_letter_is_used_witness :
  ∃ tiles',
    setLetterOnBoard (1, 1) (Some (Letter.mk 6 "letter-6" "S"))
      (Board.tiles crossingBoard) = Ok tiles'
    ∧ "letter-6" ∈ boardLetterIds tiles'
    ∧ Letter.mk 6 "letter-6" "S" ∉ unusedLetters crossingLetters tiles'.
Proof.
  eexists. split; [reflexivity|].
  match goal with
  | |- _ ∈ boardLetterIds ?t ∧ _ =>
      destruct (placed_letter_is_used (1, 1) (Some (Letter.mk 6 "letter-6" "S"))
                  crossingLetters (Board.tiles crossingBoard) t eq_refl)
        as (Hplaced & _ & _)
  end.
  exact (Hplaced _ eq_refl).
Defined.
